(** * SocialChat realtime client: conversation ids, the [useWebSocket] hook
    and the video-call signaling of [VideoCallModal].

  The development embeds three pieces of the client:
  - the conversation id derived in FriendChat and RealTimeChat
    ([[user.id, selectedFriend.id].sort().join('_')]);
  - the [useWebSocket] hook: connection life cycle with reconnect
    back-off, presence, typing registry and the outbound operations;
  - the signaling handlers of [VideoCallModal] ([initializeMedia],
    [initializeWebRTC], the [ws.onmessage] switch, [createPeerConnection],
    [handleIncomingCall], ...).

  JavaScript objects that are mutated in place ([Set]s stored in the
  typing [Map], [WebSocket]s, [RTCPeerConnection]s) live in explicit
  stores; React state is a record that the setters replace; closures carry
  the values they captured at render time. *)

From stdpp Require Import gmap strings list fin_maps pretty.
From Stdlib Require Import ZArith Lia.

Local Open Scope Z_scope.
Local Open Scope string_scope.

(* ===================================================================== *)
(** ** JavaScript building blocks *)
(* ===================================================================== *)

Module JS.

(** [Number::toString] on an integer: its decimal expansion, with a
    leading minus sign for negative numbers.  (JavaScript switches to
    exponent notation from 1e21 on; user ids are database serials, far
    below that.) *)
Definition ToString (n : Z) : string := pretty n.

(** [SortCompare] of [Array.prototype.sort] called without a comparator:
    both elements are converted with [ToString] and the strings are
    compared by code unit. *)
Definition SortCompare (x y : Z) : comparison :=
  let xString := ToString x in
  let yString := ToString y in
  if String.ltb xString yString then Lt
  else if String.ltb yString xString then Gt
  else Eq.

(** A stable sort driven by [SortCompare] (the specification requires
    [sort] to be stable): insertion from the right. *)
Fixpoint sort_insert (x : Z) (l : list Z) : list Z :=
  match l with
  | [] => [x]
  | y :: l' =>
      match SortCompare x y with
      | Gt => y :: sort_insert x l'
      | _ => x :: l
      end
  end.

Fixpoint sort (l : list Z) : list Z :=
  match l with
  | [] => []
  | x :: l' => sort_insert x (sort l')
  end.

(** [Array.prototype.join]. *)
Fixpoint join (sep : string) (l : list Z) : string :=
  match l with
  | [] => ""
  | [x] => ToString x
  | x :: l' => ToString x ++ sep ++ join sep l'
  end.

(** A [Set<number>]: its elements in insertion order, as iteration and
    [Array.from] expose them. *)
Definition NumSet := list Z.

Definition set_has (s : NumSet) (x : Z) : bool := bool_decide (x ∈ s).

Definition set_add (s : NumSet) (x : Z) : NumSet :=
  if set_has s x then s else (s ++ [x])%list.

Definition set_delete (s : NumSet) (x : Z) : NumSet :=
  filter (λ y, y ≠ x) s.

Definition set_size (s : NumSet) : nat := length s.

(** [new Set(iterable)]. *)
Definition set_from (l : list Z) : NumSet := foldl set_add [] l.

(** What a call returns: a value, or a thrown [Error] with its message. *)
Inductive Result (A : Type) : Type :=
| Return (a : A)
| Throw (message : string).
Arguments Return {A} a.
Arguments Throw {A} message.

End JS.

(* ===================================================================== *)
(** ** Conversation ids (FriendChat, RealTimeChat) *)
(* ===================================================================== *)

Module Chat.

Definition UserId := Z.

(** [[a, b].sort().join('_')] *)
Definition conversationIdOf (a b : UserId) : string :=
  JS.join "_" (JS.sort [a; b]).

(** [const conversationId = selectedFriend && user
      ? [user.id, selectedFriend.id].sort().join('_') : null]
    (the same expression in both chat components). *)
Definition conversationId (user selectedFriend : option UserId) : option string :=
  match selectedFriend, user with
  | Some f, Some u => Some (conversationIdOf u f)
  | _, _ => None
  end.

(** The claim's reading: the two ids in ascending numeric order, joined
    with an underscore. *)
Definition numericConversationId (a b : UserId) : string :=
  JS.ToString (Z.min a b) ++ "_" ++ JS.ToString (Z.max a b).

End Chat.

(* ===================================================================== *)
(** ** The [useWebSocket] hook *)
(* ===================================================================== *)

Module UseWebSocket.
Import JS.

(** [WebSocket.readyState] *)
Inductive ReadyState := CONNECTING | OPEN | CLOSING | CLOSED.

#[global] Instance ReadyState_eq_dec : EqDecision ReadyState.
Proof. solve_decision. Defined.

(** The JSON texts the hook hands to [ws.send]. *)
Inductive Outbound :=
| join_out (userId : Z)
| message_out (receiverId : Z) (content : string)
              (imageUrl : option string) (timestamp : string)
| typing_out (conversationId : string) (isTyping : bool)
| mark_read_out (messageId : Z) (conversationId : string)
| status_update_out (status : string)
| join_conversation_out (conversationId : string)
| leave_conversation_out (conversationId : string).

(** A [WebSocket] object: its state and what was transmitted on it. *)
Record WebSocket := mkWebSocket {
  readyState : ReadyState;
  transmitted : list Outbound
}.

(** The parsed inbound [WebSocketMessage], by [message.type]; payloads the
    hook only forwards stay opaque text. *)
Inductive WebSocketMessage :=
| user_list (userIds : option (list Z))
| online (userId : Z)
| offline (userId : Z)
| user_status (userId : Z) (status : string)
| typing (conversationId : string) (userId : Z) (isTyping : bool)
| message_read (data : string)
| new_message (data : string)
| message_sent (data : string)
| new_notification (data : string)
| unknown_type (type : string).

(** Address of a [Set] object held by the typing [Map]. *)
Definition loc := nat.

(** Everything the hook owns: refs, React state, the objects they point
    to, and the calls made to [setTimeout] and to registered handlers. *)
Record Hook := mkHook {
  user : option Z;                         (* useAuth().user?.id *)
  sockets : list WebSocket;                (* every WebSocket created *)
  wsRef : option nat;                      (* wsRef.current *)
  isConnected : bool;
  onlineUsers : NumSet;
  setHeap : gmap loc NumSet;               (* the Set objects *)
  typingUsers : gmap string loc;           (* Map<string, Set<number>> *)
  userStatuses : gmap Z string;
  reconnectAttempts : nat;                 (* reconnectAttempts.current *)
  scheduled : list Z;                      (* delay of each setTimeout call *)
  fired : nat;                             (* timeouts that have run *)
  messageHandlers : gset string;           (* types with a handler *)
  delivered : list (string * string)       (* handler(type)(data) calls *)
}.

Definition maxReconnectAttempts : nat := 5.

Definition initial (u : option Z) : Hook :=
  mkHook u [] None false [] ∅ ∅ ∅ 0 [] 0 ∅ [].

(** *** Field updates *)

Definition with_sockets (v : list WebSocket) (h : Hook) : Hook :=
  mkHook (user h) v (wsRef h) (isConnected h) (onlineUsers h) (setHeap h)
    (typingUsers h) (userStatuses h) (reconnectAttempts h) (scheduled h)
    (fired h) (messageHandlers h) (delivered h).

Definition with_wsRef (v : option nat) (h : Hook) : Hook :=
  mkHook (user h) (sockets h) v (isConnected h) (onlineUsers h) (setHeap h)
    (typingUsers h) (userStatuses h) (reconnectAttempts h) (scheduled h)
    (fired h) (messageHandlers h) (delivered h).

Definition setIsConnected (v : bool) (h : Hook) : Hook :=
  mkHook (user h) (sockets h) (wsRef h) v (onlineUsers h) (setHeap h)
    (typingUsers h) (userStatuses h) (reconnectAttempts h) (scheduled h)
    (fired h) (messageHandlers h) (delivered h).

(** [setOnlineUsers(prev => f(prev))] *)
Definition setOnlineUsers (f : NumSet → NumSet) (h : Hook) : Hook :=
  mkHook (user h) (sockets h) (wsRef h) (isConnected h) (f (onlineUsers h))
    (setHeap h) (typingUsers h) (userStatuses h) (reconnectAttempts h)
    (scheduled h) (fired h) (messageHandlers h) (delivered h).

(** [setTypingUsers(prev => ...)]: the updater also mutates [Set] objects,
    so it transforms the heap together with the map. *)
Definition setTypingUsers
    (f : gmap loc NumSet * gmap string loc → gmap loc NumSet * gmap string loc)
    (h : Hook) : Hook :=
  let r := f (setHeap h, typingUsers h) in
  mkHook (user h) (sockets h) (wsRef h) (isConnected h) (onlineUsers h)
    r.1 r.2 (userStatuses h) (reconnectAttempts h) (scheduled h)
    (fired h) (messageHandlers h) (delivered h).

Definition setUserStatuses (f : gmap Z string → gmap Z string) (h : Hook) : Hook :=
  mkHook (user h) (sockets h) (wsRef h) (isConnected h) (onlineUsers h)
    (setHeap h) (typingUsers h) (f (userStatuses h)) (reconnectAttempts h)
    (scheduled h) (fired h) (messageHandlers h) (delivered h).

Definition with_reconnectAttempts (v : nat) (h : Hook) : Hook :=
  mkHook (user h) (sockets h) (wsRef h) (isConnected h) (onlineUsers h)
    (setHeap h) (typingUsers h) (userStatuses h) v (scheduled h)
    (fired h) (messageHandlers h) (delivered h).

(** [setTimeout(callback, delay)]; the only callback the hook ever
    schedules is the reconnect one, [reconnect_callback] below. *)
Definition setTimeout (delay : Z) (h : Hook) : Hook :=
  mkHook (user h) (sockets h) (wsRef h) (isConnected h) (onlineUsers h)
    (setHeap h) (typingUsers h) (userStatuses h) (reconnectAttempts h)
    (scheduled h ++ [delay])%list (fired h) (messageHandlers h) (delivered h).

Definition with_fired (v : nat) (h : Hook) : Hook :=
  mkHook (user h) (sockets h) (wsRef h) (isConnected h) (onlineUsers h)
    (setHeap h) (typingUsers h) (userStatuses h) (reconnectAttempts h)
    (scheduled h) v (messageHandlers h) (delivered h).

Definition with_messageHandlers (v : gset string) (h : Hook) : Hook :=
  mkHook (user h) (sockets h) (wsRef h) (isConnected h) (onlineUsers h)
    (setHeap h) (typingUsers h) (userStatuses h) (reconnectAttempts h)
    (scheduled h) (fired h) v (delivered h).

Definition call_handler (type data : string) (h : Hook) : Hook :=
  mkHook (user h) (sockets h) (wsRef h) (isConnected h) (onlineUsers h)
    (setHeap h) (typingUsers h) (userStatuses h) (reconnectAttempts h)
    (scheduled h) (fired h) (messageHandlers h) (delivered h ++ [(type, data)])%list.

(** *** Sockets *)

(** [ws.send(data)] on socket [i]: transmits when the socket is open,
    throws [InvalidStateError] while it is still connecting, and drops
    the data once the socket is closing or closed. *)
Definition ws_send (i : nat) (data : Outbound) (h : Hook) : Result unit * Hook :=
  match sockets h !! i with
  | Some ws =>
      match readyState ws with
      | OPEN =>
          (Return (),
           with_sockets
             (<[i := mkWebSocket OPEN (transmitted ws ++ [data])%list]> (sockets h)) h)
      | CONNECTING => (Throw "InvalidStateError", h)
      | _ => (Return (), h)
      end
  | None => (Return (), h)
  end.

(** [!wsRef.current || wsRef.current.readyState !== WebSocket.OPEN],
    negated: the test every outbound operation starts with. *)
Definition socketOpen (h : Hook) : bool :=
  match wsRef h with
  | Some i =>
      match sockets h !! i with
      | Some ws => bool_decide (readyState ws = OPEN)
      | None => false
      end
  | None => false
  end.

(** [wsRef.current.send(data)] *)
Definition wsRef_send (data : Outbound) (h : Hook) : Result unit * Hook :=
  match wsRef h with
  | Some i => ws_send i data h
  | None => (Throw "TypeError", h)
  end.

(** [connect]: returns at once without a user, otherwise creates a socket
    and stores it in [wsRef]. *)
Definition connect (h : Hook) : Hook :=
  match user h with
  | None => h
  | Some _ =>
      let ws := length (sockets h) in
      with_wsRef (Some ws)
        (with_sockets (sockets h ++ [mkWebSocket CONNECTING []])%list h)
  end.

(** The browser's part of an event on socket [i]: the state change that
    precedes the handler call. *)
Definition set_readyState (i : nat) (s : ReadyState) (h : Hook) : Hook :=
  match sockets h !! i with
  | Some ws => with_sockets (<[i := mkWebSocket s (transmitted ws)]> (sockets h)) h
  | None => h
  end.

(** [ws.onopen] *)
Definition ws_onopen (i : nat) (h : Hook) : Hook :=
  let h := setIsConnected true h in
  let h := with_reconnectAttempts 0 h in
  match user h with
  | Some uid => (ws_send i (join_out uid) h).2
  | None => h
  end.

(** The reconnect delay computed in [ws.onclose]:
    [Math.min(1000 * Math.pow(2, reconnectAttempts.current), 10000)]. *)
Definition reconnectDelay (attempts : nat) : Z :=
  Z.min (1000 * 2 ^ Z.of_nat attempts) 10000.

(** [ws.onclose] *)
Definition ws_onclose (h : Hook) : Hook :=
  let h := setIsConnected false h in
  if bool_decide (reconnectAttempts h < maxReconnectAttempts)%nat
  then setTimeout (reconnectDelay (reconnectAttempts h)) h
  else h.

(** The callback given to [setTimeout]:
    [() => { reconnectAttempts.current++; connect(); }] *)
Definition reconnect_callback (h : Hook) : Hook :=
  connect (with_reconnectAttempts (S (reconnectAttempts h)) h).

(** *** Events delivered by the browser *)

(** Socket [i] opens: [readyState] becomes [OPEN], then [onopen] runs. *)
Definition opened (i : nat) (h : Hook) : Hook :=
  ws_onopen i (set_readyState i OPEN h).

(** Socket [i] closes: [readyState] becomes [CLOSED], then [onclose] runs. *)
Definition closed (i : nat) (h : Hook) : Hook :=
  ws_onclose (set_readyState i CLOSED h).

(** The oldest pending timeout, if there is one, runs its callback. *)
Definition timer_fires (h : Hook) : Hook :=
  if bool_decide (fired h < length (scheduled h))%nat
  then reconnect_callback (with_fired (S (fired h)) h)
  else h.

(** A failed attempt: the socket closes and the reconnect timer, when
    [onclose] scheduled one, runs.  [failures closing h] is one failed attempt
    after the other, [closing] naming the socket that closes each time. *)
Definition failed_attempt (i : nat) (h : Hook) : Hook :=
  timer_fires (closed i h).

Definition failures (closing : list nat) (h : Hook) : Hook :=
  foldl (λ h i, failed_attempt i h) h closing.

(** *** Inbound messages *)

(** The updater of the ['typing'] case.  [new Map(prev)] copies the map
    but shares the [Set] objects, which are then mutated in place. *)
Definition typing_updater (conversationId : string) (userId : Z) (isTyping : bool)
    (st : gmap loc NumSet * gmap string loc) : gmap loc NumSet * gmap string loc :=
  let '(heap, prev) := st in
  let newMap := prev in
  let '(heap, newMap) :=
    match newMap !! conversationId with
    | Some _ => (heap, newMap)
    | None =>
        let l := fresh (dom heap) in
        (<[l := []]> heap, <[conversationId := l]> newMap)
    end in
  match newMap !! conversationId with
  | Some l =>
      let typingSet := default [] (heap !! l) in
      let typingSet :=
        if isTyping then set_add typingSet userId
        else set_delete typingSet userId in
      let heap := <[l := typingSet]> heap in
      if bool_decide (set_size typingSet = 0%nat)
      then (heap, delete conversationId newMap)
      else (heap, newMap)
  | None => (heap, newMap)
  end.

(** Forwarding to a registered handler:
    [const handler = messageHandlers.current.get(type);
     if (handler) handler(message.data)] *)
Definition forward (type data : string) (h : Hook) : Hook :=
  if bool_decide (type ∈ messageHandlers h) then call_handler type data h else h.

(** [handleMessage] *)
Definition handleMessage (message : WebSocketMessage) (h : Hook) : Hook :=
  match message with
  | user_list userIds =>
      setOnlineUsers (λ _, set_from (default [] userIds)) h
  | online userId =>
      setOnlineUsers (λ prev, set_add prev userId) h
  | offline userId =>
      let h := setOnlineUsers (λ prev, set_delete prev userId) h in
      setUserStatuses (λ prev, <[userId := "offline"]> prev) h
  | user_status userId status =>
      setUserStatuses (λ prev, <[userId := status]> prev) h
  | typing conversationId userId isTyping =>
      setTypingUsers (typing_updater conversationId userId isTyping) h
  | message_read data => forward "message_read" data h
  | new_message data => forward "new_message" data h
  | message_sent data => forward "message_sent" data h
  | new_notification data => forward "new_notification" data h
  | unknown_type _ => h
  end.

(** Envelopes are handled one at a time, in arrival order. *)
Definition handleMessages (messages : list WebSocketMessage) (h : Hook) : Hook :=
  foldl (λ h m, handleMessage m h) h messages.

(** *** Outbound operations *)

Record MessageData := mkMessageData {
  receiverId : Z;
  content : string;
  imageUrl : option string;
  timestamp : string
}.

(** [sendMessage]; [now] is [new Date().toISOString()]. *)
Definition sendMessage (now : string) (receiverId : Z) (content : string)
    (imageUrl : option string) (h : Hook) : Result MessageData * Hook :=
  if negb (socketOpen h) then (Throw "WebSocket not connected", h)
  else
    let messageData := mkMessageData receiverId content imageUrl now in
    match wsRef_send (message_out receiverId content imageUrl now) h with
    | (Return _, h') => (Return messageData, h')
    | (Throw e, h') => (Throw e, h')
    end.

Definition sendTypingIndicator (conversationId : string) (isTyping : bool)
    (h : Hook) : Result unit * Hook :=
  if negb (socketOpen h) then (Return (), h)
  else wsRef_send (typing_out conversationId isTyping) h.

Definition sendReadReceipt (messageId : Z) (conversationId : string)
    (h : Hook) : Result unit * Hook :=
  if negb (socketOpen h) then (Return (), h)
  else wsRef_send (mark_read_out messageId conversationId) h.

Definition sendStatusUpdate (status : string) (h : Hook) : Result unit * Hook :=
  if negb (socketOpen h) then (Return (), h)
  else wsRef_send (status_update_out status) h.

Definition joinConversation (conversationId : string) (h : Hook) : Result unit * Hook :=
  if negb (socketOpen h) then (Return (), h)
  else wsRef_send (join_conversation_out conversationId) h.

Definition leaveConversation (conversationId : string) (h : Hook) : Result unit * Hook :=
  if negb (socketOpen h) then (Return (), h)
  else wsRef_send (leave_conversation_out conversationId) h.

(** [onMessage] / [offMessage] *)
Definition onMessage (type : string) (h : Hook) : Hook :=
  with_messageHandlers ({[type]} ∪ messageHandlers h) h.

Definition offMessage (type : string) (h : Hook) : Hook :=
  with_messageHandlers (messageHandlers h ∖ {[type]}) h.

(** *** Queries *)

(** [map.get(conversationId)]: the [Set] the entry points to, read from
    the heap. *)
Definition mapGet (heap : gmap loc NumSet) (m : gmap string loc)
    (conversationId : string) : option NumSet :=
  match m !! conversationId with
  | Some l => Some (default [] (heap !! l))
  | None => None
  end.

(** [typingUsers.get(conversationId)] *)
Definition typingSetOf (conversationId : string) (h : Hook) : option NumSet :=
  mapGet (setHeap h) (typingUsers h) conversationId.

Definition isUserTyping (conversationId : string) (userId : Z) (h : Hook) : bool :=
  match typingSetOf conversationId h with
  | Some typingSet => set_has typingSet userId
  | None => false
  end.

Definition getTypingUsers (conversationId : string) (h : Hook) : list Z :=
  default [] (typingSetOf conversationId h).

Definition isUserOnline (userId : Z) (h : Hook) : bool :=
  set_has (onlineUsers h) userId.

(** [userStatuses.get(userId) || 'offline']: the empty string is falsy. *)
Definition getUserStatus (userId : Z) (h : Hook) : string :=
  match userStatuses h !! userId with
  | Some status => if bool_decide (status = "") then "offline" else status
  | None => "offline"
  end.


(** *** The hook as an event-driven system *)

(** The five outbound operations that return nothing. *)
Inductive Operation :=
| SendTypingIndicator (conversationId : string) (isTyping : bool)
| SendReadReceipt (messageId : Z) (conversationId : string)
| SendStatusUpdate (status : string)
| JoinConversation (conversationId : string)
| LeaveConversation (conversationId : string).

Definition perform (op : Operation) (h : Hook) : Result unit * Hook :=
  match op with
  | SendTypingIndicator c b => sendTypingIndicator c b h
  | SendReadReceipt m c => sendReadReceipt m c h
  | SendStatusUpdate s => sendStatusUpdate s h
  | JoinConversation c => joinConversation c h
  | LeaveConversation c => leaveConversation c h
  end.

Inductive Event :=
| Mount                                   (* the effect calls connect() *)
| Opened (ws : nat)
| Closed (ws : nat)
| TimerFires
| Received (message : WebSocketMessage)
| Calls (op : Operation)
| CallsSendMessage (now : string) (receiverId : Z) (content : string)
                   (imageUrl : option string)
| CallsOnMessage (type : string)
| CallsOffMessage (type : string).

Definition step (e : Event) (h : Hook) : Hook :=
  match e with
  | Mount => connect h
  | Opened ws => opened ws h
  | Closed ws => closed ws h
  | TimerFires => timer_fires h
  | Received message => handleMessage message h
  | Calls op => (perform op h).2
  | CallsSendMessage now r c i => (sendMessage now r c i h).2
  | CallsOnMessage type => onMessage type h
  | CallsOffMessage type => offMessage type h
  end.

Definition run (events : list Event) (h : Hook) : Hook :=
  foldl (λ h e, step e h) h events.

(** *** Invariants of reachable states *)

(** No timeout runs before it was scheduled. *)
Definition timers_wf (h : Hook) : Prop :=
  (fired h ≤ length (scheduled h))%nat.

(** Every entry of the typing map points to an allocated, non-empty
    [Set], and no [Set] is shared between two conversations. *)
Definition typing_wf (heap : gmap loc NumSet) (m : gmap string loc) : Prop :=
  (∀ c l, m !! c = Some l → ∃ s, heap !! l = Some s ∧ s ≠ []) ∧
  (∀ c1 c2 l, m !! c1 = Some l → m !! c2 = Some l → c1 = c2).

(** The socket [wsRef] points to is open: the state called Connected. *)
Definition Connected (h : Hook) : Prop :=
  ∃ i ws, wsRef h = Some i ∧ sockets h !! i = Some ws ∧ readyState ws = OPEN.

(** The state after [data] went out on socket [i]. *)
Definition transmit (i : nat) (data : Outbound) (h : Hook) : Hook :=
  match sockets h !! i with
  | Some ws =>
      with_sockets
        (<[i := mkWebSocket (readyState ws) (transmitted ws ++ [data])%list]> (sockets h)) h
  | None => h
  end.

(** Everything handed to the network so far, socket by socket. *)
Definition allTransmitted (h : Hook) : list (list Outbound) :=
  map transmitted (sockets h).


(** *** More predicates on hook states *)

(** On socket [ws] nothing went out before the [join] envelope of user
    [uid]: a socket still connecting has transmitted nothing, an open one
    has sent its [join], and whatever was transmitted starts with it. *)
Definition joinsFirst (uid : Z) (ws : WebSocket) : Prop :=
  (readyState ws = CONNECTING → transmitted ws = []) ∧
  (readyState ws = OPEN → transmitted ws ≠ []) ∧
  (transmitted ws = [] ∨ ∃ rest, transmitted ws = join_out uid :: rest).

(** The message types [handleMessage] forwards to registered handlers. *)
Definition forwardedTypes : list string :=
  ["message_read"; "new_message"; "message_sent"; "new_notification"].

(** A forwarded message of the given type. *)
Definition forwarded (type data : string) : option WebSocketMessage :=
  if bool_decide (type = "message_read") then Some (message_read data)
  else if bool_decide (type = "new_message") then Some (new_message data)
  else if bool_decide (type = "message_sent") then Some (message_sent data)
  else if bool_decide (type = "new_notification") then Some (new_notification data)
  else None.

(** The arguments of one [sendMessage] call. *)
Record SendArgs := mkSendArgs {
  sa_now : string;
  sa_receiverId : Z;
  sa_content : string;
  sa_imageUrl : option string
}.

Definition callSendMessage (a : SendArgs) : Event :=
  CallsSendMessage (sa_now a) (sa_receiverId a) (sa_content a) (sa_imageUrl a).

Definition messageOf (a : SendArgs) : Outbound :=
  message_out (sa_receiverId a) (sa_content a) (sa_imageUrl a) (sa_now a).

(** What was transmitted on the socket of [wsRef]. *)
Definition transmittedOnCurrent (h : Hook) : list Outbound :=
  match wsRef h with
  | Some i =>
      match sockets h !! i with
      | Some ws => transmitted ws
      | None => []
      end
  | None => []
  end.

(** No timeout is waiting to run. *)
Definition noTimerPending (h : Hook) : Prop :=
  fired h = length (scheduled h).

End UseWebSocket.

(* ===================================================================== *)
(** ** Call signaling in [VideoCallModal] *)
(* ===================================================================== *)

Module VideoCall.

Inductive CallType := incoming | outgoing | active.

#[global] Instance CallType_eq_dec : EqDecision CallType.
Proof. solve_decision. Defined.

(** A [MediaStream] handle with the ids of its tracks. *)
Record MediaStream := mkMediaStream {
  stream_id : nat;
  getTracks : list nat
}.

(** Session descriptions are opaque: the ones a peer connection creates
    are named after it, the ones read off the wire keep their text. *)
Inductive SessionDescription :=
| created_offer (pc : nat)
| created_answer (pc : nat)
| received (sdp : string).

(** Methods called on an [RTCPeerConnection]. *)
Inductive PcCall :=
| addTrack (track : nat)
| createOffer
| createAnswer
| setLocalDescription (description : SessionDescription)
| setRemoteDescription (description : SessionDescription)
| addIceCandidate (candidate : string)
| close.

(** The JSON texts the modal hands to [send]. *)
Inductive Signal :=
| create_video_call (callId : string) (targetUserId userId : option Z)
| offer_out (callId : option string) (offer : SessionDescription)
            (targetUserId : option Z)
| answer_out (callId : option string) (answer : SessionDescription)
             (targetUserId : option Z)
| ice_candidate_out (callId : option string) (candidate : string)
                    (targetUserId : option Z)
| reject_call (callId : string) (targetUserId : option Z)
| end_call (callId : string) (targetUserId : option Z).

(** How the promises that a negotiation awaits settle: [true] when the
    promise resolves, [false] when it rejects.  [setLocalDescription] is
    awaited by caller and callee alike. *)
Record Promises := mkPromises {
  createOffer_resolves : bool;
  setRemoteDescription_resolves : bool;
  createAnswer_resolves : bool;
  setLocalDescription_resolves : bool
}.

Definition allResolve : Promises := mkPromises true true true true.

(** What one [message] event brings to [ws.onmessage]: the parsed [data],
    by [data.type], and, for the two types that start a negotiation, how
    the browser settles the promises awaited on the way ([rtc]);
    [malformed] is a text on which [JSON.parse] throws. *)
Inductive Inbound :=
| call_accepted (rtc : Promises)
| call_rejected
| call_ended
| ice_candidate (candidate : string)
| offer (offer : SessionDescription) (rtc : Promises)
| answer (answer : SessionDescription)
| other_type (type : string)
| malformed.

(** [pc.connectionState] *)
Inductive ConnectionState :=
| cs_new | cs_connecting | cs_connected | cs_disconnected | cs_failed | cs_closed.

(** Everything the component does to the outside, in program order. *)
Inductive Effect :=
| getUserMedia (result : option MediaStream)
| new_WebSocket (ws : nat)
| send (ws : nat) (data : Signal)
| ws_close (ws : nat)
| new_RTCPeerConnection (pc : nat)
| pc_call (pc : nat) (call : PcCall)
| track_stop (track : nat)
| toast (title : string)
| onClose
| onAcceptCall
| onRejectCall
| onEndCall.

Record Props := mkProps {
  isOpen : bool;
  callType : CallType;
  otherUser : option Z;            (* otherUser?.id *)
  user : option Z;                 (* useAuth().user?.id *)
  has_onAcceptCall : bool;
  has_onRejectCall : bool;
  has_onEndCall : bool
}.

(** The React state of the component (the toggles and the call timer,
    which signaling never reads, are left out). *)
Record State := mkState {
  localStream : option MediaStream;
  remoteStream : option MediaStream;
  isCallActive : bool;
  peerConnection : option nat;
  websocket : option nat;
  callId : option string;
  isConnecting : bool;
  connectionStatus : string
}.

(** What the closures of one render see: that render's props and state. *)
Record Scope := mkScope {
  props : Props;
  state : State
}.

(** Which function created a peer connection (their handlers differ). *)
Inductive Role := caller | callee.

Record World := mkWorld {
  current : Scope;                             (* latest props and state *)
  sockets : list (Scope * MediaStream);        (* closure of each socket's handlers *)
  connections : list (Scope * Role);           (* closure of each connection's handlers *)
  effectScope : option Scope;                  (* render of the effect in force *)
  trace : list Effect
}.

Definition initialState : State :=
  mkState None None false None None None false "".

Definition mounted (p : Props) : World :=
  mkWorld (mkScope p initialState) [] [] None [].

(** *** Updates *)

Definition Action := World → World.

Definition andThen (f g : Action) : Action := λ w, g (f w).
Infix ">>" := andThen (at level 61, left associativity).

Definition skip : Action := λ w, w.

Definition emit (e : Effect) : Action := λ w,
  mkWorld (current w) (sockets w) (connections w) (effectScope w)
    (trace w ++ [e])%list.

Definition setState (f : State → State) : Action := λ w,
  mkWorld (mkScope (props (current w)) (f (state (current w))))
    (sockets w) (connections w) (effectScope w) (trace w).

Definition setLocalStream (v : option MediaStream) : Action :=
  setState (λ s, mkState v (remoteStream s) (isCallActive s) (peerConnection s)
                   (websocket s) (callId s) (isConnecting s) (connectionStatus s)).

Definition setRemoteStream (v : option MediaStream) : Action :=
  setState (λ s, mkState (localStream s) v (isCallActive s) (peerConnection s)
                   (websocket s) (callId s) (isConnecting s) (connectionStatus s)).

Definition setIsCallActive (v : bool) : Action :=
  setState (λ s, mkState (localStream s) (remoteStream s) v (peerConnection s)
                   (websocket s) (callId s) (isConnecting s) (connectionStatus s)).

Definition setPeerConnection (v : option nat) : Action :=
  setState (λ s, mkState (localStream s) (remoteStream s) (isCallActive s) v
                   (websocket s) (callId s) (isConnecting s) (connectionStatus s)).

Definition setWebsocket (v : option nat) : Action :=
  setState (λ s, mkState (localStream s) (remoteStream s) (isCallActive s)
                   (peerConnection s) v (callId s) (isConnecting s)
                   (connectionStatus s)).

Definition setCallId (v : option string) : Action :=
  setState (λ s, mkState (localStream s) (remoteStream s) (isCallActive s)
                   (peerConnection s) (websocket s) v (isConnecting s)
                   (connectionStatus s)).

Definition setIsConnecting (v : bool) : Action :=
  setState (λ s, mkState (localStream s) (remoteStream s) (isCallActive s)
                   (peerConnection s) (websocket s) (callId s) v
                   (connectionStatus s)).

Definition setConnectionStatus (v : string) : Action :=
  setState (λ s, mkState (localStream s) (remoteStream s) (isCallActive s)
                   (peerConnection s) (websocket s) (callId s) (isConnecting s) v).

Definition when (b : bool) (f : Action) : Action := if b then f else skip.

(** [if (x) f(x)] on a nullable [x] *)
Definition whenSome {A} (x : option A) (f : A → Action) : Action :=
  match x with
  | Some a => f a
  | None => skip
  end.

Definition forEach {A} (l : list A) (f : A → Action) : Action :=
  λ w, foldl (λ w a, f a w) w l.

(** *** The component's functions

    Each takes the scope of the render that created it.  An [async]
    function runs here in one piece, nothing else is interleaved.  Every
    [await] of a negotiation stands in a [try] block whose [catch] only
    writes to the console: when the promise rejects, the rest of the
    block is not run. *)

(** [new RTCPeerConnection(...)] followed by the set-up shared by
    [createPeerConnection] and [handleIncomingCall]: the local tracks are
    added, the handlers are installed, [setPeerConnection(pc)]. *)
Definition newPeerConnection (sc : Scope) (role : Role) (stream : MediaStream)
    (k : nat → Action) : Action := λ w,
  let pc := length (connections w) in
  let w := mkWorld (current w) (sockets w) (connections w ++ [(sc, role)])%list
             (effectScope w) (trace w) in
  (emit (new_RTCPeerConnection pc)
   >> forEach (getTracks stream) (λ track, emit (pc_call pc (addTrack track)))
   >> setPeerConnection (Some pc)
   >> k pc) w.

(** [createPeerConnection]: [await pc.createOffer()], then
    [await pc.setLocalDescription(offer)], then the send; a rejection
    ends the function in its [catch]. *)
Definition createPeerConnection (sc : Scope) (stream : MediaStream)
    (rtc : Promises) : Action :=
  newPeerConnection sc caller stream (λ pc,
    emit (pc_call pc createOffer)
    >> when (createOffer_resolves rtc)
         (emit (pc_call pc (setLocalDescription (created_offer pc)))
          >> when (setLocalDescription_resolves rtc)
               (whenSome (websocket (state sc)) (λ ws,
                  emit (send ws (offer_out (callId (state sc)) (created_offer pc)
                                   (otherUser (props sc)))))))).

(** [handleIncomingCall]: [await pc.setRemoteDescription(offer)], then
    [await pc.createAnswer()], then [await pc.setLocalDescription(answer)],
    then the send; a rejection ends the function in its [catch]. *)
Definition handleIncomingCall (sc : Scope) (offer : SessionDescription)
    (stream : MediaStream) (rtc : Promises) : Action :=
  newPeerConnection sc callee stream (λ pc,
    emit (pc_call pc (setRemoteDescription offer))
    >> when (setRemoteDescription_resolves rtc)
         (emit (pc_call pc createAnswer)
          >> when (createAnswer_resolves rtc)
               (emit (pc_call pc (setLocalDescription (created_answer pc)))
                >> when (setLocalDescription_resolves rtc)
                     (whenSome (websocket (state sc)) (λ ws,
                        emit (send ws (answer_out (callId (state sc))
                                         (created_answer pc)
                                         (otherUser (props sc))))))))).

Definition cleanupMedia (sc : Scope) : Action :=
  whenSome (localStream (state sc)) (λ s,
    forEach (getTracks s) (λ track, emit (track_stop track))
    >> setLocalStream None)
  >> whenSome (remoteStream (state sc)) (λ s,
    forEach (getTracks s) (λ track, emit (track_stop track))
    >> setRemoteStream None)
  >> whenSome (peerConnection (state sc)) (λ pc,
    emit (pc_call pc close) >> setPeerConnection None)
  >> whenSome (websocket (state sc)) (λ ws,
    emit (ws_close ws) >> setWebsocket None)
  >> setIsCallActive false.

Definition endCall (sc : Scope) : Action :=
  cleanupMedia sc >> emit onClose.

(** [initializeWebRTC]: creates the socket; its handlers close over the
    scope and over the [localStream] argument. *)
Definition initializeWebRTC (sc : Scope) (stream : MediaStream) : Action := λ w,
  let ws := length (sockets w) in
  emit (new_WebSocket ws)
    (mkWorld (current w) (sockets w ++ [(sc, stream)])%list (connections w)
       (effectScope w) (trace w)).

(** [initializeMedia]; [media] is what [getUserMedia] resolves to, [None]
    when it rejects. *)
Definition initializeMedia (sc : Scope) (media : option MediaStream) : Action :=
  setIsConnecting true
  >> setConnectionStatus "Accessing camera..."
  >> emit (getUserMedia media)
  >> match media with
     | Some stream =>
         setLocalStream (Some stream)
         >> setConnectionStatus "Connecting to peer..."
         >> initializeWebRTC sc stream
     | None =>
         emit (toast "Camera access failed")
         >> emit onClose
     end
  >> setIsConnecting false.

(** [ws.onopen] of socket [ws]; [newCallId] is the text built from
    [Date.now()] and [Math.random()]. *)
Definition ws_onopen (ws : nat) (newCallId : string) : Action := λ w,
  match sockets w !! ws with
  | Some (sc, _) =>
      (setWebsocket (Some ws)
       >> setCallId (Some newCallId)
       >> emit (send ws (create_video_call newCallId (otherUser (props sc))
                           (user (props sc))))) w
  | None => w
  end.

(** [ws.onmessage] of socket [ws].  The promises of [addIceCandidate]
    and of [setRemoteDescription] on an answer are the last thing their
    branch awaits: whether they resolve or reject (which the [catch]
    logs), nothing follows. *)
Definition ws_onmessage (ws : nat) (data : Inbound) : Action := λ w,
  match sockets w !! ws with
  | Some (sc, stream) =>
      match data with
      | call_accepted rtc =>
          (setConnectionStatus "Call accepted, establishing connection..."
           >> createPeerConnection sc stream rtc) w
      | call_rejected =>
          (emit (toast "Call rejected") >> emit onClose) w
      | call_ended =>
          (emit (toast "Call ended") >> endCall sc) w
      | ice_candidate candidate =>
          whenSome (peerConnection (state sc)) (λ pc,
            emit (pc_call pc (addIceCandidate candidate))) w
      | offer o rtc =>
          when (bool_decide (callType (props sc) = incoming))
            (handleIncomingCall sc o stream rtc) w
      | answer a =>
          whenSome (peerConnection (state sc)) (λ pc,
            emit (pc_call pc (setRemoteDescription a))) w
      | other_type _ => w
      | malformed => w
      end
  | None => w
  end.

(** [ws.onclose] *)
Definition ws_onclose (ws : nat) : Action := λ w,
  match sockets w !! ws with
  | Some _ => setWebsocket None w
  | None => w
  end.

(** [pc.onicecandidate] of connection [pc] *)
Definition pc_onicecandidate (pc : nat) (candidate : option string) : Action := λ w,
  match connections w !! pc with
  | Some (sc, _) =>
      match candidate, websocket (state sc) with
      | Some c, Some ws =>
          emit (send ws (ice_candidate_out (callId (state sc)) c
                           (otherUser (props sc)))) w
      | _, _ => w
      end
  | None => w
  end.

(** [pc.onconnectionstatechange] of connection [pc] *)
Definition pc_onconnectionstatechange (pc : nat) (cs : ConnectionState) : Action := λ w,
  match connections w !! pc with
  | Some (sc, role) =>
      match cs with
      | cs_connected =>
          (setConnectionStatus "Connected"
           >> setIsCallActive true
           >> when (match role with
                    | caller => has_onAcceptCall (props sc)
                    | callee => false
                    end) (emit onAcceptCall)) w
      | cs_failed =>
          match role with
          | caller =>
              (setConnectionStatus "Connection failed"
               >> emit (toast "Connection failed")) w
          | callee => w
          end
      | _ => w
      end
  | None => w
  end.

(** [pc.ontrack] of connection [pc] *)
Definition pc_ontrack (pc : nat) (stream : MediaStream) : Action := λ w,
  match connections w !! pc with
  | Some _ => setRemoteStream (Some stream) w
  | None => w
  end.

Definition handleAcceptCall (sc : Scope) (media : option MediaStream) : Action :=
  when (has_onAcceptCall (props sc)) (emit onAcceptCall)
  >> initializeMedia sc media.

Definition handleRejectCall (sc : Scope) : Action :=
  match websocket (state sc), callId (state sc) with
  | Some ws, Some c =>
      if bool_decide (c = "") then skip
      else emit (send ws (reject_call c (otherUser (props sc))))
  | _, _ => skip
  end
  >> when (has_onRejectCall (props sc)) (emit onRejectCall)
  >> emit onClose.

Definition handleEndCall (sc : Scope) : Action :=
  match websocket (state sc), callId (state sc) with
  | Some ws, Some c =>
      if bool_decide (c = "") then skip
      else emit (send ws (end_call c (otherUser (props sc))))
  | _, _ => skip
  end
  >> when (has_onEndCall (props sc)) (emit onEndCall)
  >> endCall sc.

(** A render with props [p] is committed: [p] becomes current and the
    effect of that render, whose closures see [sc], is the one in force. *)
Definition commit (p : Props) (sc : Scope) : Action := λ w,
  mkWorld (mkScope p (state (current w))) (sockets w) (connections w)
    (Some sc) (trace w).

(** The effect on [[isOpen, callType]]: when the parent changes one of
    them, the clean-up of the effect in force runs with the scope of its
    own render, then the new render's effect runs.  The new render saw
    the state as it was before that clean-up. *)
Definition rerender (open : bool) (type : CallType) (media : option MediaStream)
    : Action := λ w,
  let p := props (current w) in
  let p' := mkProps open type (otherUser p) (user p) (has_onAcceptCall p)
              (has_onRejectCall p) (has_onEndCall p) in
  let sc := mkScope p' (state (current w)) in
  let unchanged :=
    bool_decide (isOpen p = open ∧ callType p = type)
    && bool_decide (is_Some (effectScope w)) in
  if unchanged then w
  else
    (whenSome (effectScope w) cleanupMedia
     >> commit p' sc
     >> when (open && bool_decide (type = outgoing)) (initializeMedia sc media)) w.

(** *** Events *)

Inductive Event :=
| Render (open : bool) (type : CallType) (media : option MediaStream)
| ClickAccept (media : option MediaStream)
| ClickReject
| ClickEnd
| SocketOpen (ws : nat) (newCallId : string)
| SocketMessage (ws : nat) (data : Inbound)
| SocketClose (ws : nat)
| IceCandidate (pc : nat) (candidate : option string)
| ConnectionStateChange (pc : nat) (cs : ConnectionState)
| Track (pc : nat) (stream : MediaStream).

(** Buttons call the handlers of the latest render. *)
Definition step (e : Event) : Action := λ w,
  match e with
  | Render open type media => rerender open type media w
  | ClickAccept media => handleAcceptCall (current w) media w
  | ClickReject => handleRejectCall (current w) w
  | ClickEnd => handleEndCall (current w) w
  | SocketOpen ws newCallId => ws_onopen ws newCallId w
  | SocketMessage ws data => ws_onmessage ws data w
  | SocketClose ws => ws_onclose ws w
  | IceCandidate pc candidate => pc_onicecandidate pc candidate w
  | ConnectionStateChange pc cs => pc_onconnectionstatechange pc cs w
  | Track pc stream => pc_ontrack pc stream w
  end.

Definition run (events : list Event) : Action :=
  λ w, foldl (λ w e, step e w) w events.

(** The inbound envelopes [messages], delivered in order on socket [ws]. *)
Definition deliver (ws : nat) (messages : list Inbound) : Action :=
  run (map (SocketMessage ws) messages).

(** *** Reading the trace *)

(** The candidates handed to [addIceCandidate] of connection [pc], in
    call order. *)
Fixpoint appliedCandidates (pc : nat) (t : list Effect) : list string :=
  match t with
  | [] => []
  | pc_call pc' (addIceCandidate c) :: t' =>
      if bool_decide (pc' = pc) then c :: appliedCandidates pc t'
      else appliedCandidates pc t'
  | _ :: t' => appliedCandidates pc t'
  end.

(** Every candidate handed to any connection. *)
Fixpoint allAppliedCandidates (t : list Effect) : list string :=
  match t with
  | [] => []
  | pc_call _ (addIceCandidate c) :: t' => c :: allAppliedCandidates t'
  | _ :: t' => allAppliedCandidates t'
  end.

(** The candidates carried by a sequence of inbound envelopes. *)
Fixpoint candidatesOf (messages : list Inbound) : list string :=
  match messages with
  | [] => []
  | ice_candidate c :: m' => c :: candidatesOf m'
  | _ :: m' => candidatesOf m'
  end.

(** The envelopes handed to [send], in order. *)
Fixpoint sentSignals (t : list Effect) : list Signal :=
  match t with
  | [] => []
  | send _ s :: t' => s :: sentSignals t'
  | _ :: t' => sentSignals t'
  end.

Definition is_create_video_call (s : Signal) : bool :=
  match s with
  | create_video_call _ _ _ => true
  | _ => false
  end.

Definition is_rejection (s : Signal) : bool :=
  match s with
  | reject_call _ _ => true
  | _ => false
  end.

(** [setRemoteDescription] was called on some connection in the trace. *)
Definition remoteDescriptionSet (t : list Effect) : Prop :=
  ∃ pc d, pc_call pc (setRemoteDescription d) ∈ t.


(** *** Predicates used in the statements *)

(** Actions that leave the sockets alone and only add effects that
    satisfy [Q] to the trace. *)
Definition tame (Q : Effect → Prop) (f : Action) : Prop :=
  ∀ w, sockets (f w) = sockets w ∧
       ∃ es, trace (f w) = (trace w ++ es)%list ∧ Forall Q es.

(** Effects other than handing a candidate to a connection. *)
Definition notCandidate (e : Effect) : Prop :=
  match e with
  | pc_call _ (addIceCandidate _) => False
  | _ => True
  end.

(** Effects other than opening a socket or sending [create_video_call]. *)
Definition notSetup (e : Effect) : Prop :=
  match e with
  | new_WebSocket _ => False
  | send _ s => is_create_video_call s = false
  | _ => True
  end.

(** In trace [t], every [create_video_call] went out on a socket that was
    created directly after a [getUserMedia] that resolved with a stream. *)
Definition createFollowsMedia (t : list Effect) : Prop :=
  ∀ i ws s,
    t !! i = Some (send ws s) → is_create_video_call s = true →
    ∃ j stream,
      (S j < i)%nat ∧
      t !! j = Some (getUserMedia (Some stream)) ∧
      t !! S j = Some (new_WebSocket ws).

(** Every socket of the store was created that way, with the stream its
    handlers hold. *)
Definition socketsFollowMedia (w : World) : Prop :=
  ∀ ws sc stream,
    sockets w !! ws = Some (sc, stream) →
    ∃ j,
      trace w !! j = Some (getUserMedia (Some stream)) ∧
      trace w !! S j = Some (new_WebSocket ws).

(** The claim of C1 read on a run: once a remote description has been
    applied, every candidate received so far has been handed to a
    connection. *)
Definition noCandidateLost (messages : list Inbound) (t : list Effect) : Prop :=
  remoteDescriptionSet t →
  ∀ c, c ∈ candidatesOf messages → c ∈ allAppliedCandidates t.

(** The claim of C2 read on one step: with a session in place, an
    incoming offer leaves the stored connection as it is and is answered
    by a rejection. *)
Definition secondOfferRejected (before after : World) : Prop :=
  is_Some (peerConnection (state (current before))) →
  peerConnection (state (current after)) = peerConnection (state (current before)) ∧
  ∃ s, s ∈ sentSignals (trace after) ∧ is_rejection s = true.

(** *** Concrete situations *)

Definition camera : MediaStream := mkMediaStream 0 [0; 1]%nat.

Definition calleeProps : Props :=
  mkProps true incoming (Some 17) (Some 3) true true true.

(** The callee has accepted: camera acquired, socket 0 open. *)
Definition calleeReady : World :=
  run [ClickAccept (Some camera); SocketOpen 0 "call_a"] (mounted calleeProps).

(** The callee has accepted, the offer has arrived and set up connection
    0, and the accept button, still shown until the call is active, was
    pressed once more: the handlers of socket 1 capture connection 0. *)
Definition calleeAcceptedTwice : World :=
  run [SocketMessage 0 (offer (received "o") allResolve); ClickAccept (Some camera)]
    calleeReady.

(** The scope the handlers of socket 0 capture in [calleeReady], and the
    scope those of socket 1 capture in [calleeAcceptedTwice]. *)
Definition firstAcceptScope : Scope := mkScope calleeProps initialState.

Definition secondAcceptScope : Scope :=
  mkScope calleeProps
    (mkState (Some camera) None false (Some 0%nat) (Some 0%nat) (Some "call_a")
       false "Connecting to peer...").


(** *** More predicates on effects *)

(** Effects that neither send an envelope nor apply a remote description
    or a candidate. *)
Definition deaf (e : Effect) : Prop :=
  match e with
  | send _ _ => False
  | pc_call _ (setRemoteDescription _) => False
  | pc_call _ (addIceCandidate _) => False
  | _ => True
  end.

(** What [cleanupMedia] does for scope [sc], in order. *)
Definition released (sc : Scope) : list Effect :=
  (match localStream (state sc) with
   | Some s => map track_stop (getTracks s)
   | None => []
   end ++
   match remoteStream (state sc) with
   | Some s => map track_stop (getTracks s)
   | None => []
   end ++
   match peerConnection (state sc) with
   | Some pc => [pc_call pc close]
   | None => []
   end ++
   match websocket (state sc) with
   | Some ws => [ws_close ws]
   | None => []
   end)%list.

(** The envelope a hang-up or a rejection sends: only with a socket and a
    non-empty call id. *)
Definition farewell (make : string → option Z → Signal) (sc : Scope) : list Effect :=
  match websocket (state sc), callId (state sc) with
  | Some ws, Some c =>
      if bool_decide (c = "") then [] else [send ws (make c (otherUser (props sc)))]
  | _, _ => []
  end.

(** *** The call timer *)

(** [String.prototype.padStart]: the pad text is repeated, and cut, to
    fill the missing length. *)
Fixpoint padding (n : nat) (pad rest : string) : string :=
  match n with
  | O => ""
  | S n' =>
      match rest with
      | String c rest' => String c (padding n' pad rest')
      | EmptyString =>
          match pad with
          | String c pad' => String c (padding n' pad pad')
          | EmptyString => ""
          end
      end
  end.

Definition padStart (targetLength : nat) (padString s : string) : string :=
  padding (targetLength - String.length s) padString padString ++ s.

(** [formatDuration]: [Math.floor(seconds / 60)], [seconds % 60]. *)
Definition formatDuration (seconds : Z) : string :=
  let minutes := seconds / 60 in
  let remainingSeconds := Z.rem seconds 60 in
  JS.ToString minutes ++ ":" ++ padStart 2 "0" (JS.ToString remainingSeconds).

(** The two-digit text of a number below 100. *)
Definition twoDigits (n : Z) : string :=
  JS.ToString (n / 10) ++ JS.ToString (n mod 10).


(** *** Handles *)

(** Effects that send only on one of the first [n] sockets and open none. *)
Definition sendsKnown (n : nat) (e : Effect) : Prop :=
  match e with
  | send ws _ => (ws < n)%nat
  | new_WebSocket _ => False
  | _ => True
  end.

(** The socket a scope holds, if any, is one of the first [n]. *)
Definition scopeKnows (n : nat) (sc : Scope) : Prop :=
  ∀ ws, websocket (state sc) = Some ws → (ws < n)%nat.

(** Every scope the world keeps (the current one, those captured by socket
    and connection handlers, that of the effect in force) holds only
    sockets that exist. *)
Definition handles_wf (w : World) : Prop :=
  scopeKnows (length (sockets w)) (current w) ∧
  Forall (λ x, scopeKnows (length (sockets w)) x.1) (sockets w) ∧
  Forall (λ x, scopeKnows (length (sockets w)) x.1) (connections w) ∧
  (∀ sc, effectScope w = Some sc → scopeKnows (length (sockets w)) sc).

(** Actions that, in a world with [n] sockets, keep the sockets and the
    handles in order and add only effects satisfying [sendsKnown n]. *)
Definition civil (n : nat) (f : Action) : Prop :=
  ∀ w, length (sockets w) = n → handles_wf w →
    sockets (f w) = sockets w ∧ handles_wf (f w) ∧
    ∃ es, trace (f w) = (trace w ++ es)%list ∧ Forall (sendsKnown n) es.

(** In trace [t], every envelope, of whatever type, went out on a socket
    that was created directly after a [getUserMedia] that resolved with a
    stream. *)
Definition sendFollowsMedia (t : list Effect) : Prop :=
  ∀ i ws s,
    t !! i = Some (send ws s) →
    ∃ j stream,
      (S j < i)%nat ∧
      t !! j = Some (getUserMedia (Some stream)) ∧
      t !! S j = Some (new_WebSocket ws).

End VideoCall.


(* ===================================================================== *)
(** ** The message input of FriendChat and RealTimeChat *)
(* ===================================================================== *)

Module ChatInput.
Import JS.

(** The two chat components share their input handling except for one
    test in [handleMessageChange]. *)
Inductive Component := FriendChat | RealTimeChat.

(** A pending [setTimeout]: its id and the conversation id its callback
    captured through [handleTyping]. *)
Record Timeout := mkTimeout {
  timeoutId : nat;
  capturedConversation : option string;
  delay : Z
}.

(** A multipart post to [/api/messages]. *)
Record Post := mkPost {
  post_receiverId : Z;
  post_content : string;
  post_files : nat
}.

Record Input := mkInput {
  hook : UseWebSocket.Hook;
  messageText : string;
  selectedFiles : nat;                     (* selectedFiles.length *)
  isTyping : bool;                         (* RealTimeChat only *)
  typingTimeoutRef : option nat;           (* typingTimeoutRef.current *)
  pending : list Timeout;                  (* timeouts not yet run or cleared *)
  nextTimeoutId : nat;
  typingCalls : list (string * bool);      (* sendTypingIndicator calls *)
  posts : list Post                        (* mutateAsync calls *)
}.

Definition initial (h : UseWebSocket.Hook) : Input :=
  mkInput h "" 0 false None [] 1 [] [].

Definition with_hook (v : UseWebSocket.Hook) (c : Input) : Input :=
  mkInput v (messageText c) (selectedFiles c) (isTyping c) (typingTimeoutRef c)
    (pending c) (nextTimeoutId c) (typingCalls c) (posts c).

Definition setMessageText (v : string) (c : Input) : Input :=
  mkInput (hook c) v (selectedFiles c) (isTyping c) (typingTimeoutRef c)
    (pending c) (nextTimeoutId c) (typingCalls c) (posts c).

Definition setSelectedFiles (v : nat) (c : Input) : Input :=
  mkInput (hook c) (messageText c) v (isTyping c) (typingTimeoutRef c)
    (pending c) (nextTimeoutId c) (typingCalls c) (posts c).

Definition setIsTyping (v : bool) (c : Input) : Input :=
  mkInput (hook c) (messageText c) (selectedFiles c) v (typingTimeoutRef c)
    (pending c) (nextTimeoutId c) (typingCalls c) (posts c).

(** [sendTypingIndicator(conversationId, isTyping)] of the hook. *)
Definition callSendTypingIndicator (conversationId : string) (flag : bool)
    (c : Input) : Input :=
  mkInput (UseWebSocket.sendTypingIndicator conversationId flag (hook c)).2
    (messageText c) (selectedFiles c) (isTyping c) (typingTimeoutRef c)
    (pending c) (nextTimeoutId c)
    (typingCalls c ++ [(conversationId, flag)])%list (posts c).

(** [clearTimeout(id)] *)
Definition clearTimeout (id : nat) (c : Input) : Input :=
  mkInput (hook c) (messageText c) (selectedFiles c) (isTyping c)
    (typingTimeoutRef c)
    (filter (λ t, timeoutId t ≠ id) (pending c))
    (nextTimeoutId c) (typingCalls c) (posts c).

(** [typingTimeoutRef.current = setTimeout(() => handleTyping(false), 2000)];
    the callback keeps the [handleTyping] of the render that scheduled it,
    hence that render's conversation id. *)
Definition scheduleStop (conversationId : option string) (c : Input) : Input :=
  let id := nextTimeoutId c in
  mkInput (hook c) (messageText c) (selectedFiles c) (isTyping c) (Some id)
    (pending c ++ [mkTimeout id conversationId 2000])%list
    (S id) (typingCalls c) (posts c).

(** [handleTyping] *)
Definition handleTyping (which : Component) (conversationId : option string)
    (flag : bool) (c : Input) : Input :=
  match conversationId with
  | None => c
  | Some id =>
      let c := match which with
               | FriendChat => c
               | RealTimeChat => setIsTyping flag c
               end in
      callSendTypingIndicator id flag c
  end.

(** [handleMessageChange] *)
Definition handleMessageChange (which : Component) (conversationId : option string)
    (value : string) (c : Input) : Input :=
  let c := setMessageText value c in
  let c := match which with
           | FriendChat => handleTyping which conversationId true c
           | RealTimeChat =>
               if isTyping c then c else handleTyping which conversationId true c
           end in
  let c := match typingTimeoutRef c with
           | Some id => clearTimeout id c
           | None => c
           end in
  scheduleStop conversationId c.

(** The timeout with the given id runs, if it is still pending. *)
Definition timeoutFires (which : Component) (id : nat) (c : Input) : Input :=
  match list_find (λ t, timeoutId t = id) (pending c) with
  | Some (_, t) =>
      handleTyping which (capturedConversation t) false (clearTimeout id c)
  | None => c
  end.

(** [handleSendMessage].  [blank] tells whether [messageText.trim()] is
    empty; [now] is the timestamp the hook takes.  A throwing
    [sendMessage] lands in the [catch], which skips the post. *)
Definition handleSendMessage (blank : string → bool) (now : string)
    (selected : option Z) (c : Input) : Input :=
  match selected with
  | None => c
  | Some friend =>
      if blank (messageText c) && bool_decide (selectedFiles c = 0%nat) then c
      else
        let post := mkPost friend (messageText c) (selectedFiles c) in
        let persist (c : Input) : Input :=
          mkInput (hook c) (messageText c) (selectedFiles c) (isTyping c)
            (typingTimeoutRef c) (pending c) (nextTimeoutId c) (typingCalls c)
            (posts c ++ [post])%list in
        if UseWebSocket.isConnected (hook c) then
          match UseWebSocket.sendMessage now friend (messageText c) None (hook c) with
          | (Return _, h') => persist (with_hook h' c)
          | (Throw _, _) => c
          end
        else persist c
  end.

(** What happens to the input. *)
Inductive Event :=
| Types (conversationId : option string) (value : string)
| TimeoutFires (id : nat)
| HookEvent (e : UseWebSocket.Event).

Definition step (which : Component) (e : Event) (c : Input) : Input :=
  match e with
  | Types conversationId value => handleMessageChange which conversationId value c
  | TimeoutFires id => timeoutFires which id c
  | HookEvent e => with_hook (UseWebSocket.step e (hook c)) c
  end.

Definition run (which : Component) (events : list Event) (c : Input) : Input :=
  foldl (λ c e, step which e c) c events.

(** Flags that alternate, the first one being [expected]. *)
Fixpoint alternates (expected : bool) (flags : list bool) : bool :=
  match flags with
  | [] => true
  | f :: flags' => eqb f expected && alternates (negb expected) flags'
  end.

(** The input's timeouts are in order: at most one is pending, it is the
    one [typingTimeoutRef] names, it waits 2000 ms, and its id is one that
    was handed out. *)
Definition timeouts_wf (c : Input) : Prop :=
  (pending c = [] ∨
   ∃ id cid, typingTimeoutRef c = Some id ∧ pending c = [mkTimeout id cid 2000]) ∧
  (∀ id, typingTimeoutRef c = Some id → (id < nextTimeoutId c)%nat).

(** In RealTimeChat a pending stop that will reach the server belongs to a
    user who counts as typing, and the flags sent so far alternate, ending
    on [true] exactly while the user counts as typing. *)
Definition typing_flags_wf (c : Input) : Prop :=
  alternates true (map snd (typingCalls c)) = true ∧
  isTyping c = Nat.odd (length (typingCalls c)) ∧
  (∀ t, t ∈ pending c → is_Some (capturedConversation t) → isTyping c = true).

(** A burst: one keystroke per value, all in the same conversation. *)
Definition burst (conversationId : string) (values : list string) : list Event :=
  map (Types (Some conversationId)) values.

(** The pending stop, if any, runs. *)
Definition stopFires (which : Component) (c : Input) : Input :=
  match typingTimeoutRef c with
  | Some id => timeoutFires which id c
  | None => c
  end.

End ChatInput.

(* ===================================================================== *)
(** ** Properties of conversation ids *)
(* ===================================================================== *)

Module ChatSpec.
Import JS Chat.

Lemma ltb_asym (s t : string) : String.ltb s t = true → String.ltb t s = false.
Proof.
  unfold String.ltb. rewrite (String.compare_antisym s t).
  destruct (String.compare t s); simpl; congruence.
Qed.

Lemma ltb_connex (s t : string) :
  String.ltb s t = false → String.ltb t s = false → s = t.
Proof.
  unfold String.ltb. rewrite (String.compare_antisym s t).
  destruct (String.compare t s) eqn:E; simpl; try congruence.
  intros _ _. symmetry. by apply String.compare_eq_iff.
Qed.

Lemma ltb_leb (s t : string) : String.ltb s t = true → String.leb s t = true.
Proof.
  unfold String.ltb, String.leb. destruct (String.compare s t); congruence.
Qed.

Lemma not_ltb_leb (s t : string) : String.ltb t s = false → String.leb s t = true.
Proof.
  unfold String.ltb, String.leb. rewrite (String.compare_antisym s t).
  destruct (String.compare t s); simpl; congruence.
Qed.

(** What [sort] does to a two-element array. *)
Lemma sort_pair (a b : Z) :
  sort [a; b] =
    if String.ltb (ToString b) (ToString a) then [b; a] else [a; b].
Proof.
  simpl. unfold SortCompare.
  destruct (String.ltb (ToString a) (ToString b)) eqn:Hab.
  - rewrite (ltb_asym _ _ Hab). reflexivity.
  - destruct (String.ltb (ToString b) (ToString a)); reflexivity.
Qed.

Lemma conversationIdOf_unfold (a b : UserId) :
  conversationIdOf a b =
    if String.ltb (ToString b) (ToString a)
    then ToString b ++ "_" ++ ToString a
    else ToString a ++ "_" ++ ToString b.
Proof.
  unfold conversationIdOf. rewrite sort_pair.
  destruct (String.ltb (ToString b) (ToString a)); reflexivity.
Qed.

(** C6, as stated, fails: for the ids 3 and 17 the component derives
    ["17_3"], not the numerically sorted ["3_17"]. *)
Lemma conversationId_3_17_not_numeric :
  conversationIdOf 3 17 = "17_3" ∧
  numericConversationId 3 17 = "3_17" ∧
  conversationId (Some 3) (Some 17) ≠ Some (numericConversationId 3 17).
Proof. split; [reflexivity |]. split; [reflexivity |]. by vm_compute. Qed.

(** C6, amended: the conversation id is the two ids in ascending order of
    their decimal texts (the order of a comparator-less [sort]), joined
    with an underscore. *)
Theorem conversationId_sorted_by_text (a b : UserId) :
  ∃ x y : UserId,
    Permutation [x; y] [a; b] ∧
    String.leb (ToString x) (ToString y) = true ∧
    conversationId (Some a) (Some b) = Some (ToString x ++ "_" ++ ToString y).
Proof.
  unfold conversationId. rewrite conversationIdOf_unfold.
  destruct (String.ltb (ToString b) (ToString a)) eqn:Hba.
  - exists b, a. split; [apply perm_swap |]. split; [by apply ltb_leb | done].
  - exists a, b. split; [done |]. split; [by apply not_ltb_leb | done].
Qed.

(** C7: both peers derive the same conversation id, whichever of the two
    is the local user. *)
Theorem conversationId_symmetric (a b : UserId) :
  conversationId (Some a) (Some b) = conversationId (Some b) (Some a).
Proof.
  unfold conversationId. f_equal. rewrite !conversationIdOf_unfold.
  destruct (String.ltb (ToString b) (ToString a)) eqn:Hba.
  - by rewrite (ltb_asym _ _ Hba).
  - destruct (String.ltb (ToString a) (ToString b)) eqn:Hab; [done |].
    by rewrite (ltb_connex _ _ Hab Hba).
Qed.

End ChatSpec.

(* ===================================================================== *)
(** ** Properties of the [useWebSocket] hook *)
(* ===================================================================== *)

Module UseWebSocketSpec.
Import JS UseWebSocket.

(** *** Sending *)

Lemma socketOpen_Connected (h : Hook) : socketOpen h = true ↔ Connected h.
Proof.
  unfold socketOpen, Connected. split.
  - destruct (wsRef h) as [i|]; [| done].
    destruct (sockets h !! i) as [ws|] eqn:Hws; [| done].
    intros H%bool_decide_eq_true. eauto.
  - intros (i & ws & -> & -> & Hopen). by apply bool_decide_eq_true.
Qed.

Lemma socketOpen_not_Connected (h : Hook) : socketOpen h = false ↔ ¬ Connected h.
Proof.
  rewrite <- socketOpen_Connected. destruct (socketOpen h); naive_solver.
Qed.

(** Behind the guard, [wsRef.current.send] transmits and returns. *)
Lemma wsRef_send_open (data : Outbound) (h : Hook) :
  socketOpen h = true →
  ∃ i, wsRef h = Some i ∧ wsRef_send data h = (Return (), transmit i data h).
Proof.
  intros (i & ws & Hi & Hws & Hopen)%socketOpen_Connected.
  exists i. split; [done |].
  unfold wsRef_send, ws_send, transmit. rewrite Hi, Hws, Hopen. done.
Qed.

Lemma guarded_send (data : Outbound) (h : Hook) :
  (if negb (socketOpen h) then (Return (), h) else wsRef_send data h).1 = Return ().
Proof.
  destruct (socketOpen h) eqn:Hopen; simpl; [| done].
  destruct (wsRef_send_open data h Hopen) as (i & _ & ->). done.
Qed.

(** C4: outside the Connected state [sendMessage] throws at once and
    changes nothing, so nothing is transmitted; in the Connected state it
    returns the message data and the message has gone out on the socket
    of [wsRef]. *)
Theorem sendMessage_needs_connection
    (now : string) (receiverId : Z) (content : string)
    (imageUrl : option string) (h : Hook) :
  (¬ Connected h →
     sendMessage now receiverId content imageUrl h
     = (Throw "WebSocket not connected", h)) ∧
  (Connected h →
     ∃ i, wsRef h = Some i ∧
       sendMessage now receiverId content imageUrl h
       = (Return (mkMessageData receiverId content imageUrl now),
          transmit i (message_out receiverId content imageUrl now) h)).
Proof.
  split.
  - intros Hc%socketOpen_not_Connected. unfold sendMessage. by rewrite Hc.
  - intros Hc%socketOpen_Connected. unfold sendMessage. rewrite Hc. simpl.
    destruct (wsRef_send_open (message_out receiverId content imageUrl now) h Hc)
      as (i & Hi & ->). eauto.
Qed.

(** An open socket and a closed one, for the examples. *)
Definition connected_hook : Hook := opened 0 (connect (initial (Some 7))).
Definition closed_hook : Hook := closed 0 connected_hook.

Lemma sendMessage_needs_connection_witness :
  sendMessage "t0" 42 "hi" None closed_hook
    = (Throw "WebSocket not connected", closed_hook) ∧
  allTransmitted (sendMessage "t0" 42 "hi" None connected_hook).2
    = [[join_out 7; message_out 42 "hi" None "t0"]].
Proof.
  split.
  - apply (proj1 (sendMessage_needs_connection "t0" 42 "hi" None closed_hook)).
    intros (i & ws & Hi & Hws & Hopen). vm_compute in Hi.
    injection Hi as <-. vm_compute in Hws. injection Hws as <-. discriminate.
  - destruct (proj2 (sendMessage_needs_connection "t0" 42 "hi" None connected_hook))
      as (i & Hi & ->).
    + exists 0%nat, (mkWebSocket OPEN [join_out 7]). done.
    + vm_compute in Hi. injection Hi as <-. reflexivity.
Defined.

(** C10: with the socket not open, each of the five quiet operations
    returns normally and leaves the hook, sockets included, exactly as it
    was, where [sendMessage] throws; and none of the five throws in any
    state. *)
Theorem quiet_operations_drop_silently (op : Operation) (h : Hook) :
  (perform op h).1 = Return () ∧
  (socketOpen h = false →
     perform op h = (Return (), h) ∧
     ∀ now receiverId content imageUrl,
       (sendMessage now receiverId content imageUrl h).1
       = Throw "WebSocket not connected").
Proof.
  split.
  - destruct op; apply guarded_send.
  - intros Hc. split.
    + destruct op; simpl;
        unfold sendTypingIndicator, sendReadReceipt, sendStatusUpdate,
          joinConversation, leaveConversation; by rewrite Hc.
    + intros. unfold sendMessage. by rewrite Hc.
Qed.

Lemma quiet_operations_drop_silently_witness :
  perform (SendTypingIndicator "3_7" true) closed_hook = (Return (), closed_hook).
Proof.
  apply (proj2 (quiet_operations_drop_silently
                  (SendTypingIndicator "3_7" true) closed_hook)).
  reflexivity.
Defined.

(** *** Presence *)

Lemma set_has_delete (s : NumSet) (x : Z) : set_has (set_delete s x) x = false.
Proof.
  unfold set_has, set_delete. apply bool_decide_eq_false.
  rewrite list_elem_of_filter. intros [Hne _]. by apply Hne.
Qed.

(** C8: right after an [offline] event for a user the user is not online
    and the user's status reads ["offline"], whatever state the hook was
    in before (any online set, any recorded status, reached by any events
    from any state); and in any state an id without a recorded status
    reads ["offline"] too. *)
Theorem offline_clears_presence
    (h0 : Hook) (events : list Event) (userId id : Z) :
  let before := run events h0 in
  let h := step (Received (offline userId)) before in
  isUserOnline userId h = false ∧
  getUserStatus userId h = "offline" ∧
  (userStatuses before !! id = None → getUserStatus id before = "offline").
Proof.
  intros before h. subst h. generalize before. clear. intros before.
  simpl. split; [| split].
  - unfold isUserOnline. simpl. apply set_has_delete.
  - unfold getUserStatus. simpl. by rewrite lookup_insert_eq.
  - intros Hnone. unfold getUserStatus. by rewrite Hnone.
Qed.

Lemma offline_clears_presence_witness :
  let before := run [Received (online 9); Received (user_status 9 "busy")]
                  (initial (Some 7)) in
  let h := step (Received (offline 9)) before in
  (isUserOnline 9 before = true ∧ getUserStatus 9 before = "busy") ∧
  isUserOnline 9 h = false ∧
  getUserStatus 9 h = "offline" ∧
  getUserStatus 8 before = "offline".
Proof.
  intros before h.
  pose proof (offline_clears_presence (initial (Some 7))
                [Received (online 9); Received (user_status 9 "busy")] 9 8)
    as (H1 & H2 & H3).
  split; [split; vm_compute; reflexivity |].
  split; [exact H1 |]. split; [exact H2 |].
  apply H3. vm_compute. reflexivity.
Defined.

(** *** Reconnecting *)

Lemma closed_fields (i : nat) (h : Hook) :
  reconnectAttempts (closed i h) = reconnectAttempts h ∧
  fired (closed i h) = fired h ∧
  scheduled (closed i h) =
    (scheduled h ++
       if bool_decide (reconnectAttempts h < maxReconnectAttempts)%nat
       then [reconnectDelay (reconnectAttempts h)] else [])%list.
Proof.
  unfold closed, ws_onclose, set_readyState.
  destruct (sockets h !! i); simpl; case_bool_decide; simpl;
    rewrite ?app_nil_r; done.
Qed.

Lemma opened_fields (i : nat) (h : Hook) :
  reconnectAttempts (opened i h) = 0%nat ∧
  fired (opened i h) = fired h ∧
  scheduled (opened i h) = scheduled h.
Proof.
  unfold opened, ws_onopen, set_readyState, ws_send.
  destruct (sockets h !! i) as [ws|] eqn:Hws; simpl.
  - destruct (user h); simpl; [| done].
    rewrite list_lookup_insert_eq by (by eapply lookup_lt_Some). done.
  - destruct (user h); simpl; [| done]. rewrite Hws. done.
Qed.

Lemma connect_fields (h : Hook) :
  reconnectAttempts (connect h) = reconnectAttempts h ∧
  fired (connect h) = fired h ∧
  scheduled (connect h) = scheduled h.
Proof. unfold connect. by destruct (user h). Qed.

Lemma timer_fires_fields (h : Hook) :
  scheduled (timer_fires h) = scheduled h ∧
  if bool_decide (fired h < length (scheduled h))%nat
  then reconnectAttempts (timer_fires h) = S (reconnectAttempts h) ∧
       fired (timer_fires h) = S (fired h)
  else timer_fires h = h.
Proof.
  unfold timer_fires, reconnect_callback.
  case_bool_decide; [| done].
  destruct (connect_fields
              (with_reconnectAttempts (S (reconnectAttempts (with_fired (S (fired h)) h)))
                 (with_fired (S (fired h)) h))) as (-> & -> & ->).
  done.
Qed.

(** One failed attempt: below the limit a timeout with the current delay
    is scheduled and runs, which counts the attempt; at the limit nothing
    is scheduled. *)
Lemma failed_attempt_fields (i : nat) (h : Hook) :
  timers_wf h →
  timers_wf (failed_attempt i h) ∧
  if bool_decide (reconnectAttempts h < maxReconnectAttempts)%nat
  then scheduled (failed_attempt i h)
         = (scheduled h ++ [reconnectDelay (reconnectAttempts h)])%list ∧
       reconnectAttempts (failed_attempt i h) = S (reconnectAttempts h)
  else scheduled (failed_attempt i h) = scheduled h ∧
       (reconnectAttempts h ≤ reconnectAttempts (failed_attempt i h))%nat.
Proof.
  unfold timers_wf, failed_attempt. intros Hwf.
  destruct (closed_fields i h) as (Ha & Hf & Hs).
  destruct (timer_fires_fields (closed i h)) as (Hs' & Hfire).
  rewrite Hs'. rewrite Hf in Hfire. clear Hs'.
  destruct (decide (reconnectAttempts h < maxReconnectAttempts)%nat) as [Hlim | Hlim].
  - rewrite bool_decide_eq_true_2 in Hs |- * by done.
    rewrite Hs, length_app in Hfire |- *. simpl in *.
    rewrite bool_decide_eq_true_2 in Hfire by lia.
    destruct Hfire as [-> ->]. rewrite ?Ha, ?Hf. split; [lia | done].
  - rewrite bool_decide_eq_false_2 in Hs |- * by done.
    rewrite app_nil_r in Hs. rewrite Hs in Hfire |- *.
    destruct (decide (fired h < length (scheduled h))%nat) as [Hp | Hp].
    + rewrite bool_decide_eq_true_2 in Hfire by done.
      destruct Hfire as [-> ->]. rewrite ?Ha, ?Hf. split; [lia | split; [done | lia]].
    + rewrite bool_decide_eq_false_2 in Hfire by done.
      rewrite Hfire, ?Ha, ?Hf. split; [lia | split; [done | lia]].
Qed.

Lemma failures_fields (closing : list nat) (h : Hook) :
  timers_wf h →
  scheduled (failures closing h)
    = (scheduled h ++
         map reconnectDelay
           (seq (reconnectAttempts h)
              (length closing `min` (maxReconnectAttempts - reconnectAttempts h))))%list ∧
  ((reconnectAttempts h + length closing) `min` maxReconnectAttempts
     ≤ reconnectAttempts (failures closing h))%nat.
Proof.
  unfold maxReconnectAttempts.
  revert h. induction closing as [| i closing IH]; intros h Hwf.
  - simpl. rewrite app_nil_r. split; [done | lia].
  - change (failures (i :: closing) h) with (failures closing (failed_attempt i h)).
    destruct (failed_attempt_fields i h Hwf) as (Hwf' & Hstep).
    destruct (IH _ Hwf') as (IHs & IHa). rewrite IHs. clear IHs.
    unfold maxReconnectAttempts in Hstep.
    case_bool_decide as Hlim.
    + destruct Hstep as (-> & Ha). rewrite Ha in *. simpl length.
      replace (S (length closing) `min` (5 - reconnectAttempts h))%nat
        with (S (length closing `min` (5 - S (reconnectAttempts h))))%nat by lia.
      simpl. rewrite <- app_assoc. simpl. split; [done | lia].
    + destruct Hstep as (-> & Ha). simpl length.
      replace (length closing `min` (5 - reconnectAttempts (failed_attempt i h)))%nat
        with 0%nat by lia.
      replace (S (length closing) `min` (5 - reconnectAttempts h))%nat
        with 0%nat by lia.
      simpl. split; [done | lia].
Qed.

Lemma step_timers_wf (e : Event) (h : Hook) : timers_wf h → timers_wf (step e h).
Proof.
  unfold timers_wf. intros Hwf. destruct e; simpl.
  - destruct (connect_fields h) as (_ & -> & ->). done.
  - destruct (opened_fields ws h) as (_ & -> & ->). done.
  - destruct (closed_fields ws h) as (_ & -> & ->). rewrite length_app. lia.
  - destruct (timer_fires_fields h) as (-> & Hfire).
    case_bool_decide; [destruct Hfire as [_ ->]; lia | by rewrite Hfire].
  - destruct message; simpl; try done; unfold forward; by case_bool_decide.
  - destruct op; simpl;
      unfold sendTypingIndicator, sendReadReceipt, sendStatusUpdate,
        joinConversation, leaveConversation, wsRef_send, ws_send;
      destruct (socketOpen h); simpl; try done;
      destruct (wsRef h) as [i|]; simpl; try done;
      destruct (sockets h !! i) as [ws|]; simpl; try done;
      by destruct (readyState ws).
  - unfold sendMessage, wsRef_send, ws_send.
    destruct (socketOpen h); simpl; try done.
    destruct (wsRef h) as [i|]; simpl; try done.
    destruct (sockets h !! i) as [ws|]; simpl; try done.
    by destruct (readyState ws).
  - done.
  - done.
Qed.

Lemma run_timers_wf (events : list Event) (h : Hook) :
  timers_wf h → timers_wf (run events h).
Proof.
  revert h. induction events as [| e events IH]; intros h Hwf; [done |].
  apply IH. by apply step_timers_wf.
Qed.

(** C3: a successful open resets the attempt counter to zero; from there,
    whatever the history, the timeouts scheduled by consecutive failures
    have the delays [min (1000 * 2^N) 10000] for N = 0, 1, ... in this
    order, and there are never more than five of them: once five attempts
    have failed, a further close schedules nothing. *)
Theorem reconnect_backoff
    (u : option Z) (events : list Event) (ws : nat) (closing : list nat) :
  let h0 := opened ws (run events (initial u)) in
  let h := failures closing h0 in
  reconnectAttempts h0 = 0%nat ∧
  scheduled h
    = (scheduled h0 ++
         map (λ N : nat, Z.min (1000 * 2 ^ Z.of_nat N) 10000)
           (seq 0 (length closing `min` 5)))%list ∧
  ((5 ≤ length closing)%nat →
     scheduled h = (scheduled h0 ++ [1000; 2000; 4000; 8000; 10000])%list ∧
     ∀ i, scheduled (closed i h) = scheduled h).
Proof.
  intros h0 h.
  assert (Hwf : timers_wf h0).
  { unfold h0, timers_wf.
    destruct (opened_fields ws (run events (initial u))) as (_ & -> & ->).
    apply run_timers_wf. unfold timers_wf. simpl. lia. }
  destruct (opened_fields ws (run events (initial u))) as (Hzero & _).
  fold h0 in Hzero.
  destruct (failures_fields closing h0 Hwf) as (Hs & Ha). fold h in Hs, Ha.
  rewrite Hzero in Hs, Ha. unfold maxReconnectAttempts in Hs, Ha.
  split; [done |]. split.
  - rewrite Hs. by replace (5 - 0)%nat with 5%nat by lia.
  - intros Hlen. split.
    + rewrite Hs. by replace (length closing `min` (5 - 0))%nat with 5%nat by lia.
    + intros i. destruct (closed_fields i h) as (_ & _ & ->).
      unfold maxReconnectAttempts.
      rewrite bool_decide_eq_false_2 by lia. by rewrite app_nil_r.
Qed.

Lemma reconnect_backoff_witness :
  scheduled (failures [0; 1; 2; 3; 4; 5; 6]%nat connected_hook)
    = (scheduled connected_hook ++ [1000; 2000; 4000; 8000; 10000])%list.
Proof.
  pose proof (reconnect_backoff (Some 7) [Mount] 0 [0; 1; 2; 3; 4; 5; 6]%nat)
    as (_ & _ & H).
  destruct H as [H _]; [simpl; lia |]. exact H.
Defined.

(** *** Typing *)

Lemma set_has_true (s : NumSet) (x : Z) : set_has s x = true ↔ x ∈ s.
Proof. unfold set_has. apply bool_decide_eq_true. Qed.

Lemma set_add_elem (s : NumSet) (x y : Z) : y ∈ set_add s x ↔ y = x ∨ y ∈ s.
Proof.
  unfold set_add. destruct (set_has s x) eqn:H.
  - apply set_has_true in H. split; [tauto |]. intros [-> | ?]; done.
  - rewrite elem_of_app, list_elem_of_singleton. tauto.
Qed.

Lemma set_delete_elem (s : NumSet) (x y : Z) : y ∈ set_delete s x ↔ y ≠ x ∧ y ∈ s.
Proof. unfold set_delete. by rewrite list_elem_of_filter. Qed.

Lemma set_delete_last (x : Z) : set_delete [x] x = [].
Proof.
  destruct (set_delete [x] x) as [| y s] eqn:E; [done |].
  assert (Hy : y ∈ set_delete [x] x) by (rewrite E; left).
  apply set_delete_elem in Hy as [Hne Hy%list_elem_of_singleton]. done.
Qed.

Lemma set_add_nonempty (s : NumSet) (x : Z) : set_add s x ≠ [].
Proof.
  intros H. assert (Hx : x ∈ set_add s x) by (apply set_add_elem; by left).
  rewrite H in Hx. by apply not_elem_of_nil in Hx.
Qed.

Lemma set_add_present (s : NumSet) (x : Z) : x ∈ s → set_add s x = s.
Proof. intros H. unfold set_add. by rewrite (proj2 (set_has_true s x) H). Qed.

Lemma set_size_zero (s : NumSet) : set_size s = 0%nat ↔ s = [].
Proof. unfold set_size. by destruct s. Qed.

(** The result of the updater, case by case: [l] is the [Set] of the
    conversation (a fresh, empty one when there was no entry), [s'] what
    it holds afterwards. *)
Lemma typing_updater_cases (c : string) (x : Z) (b : bool)
    (heap : gmap loc NumSet) (m : gmap string loc) :
  ∃ l s,
    (m !! c = Some l ∧ s = default [] (heap !! l)
     ∨ m !! c = None ∧ l = fresh (dom heap) ∧ s = []) ∧
    let s' := if b then set_add s x else set_delete s x in
    typing_updater c x b (heap, m)
    = (<[l := s']> heap, if bool_decide (s' = []) then delete c m else <[c := l]> m).
Proof.
  unfold typing_updater. destruct (m !! c) as [l|] eqn:Hc.
  - exists l, (default [] (heap !! l)). split; [by left |]. simpl.
    rewrite Hc. rewrite (insert_id m c l Hc).
    case_bool_decide as Hsz; rewrite set_size_zero in Hsz.
    + by rewrite bool_decide_eq_true_2.
    + by rewrite bool_decide_eq_false_2.
  - exists (fresh (dom heap)), []. split; [by right |]. simpl.
    rewrite lookup_insert_eq. rewrite lookup_insert_eq. simpl.
    rewrite insert_insert_eq.
    case_bool_decide as Hsz; rewrite set_size_zero in Hsz.
    + rewrite bool_decide_eq_true_2 by done. rewrite delete_insert_eq.
      by rewrite delete_id.
    + by rewrite bool_decide_eq_false_2.
Qed.

(** Entries of other conversations point to other [Set]s than the one
    the updater writes to. *)
Lemma typing_updater_apart (c : string) (heap : gmap loc NumSet)
    (m : gmap string loc) (l : loc) :
  typing_wf heap m →
  (m !! c = Some l ∨ m !! c = None ∧ l = fresh (dom heap)) →
  ∀ c2 l2, c2 ≠ c → m !! c2 = Some l2 → l2 ≠ l.
Proof.
  intros [Halloc Hinj] Hl c2 l2 Hne Hc2 ->.
  destruct Hl as [Hc | [_ ->]].
  - apply Hne. by eapply Hinj.
  - destruct (Halloc _ _ Hc2) as (s & Hs & _).
    apply (is_fresh (dom heap)). apply elem_of_dom. by exists s.
Qed.

Lemma typing_updater_wf (c : string) (x : Z) (b : bool)
    (heap : gmap loc NumSet) (m : gmap string loc) :
  typing_wf heap m →
  typing_wf (typing_updater c x b (heap, m)).1 (typing_updater c x b (heap, m)).2.
Proof.
  intros Hwf.
  destruct (typing_updater_cases c x b heap m) as (l & s & Hcase & ->).
  assert (Hapart := typing_updater_apart c heap m l Hwf).
  assert (Hl : m !! c = Some l ∨ m !! c = None ∧ l = fresh (dom heap))
    by (destruct Hcase as [[? _] | (? & ? & _)]; auto).
  specialize (Hapart Hl). destruct Hwf as [Halloc Hinj].
  set (s' := if b then set_add s x else set_delete s x). simpl.
  case_bool_decide as Hs'; split.
  - intros c2 l2 [Hne Hc2]%lookup_delete_Some.
    rewrite lookup_insert_ne by (apply not_eq_sym; by eapply Hapart).
    by eapply Halloc.
  - intros c1 c2 l0 [_ H1]%lookup_delete_Some [_ H2]%lookup_delete_Some.
    by eapply Hinj.
  - intros c2 l2 Hc2. destruct (decide (c2 = c)) as [-> | Hne].
    + rewrite lookup_insert_eq in Hc2. injection Hc2 as <-.
      rewrite lookup_insert_eq. eauto.
    + rewrite lookup_insert_ne in Hc2 by done.
      rewrite lookup_insert_ne by (apply not_eq_sym; by eapply Hapart).
      by eapply Halloc.
  - intros c1 c2 l0 H1 H2.
    destruct (decide (c1 = c)) as [-> | Hne1], (decide (c2 = c)) as [-> | Hne2];
      [done | | |].
    + rewrite lookup_insert_eq in H1. injection H1 as <-.
      rewrite lookup_insert_ne in H2 by done. by destruct (Hapart _ _ Hne2 H2).
    + rewrite lookup_insert_eq in H2. injection H2 as <-.
      rewrite lookup_insert_ne in H1 by done. by destruct (Hapart _ _ Hne1 H1).
    + rewrite lookup_insert_ne in H1, H2 by done. by eapply Hinj.
Qed.

(** What the registry holds after a typing event, read through [get]:
    the conversation of the event has the updated set, or no entry when
    that set is empty; every other conversation is as before. *)
Lemma typing_updater_get (c : string) (x : Z) (b : bool)
    (heap : gmap loc NumSet) (m : gmap string loc) (c' : string) :
  typing_wf heap m →
  mapGet (typing_updater c x b (heap, m)).1 (typing_updater c x b (heap, m)).2 c'
  = if decide (c' = c)
    then
      let s := default [] (mapGet heap m c) in
      let s' := if b then set_add s x else set_delete s x in
      if bool_decide (s' = []) then None else Some s'
    else mapGet heap m c'.
Proof.
  intros Hwf.
  destruct (typing_updater_cases c x b heap m) as (l & s & Hcase & ->).
  assert (Hapart := typing_updater_apart c heap m l Hwf).
  assert (Hl : m !! c = Some l ∨ m !! c = None ∧ l = fresh (dom heap))
    by (destruct Hcase as [[? _] | (? & ? & _)]; auto).
  specialize (Hapart Hl).
  assert (Hs : s = default [] (mapGet heap m c)).
  { unfold mapGet. destruct Hcase as [[-> ->] | (-> & _ & ->)]; done. }
  rewrite <- Hs. clear Hs. simpl.
  set (s' := if b then set_add s x else set_delete s x).
  unfold mapGet. destruct (decide (c' = c)) as [-> | Hne].
  - case_bool_decide.
    + by rewrite lookup_delete_eq.
    + by rewrite !lookup_insert_eq.
  - assert (Hm : (if bool_decide (s' = []) then delete c m else <[c:=l]> m) !! c'
                 = m !! c').
    { case_bool_decide; [by rewrite lookup_delete_ne | by rewrite lookup_insert_ne]. }
    rewrite Hm. destruct (m !! c') as [l2|] eqn:Hc'; [| done].
    rewrite lookup_insert_ne by (apply not_eq_sym; by eapply Hapart). done.
Qed.

Lemma handleMessage_typing (c : string) (x : Z) (b : bool) (h : Hook) :
  setHeap (handleMessage (typing c x b) h)
    = (typing_updater c x b (setHeap h, typingUsers h)).1 ∧
  typingUsers (handleMessage (typing c x b) h)
    = (typing_updater c x b (setHeap h, typingUsers h)).2.
Proof. done. Qed.

(** Only typing events touch the registry. *)
Lemma step_typing_fields (e : Event) (h : Hook) :
  (∀ c x b, e ≠ Received (typing c x b)) →
  setHeap (step e h) = setHeap h ∧ typingUsers (step e h) = typingUsers h.
Proof.
  intros Hne. destruct e; simpl.
  - unfold connect. by destruct (user h).
  - unfold opened, ws_onopen, set_readyState, ws_send.
    destruct (sockets h !! ws) as [s|] eqn:Hws; simpl.
    + destruct (user h); simpl; [| done].
      rewrite list_lookup_insert_eq by (by eapply lookup_lt_Some). done.
    + destruct (user h); simpl; [| done]. by rewrite Hws.
  - unfold closed, ws_onclose, set_readyState.
    destruct (sockets h !! ws); simpl; by case_bool_decide.
  - unfold timer_fires, reconnect_callback, connect.
    case_bool_decide; simpl; [| done]. by destruct (user h).
  - destruct message; simpl; try done; try (unfold forward; by case_bool_decide).
    by destruct (Hne conversationId userId isTyping).
  - destruct op; simpl;
      unfold sendTypingIndicator, sendReadReceipt, sendStatusUpdate,
        joinConversation, leaveConversation, wsRef_send, ws_send;
      destruct (socketOpen h); simpl; try done;
      destruct (wsRef h) as [i|]; simpl; try done;
      destruct (sockets h !! i) as [s|]; simpl; try done;
      by destruct (readyState s).
  - unfold sendMessage, wsRef_send, ws_send.
    destruct (socketOpen h); simpl; try done.
    destruct (wsRef h) as [i|]; simpl; try done.
    destruct (sockets h !! i) as [s|]; simpl; try done.
    by destruct (readyState s).
  - done.
  - done.
Qed.

Lemma step_typing_wf (e : Event) (h : Hook) :
  typing_wf (setHeap h) (typingUsers h) →
  typing_wf (setHeap (step e h)) (typingUsers (step e h)).
Proof.
  intros Hwf.
  assert (Hcases : (∃ c x b, e = Received (typing c x b))
                   ∨ ∀ c x b, e ≠ Received (typing c x b)).
  { destruct e as [| | | | [] | | | |]; try (right; intros; discriminate).
    left. eauto. }
  destruct Hcases as [(c & x & b & ->) | Hne].
  - simpl. by apply typing_updater_wf.
  - destruct (step_typing_fields e h Hne) as [-> ->]. done.
Qed.

Lemma run_typing_wf (u : option Z) (events : list Event) :
  typing_wf (setHeap (run events (initial u))) (typingUsers (run events (initial u))).
Proof.
  assert (H0 : typing_wf (setHeap (initial u)) (typingUsers (initial u))).
  { split; simpl; intros *; by rewrite lookup_empty. }
  revert H0. generalize (initial u).
  induction events as [| e events IH]; intros h Hwf; [done |].
  apply IH. by apply step_typing_wf.
Qed.

Lemma typingSetOf_after (c : string) (x : Z) (b : bool) (h : Hook) (c' : string) :
  typing_wf (setHeap h) (typingUsers h) →
  typingSetOf c' (handleMessage (typing c x b) h)
  = if decide (c' = c)
    then
      let s := default [] (typingSetOf c h) in
      let s' := if b then set_add s x else set_delete s x in
      if bool_decide (s' = []) then None else Some s'
    else typingSetOf c' h.
Proof. intros Hwf. unfold typingSetOf. by apply typing_updater_get. Qed.

Lemma setTypingUsers_id
    (f : gmap loc NumSet * gmap string loc → gmap loc NumSet * gmap string loc)
    (h : Hook) :
  f (setHeap h, typingUsers h) = (setHeap h, typingUsers h) → setTypingUsers f h = h.
Proof. intros Hf. unfold setTypingUsers. rewrite Hf. by destruct h. Qed.

(** C9: in every reachable state, a typing event with [isTyping] true
    puts the user into the conversation's set, and changes nothing at all
    when the user is already there; one with [isTyping] false takes the
    user out; no other (conversation, user) pair is affected; the map
    never holds an entry with an empty set, the entry going away with its
    last user. *)
Theorem typing_registry
    (u : option Z) (events : list Event) (c : string) (x : Z) :
  let h := run events (initial u) in
  let h_on := step (Received (typing c x true)) h in
  let h_off := step (Received (typing c x false)) h in
  isUserTyping c x h_on = true ∧
  (isUserTyping c x h = true → h_on = h) ∧
  isUserTyping c x h_off = false ∧
  (∀ c' x', (c', x') ≠ (c, x) →
     isUserTyping c' x' h_on = isUserTyping c' x' h ∧
     isUserTyping c' x' h_off = isUserTyping c' x' h) ∧
  (∀ c', typingSetOf c' h ≠ Some [] ∧ typingSetOf c' h_on ≠ Some []
         ∧ typingSetOf c' h_off ≠ Some []) ∧
  (getTypingUsers c h = [x] → typingUsers h_off !! c = None).
Proof.
  intros h h_on h_off.
  assert (Hwf : typing_wf (setHeap h) (typingUsers h)) by apply run_typing_wf.
  assert (Hnonempty : ∀ h', typing_wf (setHeap h') (typingUsers h') →
                        ∀ c', typingSetOf c' h' ≠ Some []).
  { intros h' [Halloc _] c'. unfold typingSetOf, mapGet.
    destruct (typingUsers h' !! c') as [l|] eqn:Hc'; [| done].
    destruct (Halloc _ _ Hc') as (s & -> & Hs). simpl. congruence. }
  assert (Hon := typingSetOf_after c x true h). 
  assert (Hoff := typingSetOf_after c x false h).
  fold h_on in Hon. fold h_off in Hoff. 
  change (step (Received (typing c x true)) h) with (handleMessage (typing c x true) h) in h_on.
  change (step (Received (typing c x false)) h) with (handleMessage (typing c x false) h) in h_off.
  repeat split.
  - unfold isUserTyping. unfold h_on. rewrite Hon by done.
    rewrite decide_True by done. simpl.
    rewrite bool_decide_eq_false_2 by apply set_add_nonempty.
    apply set_has_true, set_add_elem. by left.
  - intros Hin. unfold isUserTyping, typingSetOf, mapGet in Hin.
    destruct (typingUsers h !! c) as [l|] eqn:Hc; [| done].
    apply set_has_true in Hin.
    destruct (setHeap h !! l) as [s|] eqn:Hl; simpl in Hin;
      [| by apply not_elem_of_nil in Hin].
    apply setTypingUsers_id.
    destruct (typing_updater_cases c x true (setHeap h) (typingUsers h))
      as (l' & s' & Hcase & ->).
    destruct Hcase as [[Hc' ->] | [Hc' _]]; [| congruence].
    assert (l' = l) as -> by congruence. rewrite Hl. simpl.
    rewrite (set_add_present s x Hin).
    rewrite bool_decide_eq_false_2
      by (intros ->; by apply not_elem_of_nil in Hin).
    by rewrite !insert_id.
  - unfold isUserTyping. unfold h_off. rewrite Hoff by done.
    rewrite decide_True by done. simpl.
    case_bool_decide; [done |]. unfold set_has; apply bool_decide_eq_false; rewrite set_delete_elem; tauto.
  - unfold isUserTyping, h_on. rewrite Hon by done.
    destruct (decide (c' = c)) as [-> | Hne]; [| done]. simpl.
    rewrite bool_decide_eq_false_2 by apply set_add_nonempty.
    assert (Hx : x' ≠ x) by congruence.
    destruct (typingSetOf c h) as [s|]; simpl.
    + apply bool_decide_ext. rewrite set_add_elem. tauto.
    + apply bool_decide_eq_false. rewrite set_add_elem.
      intros [? | Hnil]; [done | by apply not_elem_of_nil in Hnil].
  - unfold isUserTyping, h_off. rewrite Hoff by done.
    destruct (decide (c' = c)) as [-> | Hne]; [| done]. simpl.
    assert (Hx : x' ≠ x) by congruence.
    assert (Hsame : ∀ s, (x' ∈ set_delete s x) ↔ x' ∈ s)
      by (intros s; rewrite set_delete_elem; tauto).
    case_bool_decide as Hempty.
    + destruct (typingSetOf c h) as [s|]; simpl in *; [| done].
      symmetry. apply bool_decide_eq_false. rewrite <- Hsame, Hempty.
      apply not_elem_of_nil.
    + destruct (typingSetOf c h) as [s|]; simpl in *.
      * apply bool_decide_ext, Hsame.
      * done.
  - by apply Hnonempty.
  - apply Hnonempty. by apply (step_typing_wf (Received (typing c x true))).
  - apply Hnonempty. by apply (step_typing_wf (Received (typing c x false))).
  - intros Hlast. unfold getTypingUsers in Hlast.
    assert (Hget : typingSetOf c h_off = None).
    { unfold h_off. rewrite Hoff by done. rewrite decide_True by done.
      rewrite Hlast. simpl. by rewrite set_delete_last. }
    unfold typingSetOf, mapGet in Hget.
    by destruct (typingUsers h_off !! c).
Qed.

Lemma typing_registry_witness :
  let h := run [Received (typing "3_7" 3 true)] (initial (Some 7)) in
  step (Received (typing "3_7" 3 true)) h = h ∧
  typingUsers (step (Received (typing "3_7" 3 false)) h) !! "3_7" = None.
Proof.
  destruct (typing_registry (Some 7) [Received (typing "3_7" 3 true)] "3_7" 3)
    as (_ & Hidem & _ & _ & _ & Hlast).
  split; [apply Hidem | apply Hlast]; reflexivity.
Defined.

End UseWebSocketSpec.

(* ===================================================================== *)
(** ** Properties of the call signaling *)
(* ===================================================================== *)

Module VideoCallSpec.
Import VideoCall.

(** *** Tame actions *)

Section Tame.
Variable Q : Effect → Prop.

Lemma tame_skip : tame Q skip.
Proof. intros w. split; [done |]. exists []. by rewrite app_nil_r. Qed.

Lemma tame_emit (e : Effect) : Q e → tame Q (emit e).
Proof. intros He w. split; [done |]. exists [e]. split; [done | by constructor]. Qed.

Lemma tame_setState (f : State → State) : tame Q (setState f).
Proof. intros w. split; [done |]. exists []. by rewrite app_nil_r. Qed.

Lemma tame_andThen (f g : Action) : tame Q f → tame Q g → tame Q (f >> g).
Proof.
  intros Hf Hg w. unfold andThen.
  destruct (Hf w) as (Hs1 & es1 & Ht1 & HQ1).
  destruct (Hg (f w)) as (Hs2 & es2 & Ht2 & HQ2).
  split; [congruence |]. exists (es1 ++ es2)%list.
  split; [by rewrite Ht2, Ht1, app_assoc | by apply Forall_app].
Qed.

Lemma tame_when (b : bool) (f : Action) : tame Q f → tame Q (when b f).
Proof. destruct b; [done | intros _; apply tame_skip]. Qed.

Lemma tame_whenSome {A} (x : option A) (f : A → Action) :
  (∀ a, tame Q (f a)) → tame Q (whenSome x f).
Proof. intros Hf. destruct x; [apply Hf | apply tame_skip]. Qed.

Lemma tame_forEach {A} (l : list A) (f : A → Action) :
  (∀ a, tame Q (f a)) → tame Q (forEach l f).
Proof.
  intros Hf. induction l as [| a l IH]; [apply tame_skip |].
  change (forEach (a :: l) f) with (f a >> forEach l f).
  by apply tame_andThen.
Qed.

Lemma tame_newPeerConnection (sc : Scope) (role : Role) (stream : MediaStream)
    (k : nat → Action) :
  (∀ pc, Q (new_RTCPeerConnection pc)) →
  (∀ pc track, Q (pc_call pc (addTrack track))) →
  (∀ pc, tame Q (k pc)) →
  tame Q (newPeerConnection sc role stream k).
Proof.
  intros Hnew Htrack Hk w. unfold newPeerConnection.
  set (w1 := mkWorld _ _ _ _ _).
  assert (Ht : tame Q (emit (new_RTCPeerConnection (length (connections w)))
                       >> forEach (getTracks stream)
                            (λ track, emit (pc_call (length (connections w))
                                              (addTrack track)))
                       >> setPeerConnection (Some (length (connections w)))
                       >> k (length (connections w)))).
  { apply tame_andThen; [| apply Hk].
    apply tame_andThen; [| apply tame_setState].
    apply tame_andThen; [apply tame_emit, Hnew |].
    apply tame_forEach. intros track. apply tame_emit, Htrack. }
  apply (Ht w1).
Qed.

End Tame.

Ltac tame :=
  repeat match goal with
    | |- tame _ (_ >> _) => apply tame_andThen
    | |- tame _ (emit _) => apply tame_emit; first [exact I | reflexivity]
    | |- tame _ (setState _) => apply tame_setState
    | |- tame _ (setLocalStream _) => apply tame_setState
    | |- tame _ (setRemoteStream _) => apply tame_setState
    | |- tame _ (setIsCallActive _) => apply tame_setState
    | |- tame _ (setPeerConnection _) => apply tame_setState
    | |- tame _ (setWebsocket _) => apply tame_setState
    | |- tame _ (setCallId _) => apply tame_setState
    | |- tame _ (setIsConnecting _) => apply tame_setState
    | |- tame _ (setConnectionStatus _) => apply tame_setState
    | |- tame _ skip => apply tame_skip
    | |- tame _ (when _ _) => apply tame_when
    | |- tame _ (whenSome _ _) => apply tame_whenSome; intros
    | |- tame _ (forEach _ _) => apply tame_forEach; intros
    | |- tame _ (newPeerConnection _ _ _ _) =>
        apply tame_newPeerConnection; [intros; exact I | intros; exact I | intros]
    end.

(** *** Candidates *)

Lemma appliedCandidates_app (pc : nat) (t1 t2 : list Effect) :
  appliedCandidates pc (t1 ++ t2)
  = (appliedCandidates pc t1 ++ appliedCandidates pc t2)%list.
Proof.
  induction t1 as [| e t1 IH]; [done |].
  destruct e as [| | | | | pc' []| | | | | |]; simpl; try done.
  case_bool_decide; simpl; by rewrite IH.
Qed.

Lemma allAppliedCandidates_app (t1 t2 : list Effect) :
  allAppliedCandidates (t1 ++ t2)
  = (allAppliedCandidates t1 ++ allAppliedCandidates t2)%list.
Proof.
  induction t1 as [| e t1 IH]; [done |].
  destruct e as [| | | | | pc' []| | | | | |]; simpl; try done.
  by rewrite IH.
Qed.

Lemma notCandidate_none (es : list Effect) :
  Forall notCandidate es →
  allAppliedCandidates es = [] ∧ ∀ pc, appliedCandidates pc es = [].
Proof.
  induction 1 as [| e es He _ [IH1 IH2]]; [done |].
  destruct e as [| | | | | pc' []| | | | | |]; simpl in *; done.
Qed.

Lemma createPeerConnection_notCandidate (sc : Scope) (stream : MediaStream)
    (rtc : Promises) :
  tame notCandidate (createPeerConnection sc stream rtc).
Proof. unfold createPeerConnection. tame. Qed.

Lemma handleIncomingCall_notCandidate (sc : Scope) (o : SessionDescription)
    (stream : MediaStream) (rtc : Promises) :
  tame notCandidate (handleIncomingCall sc o stream rtc).
Proof. unfold handleIncomingCall. tame. Qed.

Lemma cleanupMedia_notCandidate (sc : Scope) : tame notCandidate (cleanupMedia sc).
Proof. unfold cleanupMedia. tame. Qed.

(** One inbound envelope: the socket store is untouched, and the only
    candidate handed to a connection is the one of an [ice_candidate]
    envelope, to the connection the handler captured. *)
Lemma ws_onmessage_candidates (ws : nat) (sc : Scope) (stream : MediaStream)
    (data : Inbound) (w : World) :
  sockets w !! ws = Some (sc, stream) →
  sockets (ws_onmessage ws data w) = sockets w ∧
  ∃ es, trace (ws_onmessage ws data w) = (trace w ++ es)%list ∧
    match peerConnection (state sc) with
    | Some pc =>
        allAppliedCandidates es = candidatesOf [data] ∧
        appliedCandidates pc es = candidatesOf [data]
    | None => allAppliedCandidates es = []
    end.
Proof.
  intros Hws. unfold ws_onmessage. rewrite Hws.
  assert (Htame : ∀ f : Action, tame notCandidate f →
            (∀ c, data ≠ ice_candidate c) →
            sockets (f w) = sockets w ∧
            ∃ es, trace (f w) = (trace w ++ es)%list ∧
              match peerConnection (state sc) with
              | Some pc =>
                  allAppliedCandidates es = candidatesOf [data] ∧
                  appliedCandidates pc es = candidatesOf [data]
              | None => allAppliedCandidates es = []
              end).
  { intros f Hf Hdata. destruct (Hf w) as (Hs & es & Ht & HQ).
    split; [done |]. exists es. split; [done |].
    destruct (notCandidate_none es HQ) as [Hall Hone].
    assert (Hnone : candidatesOf [data] = []).
    { destruct data; try done. by destruct (Hdata candidate). }
    rewrite Hnone. destruct (peerConnection (state sc)); auto. }
  destruct data.
  - apply Htame; [| done]. tame. apply createPeerConnection_notCandidate.
  - apply Htame; [| done]. tame.
  - apply Htame; [| done]. unfold endCall. tame. apply cleanupMedia_notCandidate.
  - split; [by destruct (peerConnection (state sc)) |].
    destruct (peerConnection (state sc)) as [pc|]; simpl.
    + exists [pc_call pc (addIceCandidate candidate)]. simpl.
      by rewrite bool_decide_eq_true_2.
    + exists []. by rewrite app_nil_r.
  - apply Htame; [| done]. tame. apply handleIncomingCall_notCandidate.
  - apply Htame; [| done]. tame.
  - apply (Htame skip); [| done]. tame.
  - apply (Htame skip); [| done]. tame.
Qed.

Lemma candidatesOf_cons (data : Inbound) (messages : list Inbound) :
  candidatesOf (data :: messages) = (candidatesOf [data] ++ candidatesOf messages)%list.
Proof. by destruct data. Qed.

(** C1, amended: there is no queue.  An [ice_candidate] envelope is acted
    on when it arrives: if the handler of the socket captured a peer
    connection, each candidate is handed to that connection at once, so
    the candidates reach it in arrival order and none is skipped; if it
    captured none, the candidates are dropped, whatever else arrives. *)
Theorem ice_candidates_applied_on_arrival
    (w : World) (ws : nat) (sc : Scope) (stream : MediaStream)
    (messages : list Inbound) :
  sockets w !! ws = Some (sc, stream) →
  let w' := deliver ws messages w in
  match peerConnection (state sc) with
  | Some pc =>
      appliedCandidates pc (trace w')
      = (appliedCandidates pc (trace w) ++ candidatesOf messages)%list ∧
      allAppliedCandidates (trace w')
      = (allAppliedCandidates (trace w) ++ candidatesOf messages)%list
  | None => allAppliedCandidates (trace w') = allAppliedCandidates (trace w)
  end.
Proof.
  revert w. induction messages as [| data messages IH]; intros w Hws; cbv zeta.
  - simpl. destruct (peerConnection (state sc)); by rewrite ?app_nil_r.
  - destruct (ws_onmessage_candidates ws sc stream data w Hws)
      as (Hs & es & Ht & Hes).
    assert (Hws' : sockets (ws_onmessage ws data w) !! ws = Some (sc, stream))
      by (by rewrite Hs).
    specialize (IH _ Hws'). cbv zeta in IH.
    change (deliver ws (data :: messages) w)
      with (deliver ws messages (ws_onmessage ws data w)).
    rewrite (candidatesOf_cons data messages).
    destruct (peerConnection (state sc)) as [pc|].
    + destruct IH as [IH1 IH2], Hes as [He1 He2].
      rewrite IH1, IH2, Ht, appliedCandidates_app, allAppliedCandidates_app.
      rewrite He1, He2, !app_assoc. done.
    + rewrite IH, Ht, allAppliedCandidates_app, Hes, app_nil_r. done.
Qed.

(** *** Call set-up *)

Lemma createPeerConnection_notSetup (sc : Scope) (stream : MediaStream)
    (rtc : Promises) :
  tame notSetup (createPeerConnection sc stream rtc).
Proof. unfold createPeerConnection. tame. Qed.

Lemma handleIncomingCall_notSetup (sc : Scope) (o : SessionDescription)
    (stream : MediaStream) (rtc : Promises) :
  tame notSetup (handleIncomingCall sc o stream rtc).
Proof. unfold handleIncomingCall. tame. Qed.

Lemma cleanupMedia_notSetup (sc : Scope) : tame notSetup (cleanupMedia sc).
Proof. unfold cleanupMedia. tame. Qed.

Lemma tame_at (Q : Effect → Prop) (f : Action) (w : World) :
  tame Q f →
  sockets (f w) = sockets w ∧
  ∃ es, trace (f w) = (trace w ++ es)%list ∧ Forall Q es.
Proof. intros Hf. apply Hf. Qed.

Lemma ws_onmessage_notSetup (ws : nat) (data : Inbound) :
  tame notSetup (ws_onmessage ws data).
Proof.
  intros w. unfold ws_onmessage.
  destruct (sockets w !! ws) as [[sc stream]|]; [| apply (tame_skip _ w)].
  destruct data; try apply (tame_skip _ w); apply tame_at; unfold endCall; tame;
    auto using createPeerConnection_notSetup, handleIncomingCall_notSetup,
      cleanupMedia_notSetup.
Qed.

Lemma handleRejectCall_notSetup (sc : Scope) : tame notSetup (handleRejectCall sc).
Proof.
  unfold handleRejectCall. tame.
  destruct (websocket (state sc)), (callId (state sc)); try case_bool_decide; tame.
Qed.

Lemma handleEndCall_notSetup (sc : Scope) : tame notSetup (handleEndCall sc).
Proof.
  unfold handleEndCall, endCall. tame; [| apply cleanupMedia_notSetup].
  destruct (websocket (state sc)), (callId (state sc)); try case_bool_decide; tame.
Qed.

Lemma ws_onclose_notSetup (ws : nat) : tame notSetup (ws_onclose ws).
Proof.
  intros w. unfold ws_onclose.
  destruct (sockets w !! ws); [apply tame_at; tame | apply (tame_skip _ w)].
Qed.

Lemma pc_onicecandidate_notSetup (pc : nat) (candidate : option string) :
  tame notSetup (pc_onicecandidate pc candidate).
Proof.
  intros w. unfold pc_onicecandidate.
  destruct (connections w !! pc) as [[sc role]|]; [| apply (tame_skip _ w)].
  destruct candidate, (websocket (state sc)); try apply (tame_skip _ w).
  apply tame_at. tame.
Qed.

Lemma pc_onconnectionstatechange_notSetup (pc : nat) (cs : ConnectionState) :
  tame notSetup (pc_onconnectionstatechange pc cs).
Proof.
  intros w. unfold pc_onconnectionstatechange.
  destruct (connections w !! pc) as [[sc role]|]; [| apply (tame_skip _ w)].
  destruct cs, role; try apply (tame_skip _ w); apply tame_at; tame.
Qed.

Lemma pc_ontrack_notSetup (pc : nat) (stream : MediaStream) :
  tame notSetup (pc_ontrack pc stream).
Proof.
  intros w. unfold pc_ontrack.
  destruct (connections w !! pc); [apply tame_at; tame | apply (tame_skip _ w)].
Qed.

(** [initializeMedia], outcome by outcome. *)
Lemma initializeMedia_failure (sc : Scope) (w : World) :
  let w' := initializeMedia sc None w in
  trace w' = (trace w ++ [getUserMedia None; toast "Camera access failed"; onClose])%list ∧
  sockets w' = sockets w ∧
  connections w' = connections w ∧
  localStream (state (current w')) = localStream (state (current w)) ∧
  peerConnection (state (current w')) = peerConnection (state (current w)) ∧
  websocket (state (current w')) = websocket (state (current w)) ∧
  callId (state (current w')) = callId (state (current w)).
Proof. simpl. rewrite <- !app_assoc. done. Qed.

Lemma initializeMedia_success (sc : Scope) (stream : MediaStream) (w : World) :
  let w' := initializeMedia sc (Some stream) w in
  trace w' = (trace w ++ [getUserMedia (Some stream);
                          new_WebSocket (length (sockets w))])%list ∧
  sockets w' = (sockets w ++ [(sc, stream)])%list.
Proof. simpl. rewrite <- !app_assoc. done. Qed.

(** What a step does to sockets and trace: it is tame, or it is the
    opening of an existing socket and sends [create_video_call] on it, or
    it ends with a successful [getUserMedia] followed by a new socket. *)
Lemma step_shape (e : Event) (w : World) :
  (sockets (step e w) = sockets w ∧
   ∃ es, trace (step e w) = (trace w ++ es)%list ∧ Forall notSetup es)
  ∨ (∃ ws sc stream s,
       sockets w !! ws = Some (sc, stream) ∧
       sockets (step e w) = sockets w ∧
       trace (step e w) = (trace w ++ [send ws s])%list)
  ∨ (∃ es sc stream,
       Forall notSetup es ∧
       sockets (step e w) = (sockets w ++ [(sc, stream)])%list ∧
       trace (step e w)
       = (trace w ++ es ++ [getUserMedia (Some stream);
                             new_WebSocket (length (sockets w))])%list).
Proof.
  assert (Hinit : ∀ (f : Action) sc media, tame notSetup f →
    (sockets (initializeMedia sc media (f w)) = sockets w ∧
     ∃ es, trace (initializeMedia sc media (f w)) = (trace w ++ es)%list
           ∧ Forall notSetup es)
    ∨ (∃ es sc' stream,
         Forall notSetup es ∧
         sockets (initializeMedia sc media (f w)) = (sockets w ++ [(sc', stream)])%list ∧
         trace (initializeMedia sc media (f w))
         = (trace w ++ es ++ [getUserMedia (Some stream);
                               new_WebSocket (length (sockets w))])%list)).
  { intros f sc media Hf. destruct (Hf w) as (Hs & es & Ht & HQ).
    destruct media as [stream|].
    - right. exists es, sc, stream. split; [done |].
      destruct (initializeMedia_success sc stream (f w)) as [-> ->].
      by rewrite Hs, Ht, <- app_assoc.
    - left. destruct (initializeMedia_failure sc (f w)) as (-> & -> & _).
      split; [done |].
      exists (es ++ [getUserMedia None; toast "Camera access failed"; onClose])%list.
      split; [by rewrite Ht, <- app_assoc |].
      apply Forall_app. split; [done |]. by repeat constructor. }
  destruct e; simpl.
  - (* Render *)
    unfold rerender.
    destruct (bool_decide _ && bool_decide _); [left; apply (tame_skip _ w) |].
    set (sc := mkScope _ (state (current w))).
    set (f := whenSome (effectScope w) cleanupMedia >> commit (props sc) sc).
    assert (Hf : tame notSetup f).
    { unfold f. apply tame_andThen.
      - apply tame_whenSome, cleanupMedia_notSetup.
      - intros w0. split; [done |]. exists []. by rewrite app_nil_r. }
    destruct (open && bool_decide (type = outgoing)).
    + destruct (Hinit f sc media Hf) as [H | H]; [left; exact H | right; right; exact H].
    + left. apply (Hf w).
  - (* ClickAccept *)
    unfold handleAcceptCall, andThen.
    destruct (Hinit (when (has_onAcceptCall (props (current w))) (emit onAcceptCall))
                (current w) media) as [H | H]; [tame | left; exact H | right; right; exact H].
  - left. apply handleRejectCall_notSetup.
  - left. apply handleEndCall_notSetup.
  - (* SocketOpen *)
    unfold ws_onopen. destruct (sockets w !! ws) as [[sc stream]|] eqn:Hws.
    + right. left. exists ws, sc, stream. eexists. split; [done |]. simpl. done.
    + left. apply (tame_skip _ w).
  - left. apply ws_onmessage_notSetup.
  - left. apply ws_onclose_notSetup.
  - left. apply pc_onicecandidate_notSetup.
  - left. apply pc_onconnectionstatechange_notSetup.
  - left. apply pc_ontrack_notSetup.
Qed.

Lemma notSetup_no_create (es : list Effect) (i ws : nat) (s : Signal) :
  Forall notSetup es → es !! i = Some (send ws s) → is_create_video_call s = false.
Proof.
  intros HQ Hi. rewrite Forall_lookup in HQ. apply (HQ _ _ Hi).
Qed.

Lemma step_invariant (e : Event) (w : World) :
  socketsFollowMedia w ∧ createFollowsMedia (trace w) →
  socketsFollowMedia (step e w) ∧ createFollowsMedia (trace (step e w)).
Proof.
  intros [Hsock Hcreate].
  assert (Hkeep : ∀ es i ws s,
            (i < length (trace w))%nat →
            (trace w ++ es)%list !! i = Some (send ws s) →
            is_create_video_call s = true →
            ∃ j stream, (S j < i)%nat ∧
              (trace w ++ es)%list !! j = Some (getUserMedia (Some stream)) ∧
              (trace w ++ es)%list !! S j = Some (new_WebSocket ws)).
  { intros es i ws s Hlt Hi Hs. rewrite lookup_app_l in Hi by done.
    destruct (Hcreate i ws s Hi Hs) as (j & stream & Hj & H1 & H2).
    exists j, stream. split; [done |].
    split; by apply lookup_app_l_Some. }
  assert (Hsock' : ∀ es ws sc stream,
            sockets w !! ws = Some (sc, stream) →
            ∃ j, (trace w ++ es)%list !! j = Some (getUserMedia (Some stream)) ∧
                 (trace w ++ es)%list !! S j = Some (new_WebSocket ws)).
  { intros es ws sc stream Hws. destruct (Hsock ws sc stream Hws) as (j & H1 & H2).
    exists j. split; by apply lookup_app_l_Some. }
  destruct (step_shape e w) as [(Hs & es & Ht & HQ)
                               | [(ws & sc & stream & s & Hws & Hs & Ht)
                                 | (es & sc & stream & HQ & Hs & Ht)]].
  - split.
    + intros ws sc stream Hws. rewrite Hs in Hws. rewrite Ht. by eapply Hsock'.
    + intros i ws s Hi Hcr. rewrite Ht in Hi |- *.
      destruct (decide (i < length (trace w))%nat) as [Hlt | Hge]; [by eapply Hkeep |].
      rewrite lookup_app_r in Hi by lia.
      by rewrite (notSetup_no_create _ _ _ _ HQ Hi) in Hcr.
  - split.
    + intros ws' sc' stream' Hws'. rewrite Hs in Hws'. rewrite Ht. by eapply Hsock'.
    + intros i ws' s' Hi Hcr. rewrite Ht in Hi |- *.
      destruct (decide (i < length (trace w))%nat) as [Hlt | Hge]; [by eapply Hkeep |].
      rewrite lookup_app_r in Hi by lia.
      destruct (i - length (trace w))%nat as [| n] eqn:Hn; [| done].
      simpl in Hi. injection Hi as <- <-.
      destruct (Hsock ws sc stream Hws) as (j & H1 & H2).
      exists j, stream. split; [apply lookup_lt_Some in H2; lia |].
      split; by apply lookup_app_l_Some.
  - split.
    + intros ws' sc' stream' Hws'. rewrite Hs in Hws'. rewrite Ht.
      destruct (decide (ws' < length (sockets w))%nat) as [Hlt | Hge].
      * rewrite lookup_app_l in Hws' by done. by eapply Hsock'.
      * rewrite lookup_app_r in Hws' by lia.
        destruct (ws' - length (sockets w))%nat as [| n] eqn:Hn; [| done].
        simpl in Hws'. injection Hws' as <- <-.
        assert (ws' = length (sockets w)) as -> by lia.
        exists (length (trace w ++ es)). rewrite app_assoc. split.
        -- rewrite lookup_app_r by lia. by rewrite Nat.sub_diag.
        -- rewrite lookup_app_r by lia.
           by replace (S (length (trace w ++ es)) - length (trace w ++ es))%nat
             with 1%nat by lia.
    + intros i ws' s' Hi Hcr. rewrite Ht in Hi |- *.
      destruct (decide (i < length (trace w))%nat) as [Hlt | Hge]; [by eapply Hkeep |].
      rewrite lookup_app_r in Hi by lia.
      destruct (decide (i - length (trace w) < length es)%nat) as [Hlt | Hge'].
      * rewrite lookup_app_l in Hi by done.
        by rewrite (notSetup_no_create _ _ _ _ HQ Hi) in Hcr.
      * rewrite lookup_app_r in Hi by lia.
        destruct (i - length (trace w) - length es)%nat as [| [| n]]; done.
Qed.

Lemma run_invariant (events : list Event) (w : World) :
  socketsFollowMedia w ∧ createFollowsMedia (trace w) →
  socketsFollowMedia (run events w) ∧ createFollowsMedia (trace (run events w)).
Proof.
  revert w. induction events as [| e events IH]; intros w Hinv; [done |].
  apply IH. by apply step_invariant.
Qed.

Lemma sentSignals_app (t1 t2 : list Effect) :
  sentSignals (t1 ++ t2) = (sentSignals t1 ++ sentSignals t2)%list.
Proof.
  induction t1 as [| e t1 IH]; [done |].
  destruct e; simpl; by rewrite ?IH.
Qed.

(** C5: when [getUserMedia] rejects, [initializeMedia] reports the failure
    and closes the modal, and that is all: nothing is handed to [send],
    no socket and no peer connection is created, and stream, connection,
    socket and call id of the component stay as they were.  And in every
    run, each [create_video_call] envelope went out on a socket that was
    created directly after a [getUserMedia] that resolved with a stream,
    the stream the handlers of that socket hold. *)
Theorem media_failure_sends_nothing
    (p : Props) (events : list Event) (sc : Scope) :
  let w := run events (mounted p) in
  let w' := initializeMedia sc None w in
  trace w' = (trace w ++ [getUserMedia None; toast "Camera access failed"; onClose])%list ∧
  sentSignals (trace w') = sentSignals (trace w) ∧
  sockets w' = sockets w ∧
  connections w' = connections w ∧
  localStream (state (current w')) = localStream (state (current w)) ∧
  peerConnection (state (current w')) = peerConnection (state (current w)) ∧
  websocket (state (current w')) = websocket (state (current w)) ∧
  callId (state (current w')) = callId (state (current w)) ∧
  createFollowsMedia (trace w) ∧
  socketsFollowMedia w.
Proof.
  intros w w'.
  destruct (initializeMedia_failure sc w) as (Ht & Hs & Hc & H1 & H2 & H3 & H4).
  fold w' in Ht, Hs, Hc, H1, H2, H3, H4.
  assert (Hinv : socketsFollowMedia w ∧ createFollowsMedia (trace w)).
  { apply run_invariant. split.
    - intros ws sc0 stream Hws. done.
    - intros i ws s Hi. done. }
  repeat split; try done; try tauto.
  rewrite Ht, sentSignals_app. simpl. by rewrite app_nil_r.
Qed.

(** *** Sessions *)

Lemma forEach_emit {A} (l : list A) (e : A → Effect) (w : World) :
  forEach l (λ a, emit (e a)) w
  = mkWorld (current w) (sockets w) (connections w) (effectScope w)
      (trace w ++ map e l).
Proof.
  revert w. induction l as [| a l IH]; intros w.
  - simpl. rewrite app_nil_r. by destruct w.
  - change (forEach (a :: l) (λ a, emit (e a)) w)
      with (forEach l (λ a, emit (e a)) (emit (e a) w)).
    rewrite IH. simpl. by rewrite <- app_assoc.
Qed.

Lemma sentSignals_addTrack (pc : nat) (tracks : list nat) :
  sentSignals (map (λ track, pc_call pc (addTrack track)) tracks) = [].
Proof. by induction tracks. Qed.

(** [handleIncomingCall] in full: the connection is created and stored
    whatever the promises do, and each step after [setRemoteDescription]
    is taken only if the promise before it resolved. *)
Lemma handleIncomingCall_world (sc : Scope) (o : SessionDescription)
    (stream : MediaStream) (rtc : Promises) (w : World) :
  let pc := length (connections w) in
  let w' := handleIncomingCall sc o stream rtc w in
  peerConnection (state (current w')) = Some pc ∧
  connections w' = (connections w ++ [(sc, callee)])%list ∧
  trace w'
  = (trace w ++ new_RTCPeerConnection pc
       :: map (λ track, pc_call pc (addTrack track)) (getTracks stream)
       ++ pc_call pc (setRemoteDescription o)
       :: if setRemoteDescription_resolves rtc then
            pc_call pc createAnswer
            :: if createAnswer_resolves rtc then
                 pc_call pc (setLocalDescription (created_answer pc))
                 :: if setLocalDescription_resolves rtc then
                      match websocket (state sc) with
                      | Some ws =>
                          [send ws (answer_out (callId (state sc)) (created_answer pc)
                                      (otherUser (props sc)))]
                      | None => []
                      end
                    else []
               else []
          else [])%list.
Proof.
  unfold handleIncomingCall, newPeerConnection, andThen.
  rewrite forEach_emit. simpl.
  destruct (setRemoteDescription_resolves rtc), (createAnswer_resolves rtc),
    (setLocalDescription_resolves rtc), (websocket (state sc)); simpl;
    repeat split; rewrite <- ?app_assoc; simpl; rewrite <- ?app_assoc; done.
Qed.

(** C2, amended: nothing stands in the way of a second session.  An
    [offer] arriving on a socket whose handlers were created for an
    incoming call always sets up a new peer connection, applies the offer
    to it and stores it in place of whatever connection the component
    held, whether or not the browser then accepts the offer; the only
    envelope it may send is an answer, never a rejection, and the answer
    goes out only when the handler holds a socket and none of the three
    awaited promises rejected.  With any other call type the offer is
    ignored.  Likewise every socket that opens sends [create_video_call]
    and overwrites the call id. *)
Theorem offer_replaces_session
    (w : World) (ws : nat) (sc : Scope) (stream : MediaStream)
    (o : SessionDescription) (rtc : Promises) (newCallId : string) :
  sockets w !! ws = Some (sc, stream) →
  let pc := length (connections w) in
  let w1 := ws_onmessage ws (offer o rtc) w in
  let w2 := ws_onopen ws newCallId w in
  (if bool_decide (callType (props sc) = incoming)
   then
     peerConnection (state (current w1)) = Some pc ∧
     connections w1 = (connections w ++ [(sc, callee)])%list ∧
     pc_call pc (setRemoteDescription o) ∈ trace w1 ∧
     sentSignals (trace w1)
     = (sentSignals (trace w) ++
          if setRemoteDescription_resolves rtc && createAnswer_resolves rtc
             && setLocalDescription_resolves rtc
          then
            match websocket (state sc) with
            | Some k => [answer_out (callId (state sc)) (created_answer pc)
                           (otherUser (props sc))]
            | None => []
            end
          else [])%list
   else w1 = w) ∧
  callId (state (current w2)) = Some newCallId ∧
  sentSignals (trace w2)
  = (sentSignals (trace w) ++
       [create_video_call newCallId (otherUser (props sc)) (user (props sc))])%list.
Proof.
  intros Hws pc w1 w2. split; [| split].
  - unfold w1, ws_onmessage. rewrite Hws.
    case_bool_decide; simpl; [| done].
    destruct (handleIncomingCall_world sc o stream rtc w) as (Hpc & Hconn & Ht).
    fold pc in Hpc, Hconn, Ht.
    split; [done |]. split; [done |]. rewrite Ht. split.
    + apply elem_of_app. right. apply list_elem_of_further, elem_of_app.
      right. left.
    + rewrite sentSignals_app. simpl. rewrite sentSignals_app, sentSignals_addTrack.
      simpl.
      by destruct (setRemoteDescription_resolves rtc), (createAnswer_resolves rtc),
        (setLocalDescription_resolves rtc), (websocket (state sc)).
  - unfold w2, ws_onopen. by rewrite Hws.
  - unfold w2, ws_onopen. rewrite Hws. simpl. by rewrite sentSignals_app.
Qed.


(** *** The claims as stated, on concrete runs *)

(** C1, as stated, fails: a candidate that arrives before the offer is
    dropped (the callee has no peer connection yet), and it is not applied
    when the offer sets the remote description. *)
Lemma candidate_before_offer_is_lost :
  let messages := [ice_candidate "c1"; offer (received "o") allResolve] in
  let w := deliver 0 messages calleeReady in
  pc_call 0 (setRemoteDescription (received "o")) ∈ trace w ∧
  allAppliedCandidates (trace w) = [] ∧
  ¬ noCandidateLost messages (trace w).
Proof.
  assert (Hset : pc_call 0 (setRemoteDescription (received "o"))
                 ∈ trace (deliver 0 [ice_candidate "c1"; offer (received "o") allResolve]
                            calleeReady)).
  { vm_compute. do 7 apply list_elem_of_further. left. }
  assert (Hnone : allAppliedCandidates
                    (trace (deliver 0 [ice_candidate "c1"; offer (received "o") allResolve]
                              calleeReady)) = []).
  { vm_compute. reflexivity. }
  split; [exact Hset |]. split; [exact Hnone |].
  intros Hclaim.
  assert (Hin : "c1" ∈ allAppliedCandidates
                  (trace (deliver 0 [ice_candidate "c1"; offer (received "o") allResolve]
                            calleeReady))).
  { apply Hclaim; [by exists 0%nat, (received "o") | left]. }
  rewrite Hnone in Hin. by apply not_elem_of_nil in Hin.
Qed.

Lemma ice_candidates_applied_on_arrival_witness :
  let messages := [ice_candidate "c1"; other_type "ping"; ice_candidate "c2"] in
  appliedCandidates 0 (trace (deliver 1 messages calleeAcceptedTwice))
  = (appliedCandidates 0 (trace calleeAcceptedTwice) ++ ["c1"; "c2"])%list.
Proof.
  intros messages.
  pose proof (ice_candidates_applied_on_arrival calleeAcceptedTwice 1
                secondAcceptScope camera messages) as H.
  destruct H as [H _]; [vm_compute; reflexivity |]. exact H.
Defined.

(** C2, as stated, fails: with connection 0 in place a second offer is
    not rejected, it replaces the stored connection by connection 1; and
    a second accepted call sends a second [create_video_call] and
    replaces the call id. *)
Lemma second_offer_overwrites_session :
  let w1 := step (SocketMessage 0 (offer (received "o1") allResolve)) calleeReady in
  let w2 := step (SocketMessage 0 (offer (received "o2") allResolve)) w1 in
  let w3 := run [ClickAccept (Some camera); SocketOpen 1 "call_b"] w1 in
  peerConnection (state (current w1)) = Some 0%nat ∧
  peerConnection (state (current w2)) = Some 1%nat ∧
  sentSignals (trace w2) = [create_video_call "call_a" (Some 17) (Some 3)] ∧
  ¬ secondOfferRejected w1 w2 ∧
  callId (state (current w1)) = Some "call_a" ∧
  callId (state (current w3)) = Some "call_b" ∧
  sentSignals (trace w3) = [create_video_call "call_a" (Some 17) (Some 3);
                            create_video_call "call_b" (Some 17) (Some 3)].
Proof.
  repeat split; try (vm_compute; reflexivity).
  intros Hclaim. destruct Hclaim as [Hpc _]; [by eexists |].
  vm_compute in Hpc. discriminate.
Qed.

Lemma offer_replaces_session_witness :
  let w1 := ws_onmessage 0 (offer (received "o1") allResolve) calleeReady in
  let w2 := ws_onmessage 0 (offer (received "o2") allResolve) w1 in
  peerConnection (state (current w2)) = Some (length (connections w1)).
Proof.
  intros w1 w2.
  pose proof (offer_replaces_session w1 0 firstAcceptScope camera
                (received "o2") allResolve "call_b") as H.
  destruct H as [H _]; [vm_compute; reflexivity |].
  rewrite bool_decide_eq_true_2 in H by reflexivity. apply H.
Defined.

End VideoCallSpec.

(* ===================================================================== *)
(** ** More properties of the [useWebSocket] hook *)
(* ===================================================================== *)

Module UseWebSocketMore.
Import JS UseWebSocket UseWebSocketSpec.

(** *** Without a user *)

Lemma step_no_user (e : Event) (h : Hook) :
  user h = None ∧ sockets h = [] ∧ wsRef h = None →
  user (step e h) = None ∧ sockets (step e h) = [] ∧ wsRef (step e h) = None.
Proof.
  intros (Hu & Hs & Hw). destruct e; simpl.
  - unfold connect. by rewrite Hu.
  - unfold opened, ws_onopen, set_readyState. rewrite Hs. simpl. by rewrite Hu.
  - unfold closed, ws_onclose, set_readyState. rewrite Hs. simpl.
    by case_bool_decide.
  - unfold timer_fires, reconnect_callback, connect. case_bool_decide; simpl; [| done].
    by rewrite Hu.
  - destruct message; simpl; try done; unfold forward; by case_bool_decide.
  - assert (Hclosed : socketOpen h = false) by (unfold socketOpen; by rewrite Hw).
    destruct op; simpl;
      unfold sendTypingIndicator, sendReadReceipt, sendStatusUpdate,
        joinConversation, leaveConversation; by rewrite Hclosed.
  - assert (Hclosed : socketOpen h = false) by (unfold socketOpen; by rewrite Hw).
    unfold sendMessage. by rewrite Hclosed.
  - done.
  - done.
Qed.

(** Without an authenticated user the hook never creates a socket,
    whatever happens: nothing can be transmitted and [sendMessage] always
    throws. *)
Theorem no_user_no_socket (events : list Event) :
  let h := run events (initial None) in
  sockets h = [] ∧ wsRef h = None ∧ allTransmitted h = [] ∧
  ∀ now receiverId content imageUrl,
    (sendMessage now receiverId content imageUrl h).1
    = Throw "WebSocket not connected".
Proof.
  assert (Hinv : ∀ h0, user h0 = None ∧ sockets h0 = [] ∧ wsRef h0 = None →
            user (run events h0) = None ∧ sockets (run events h0) = []
            ∧ wsRef (run events h0) = None).
  { induction events as [| e events IH]; intros h0 H0; [done |].
    apply IH. by apply step_no_user. }
  destruct (Hinv (initial None)) as (_ & Hs & Hw); [done |].
  simpl. split; [done |]. split; [done |]. split.
  - unfold allTransmitted. by rewrite Hs.
  - intros. unfold sendMessage, socketOpen. by rewrite Hw.
Qed.

(** *** The join envelope comes first *)

Lemma joinsFirst_transmit (uid : Z) (ws : WebSocket) (data : Outbound) :
  joinsFirst uid ws → readyState ws = OPEN →
  joinsFirst uid (mkWebSocket OPEN (transmitted ws ++ [data])).
Proof.
  intros (_ & Hopen & Hhead) Hs. split; [done |]. split.
  - simpl. intros _ Hnil. by apply app_eq_nil in Hnil as [_ ?].
  - right. simpl. destruct Hhead as [Hnil | [rest ->]]; [by destruct (Hopen Hs) |].
    by eexists.
Qed.

Lemma ws_send_joinsFirst (uid : Z) (i : nat) (data : Outbound) (h : Hook) :
  Forall (joinsFirst uid) (sockets h) →
  Forall (joinsFirst uid) (sockets (ws_send i data h).2)
  ∧ user (ws_send i data h).2 = user h.
Proof.
  intros Hall. unfold ws_send.
  destruct (sockets h !! i) as [ws|] eqn:Hws; [| by split].
  destruct (readyState ws) eqn:Hs; try (by split). simpl. split; [| done].
  apply Forall_insert; [done |].
  apply joinsFirst_transmit; [| done].
  rewrite Forall_lookup in Hall. by eapply Hall.
Qed.

Lemma guarded_send_joinsFirst (uid : Z) (data : Outbound) (h : Hook) :
  Forall (joinsFirst uid) (sockets h) →
  Forall (joinsFirst uid)
    (sockets (if negb (socketOpen h) then (Return (), h) else wsRef_send data h).2)
  ∧ user (if negb (socketOpen h) then (Return (), h) else wsRef_send data h).2
    = user h.
Proof.
  intros Hall. destruct (socketOpen h); simpl; [| by split].
  unfold wsRef_send. destruct (wsRef h); [| by split]. by apply ws_send_joinsFirst.
Qed.

Lemma connect_joinsFirst (uid : Z) (h : Hook) :
  Forall (joinsFirst uid) (sockets h) →
  Forall (joinsFirst uid) (sockets (connect h)) ∧ user (connect h) = user h.
Proof.
  intros Hall. unfold connect. destruct (user h) eqn:Hu; [| by split]. simpl.
  split; [| done]. apply Forall_app. split; [done |].
  apply Forall_singleton. split; [done |]. split; [done | by left].
Qed.

Lemma step_joinsFirst (uid : Z) (e : Event) (h : Hook) :
  user h = Some uid ∧ Forall (joinsFirst uid) (sockets h) →
  user (step e h) = Some uid ∧ Forall (joinsFirst uid) (sockets (step e h)).
Proof.
  intros [Hu Hall].
  destruct e as [| ws | ws | | message | op | now r c img | t | t]; simpl.
  - destruct (connect_joinsFirst uid h Hall) as [? ->]. done.
  - (* Opened *)
    unfold opened, ws_onopen, set_readyState.
    destruct (sockets h !! ws) as [s|] eqn:Hws; simpl; rewrite Hu.
    + unfold ws_send. simpl.
      rewrite list_lookup_insert_eq by (by eapply lookup_lt_Some). simpl.
      split; [done |]. rewrite list_insert_insert_eq.
      apply Forall_insert; [done |].
      rewrite Forall_lookup in Hall. destruct (Hall _ _ Hws) as (_ & _ & Hhead).
      split; [done |]. split.
      * simpl. intros _ Hnil. by apply app_eq_nil in Hnil as [_ ?].
      * right. simpl. destruct Hhead as [-> | [rest ->]]; by eexists.
    + unfold ws_send. simpl. by rewrite Hws.
  - (* Closed *)
    unfold closed, ws_onclose, set_readyState.
    destruct (sockets h !! ws) as [s|] eqn:Hws; simpl; case_bool_decide; simpl;
      (split; [done |]); try done;
      (apply Forall_insert; [done |]);
      rewrite Forall_lookup in Hall; destruct (Hall _ _ Hws) as (_ & _ & Hhead);
      (split; [done |]); (split; [done |]); exact Hhead.
  - unfold timer_fires, reconnect_callback. case_bool_decide; [| done].
    destruct (connect_joinsFirst uid
                (with_reconnectAttempts (S (reconnectAttempts (with_fired (S (fired h)) h)))
                   (with_fired (S (fired h)) h)) Hall) as [? ->].
    done.
  - destruct message; simpl; try done; unfold forward; by case_bool_decide.
  - destruct op; simpl;
      unfold sendTypingIndicator, sendReadReceipt, sendStatusUpdate,
        joinConversation, leaveConversation;
      match goal with
      | |- context [wsRef_send ?d h] =>
          destruct (guarded_send_joinsFirst uid d h Hall) as [? ->]
      end; done.
  - unfold sendMessage.
    destruct (guarded_send_joinsFirst uid (message_out r c img now) h Hall)
      as [Hall' Hu'].
    destruct (socketOpen h); simpl in *; [| done].
    destruct (wsRef_send (message_out r c img now) h) as [[?|?] h']; simpl in *;
      (split; [congruence | done]).
  - done.
  - done.
Qed.

(** The [join] envelope is the first thing transmitted on every socket:
    in every reachable state of a hook with a user, each socket that has
    transmitted anything started with the join of that user, an open socket
    has already sent it, and a socket still connecting has sent nothing. *)
Theorem join_is_sent_first (uid : Z) (events : list Event) (i : nat) (ws : WebSocket) :
  sockets (run events (initial (Some uid))) !! i = Some ws →
  joinsFirst uid ws.
Proof.
  assert (Hinv : ∀ h0, user h0 = Some uid ∧ Forall (joinsFirst uid) (sockets h0) →
            Forall (joinsFirst uid) (sockets (run events h0))).
  { induction events as [| e events IH]; intros h0 H0; [by destruct H0 |].
    apply IH. by apply step_joinsFirst. }
  intros Hws.
  assert (Hall : Forall (joinsFirst uid) (sockets (run events (initial (Some uid))))).
  { apply Hinv. split; [done |]. simpl. by apply Forall_nil. }
  rewrite Forall_lookup in Hall. by eapply Hall.
Qed.

Lemma join_is_sent_first_witness :
  joinsFirst 7 (mkWebSocket OPEN [join_out 7; typing_out "3_7" true]).
Proof.
  apply (join_is_sent_first 7
           [Mount; Opened 0; Calls (SendTypingIndicator "3_7" true)] 0).
  reflexivity.
Defined.

(** *** Presence and status *)

Lemma elem_of_set_add (s : NumSet) (x y : Z) : y ∈ set_add s x ↔ y = x ∨ y ∈ s.
Proof.
  unfold set_add, set_has. case_bool_decide as Hin.
  - split; [tauto |]. intros [-> | ?]; done.
  - rewrite elem_of_app, list_elem_of_singleton. tauto.
Qed.

Lemma NoDup_set_add (s : NumSet) (x : Z) : NoDup s → NoDup (set_add s x).
Proof.
  intros Hs. unfold set_add, set_has. case_bool_decide as Hin; [done |].
  apply NoDup_app. split; [done |]. split.
  - intros y Hy Hy'%list_elem_of_singleton. by subst.
  - apply NoDup_singleton.
Qed.

Lemma elem_of_foldl_set_add (l : list Z) (acc : NumSet) (y : Z) :
  y ∈ foldl set_add acc l ↔ y ∈ acc ∨ y ∈ l.
Proof.
  revert acc. induction l as [| x l IH]; intros acc; simpl.
  - rewrite elem_of_nil. tauto.
  - rewrite IH, elem_of_set_add, elem_of_cons. tauto.
Qed.

Lemma NoDup_foldl_set_add (l : list Z) (acc : NumSet) :
  NoDup acc → NoDup (foldl set_add acc l).
Proof.
  revert acc. induction l as [| x l IH]; intros acc Hacc; [done |].
  simpl. by apply IH, NoDup_set_add.
Qed.

(** A [user_list] event replaces the roster: afterwards exactly the listed
    users are online, whoever was online before, each of them once; a
    [user_list] without ids leaves nobody online.  Statuses and typing
    state are not touched. *)
Theorem user_list_replaces_roster
    (u : option Z) (events : list Event) (userIds : option (list Z)) (x : Z) :
  let before := run events (initial u) in
  let h := step (Received (user_list userIds)) before in
  isUserOnline x h = bool_decide (x ∈ default [] userIds) ∧
  NoDup (onlineUsers h) ∧
  userStatuses h = userStatuses before ∧
  typingUsers h = typingUsers before ∧
  setHeap h = setHeap before.
Proof.
  intros before h. subst h. simpl. split; [| split; [| done]].
  - unfold isUserOnline, set_has. simpl. apply bool_decide_ext.
    unfold set_from. rewrite elem_of_foldl_set_add, elem_of_nil. tauto.
  - unfold set_from. apply NoDup_foldl_set_add, NoDup_nil_2.
Qed.

(** An [online] event adds one user and nothing else: afterwards a user is
    online exactly if it is the one of the event or was online before, an
    event for a user already online changes nothing at all, and no status
    is touched. *)
Theorem online_adds_one_user
    (u : option Z) (events : list Event) (userId x : Z) :
  let before := run events (initial u) in
  let h := step (Received (online userId)) before in
  isUserOnline x h = bool_decide (x = userId) || isUserOnline x before ∧
  (isUserOnline userId before = true → h = before) ∧
  userStatuses h = userStatuses before.
Proof.
  intros before h. subst h. simpl. split; [| split; [| done]].
  - unfold isUserOnline, set_has. simpl.
    destruct (decide (x = userId)) as [-> | Hne].
    + rewrite (bool_decide_eq_true_2 (userId = userId)) by done. simpl.
      apply bool_decide_eq_true. apply elem_of_set_add. by left.
    + rewrite (bool_decide_eq_false_2 (x = userId)) by done. simpl.
      apply bool_decide_ext. rewrite elem_of_set_add. tauto.
  - intros Hin. unfold setOnlineUsers, set_add.
    unfold isUserOnline in Hin. rewrite Hin. by destruct before.
Qed.

Lemma online_adds_one_user_witness :
  let before := run [Received (user_list (Some [3; 9]))] (initial (Some 7)) in
  step (Received (online 9)) before = before.
Proof.
  intros before.
  destruct (online_adds_one_user (Some 7) [Received (user_list (Some [3; 9]))] 9 9)
    as (_ & H & _).
  apply H. reflexivity.
Defined.

(** A [user_status] event sets the status of its user and of nobody else
    (an empty status reads as ["offline"]), and leaves the online set as
    it is: after [offline] followed by an explicit status, the user is
    still not online but shows the explicit status. *)
Theorem user_status_is_independent
    (u : option Z) (events : list Event) (userId x : Z) (status : string) :
  let before := run events (initial u) in
  let h := step (Received (user_status userId status)) before in
  let h' := step (Received (user_status userId status))
              (step (Received (offline userId)) before) in
  getUserStatus userId h = (if bool_decide (status = "") then "offline" else status) ∧
  (x ≠ userId → getUserStatus x h = getUserStatus x before) ∧
  onlineUsers h = onlineUsers before ∧
  getUserStatus x h ≠ "" ∧
  isUserOnline userId h' = false ∧
  getUserStatus userId h' = getUserStatus userId h.
Proof.
  intros before h h'. subst h h'. simpl. repeat split.
  - unfold getUserStatus. simpl. by rewrite lookup_insert_eq.
  - intros Hne. unfold getUserStatus. simpl. by rewrite lookup_insert_ne.
  - unfold getUserStatus.
    destruct (userStatuses _ !! x) as [s|]; [| done]. by case_bool_decide.
  - unfold isUserOnline. simpl. unfold set_has, set_delete.
    apply bool_decide_eq_false. rewrite list_elem_of_filter. intros [Hne _].
    by apply Hne.
  - unfold getUserStatus. simpl. by rewrite !lookup_insert_eq.
Qed.

Lemma user_status_is_independent_witness :
  getUserStatus 3 (run [Received (user_status 3 "away"); Received (user_status 9 "busy")]
                     (initial (Some 7))) = "away".
Proof.
  destruct (user_status_is_independent (Some 7) [Received (user_status 3 "away")]
              9 3 "busy") as (_ & H & _).
  etrans; [apply H; discriminate | reflexivity].
Defined.

(** *** Dispatching to handlers *)

Lemma forwarded_cases (type data : string) (m : WebSocketMessage) :
  forwarded type data = Some m →
  type ∈ forwardedTypes ∧
  ∀ h, handleMessage m h = forward type data h.
Proof.
  unfold forwarded, forwardedTypes. intros H.
  repeat case_bool_decide; simplify_eq;
    (split; [apply list_elem_of_In; simpl; tauto | done]).
Qed.

Lemma step_delivered (e : Event) (h : Hook) :
  Forall (λ d, d.1 ∈ forwardedTypes) (delivered h) →
  Forall (λ d, d.1 ∈ forwardedTypes) (delivered (step e h)).
Proof.
  intros Hall.
  assert (Hfw : ∀ t d, t ∈ forwardedTypes →
            Forall (λ d, d.1 ∈ forwardedTypes) (delivered (forward t d h))).
  { intros t d Ht. unfold forward. case_bool_decide; [| done]. simpl.
    apply Forall_app. split; [done |]. by apply Forall_singleton. }
  destruct e as [| ws | ws | | message | op | now r c img | t | t]; simpl.
  - unfold connect. by destruct (user h).
  - unfold opened, ws_onopen, set_readyState, ws_send.
    destruct (sockets h !! ws) as [s|] eqn:Hws; simpl.
    + destruct (user h); simpl; [| done].
      rewrite list_lookup_insert_eq by (by eapply lookup_lt_Some). done.
    + destruct (user h); simpl; [| done]. by rewrite Hws.
  - unfold closed, ws_onclose, set_readyState.
    destruct (sockets h !! ws); simpl; by case_bool_decide.
  - unfold timer_fires, reconnect_callback, connect.
    case_bool_decide; simpl; [| done]. by destruct (user h).
  - destruct message; simpl; try done; apply Hfw; unfold forwardedTypes;
      apply list_elem_of_In; simpl; tauto.
  - destruct op; simpl;
      unfold sendTypingIndicator, sendReadReceipt, sendStatusUpdate,
        joinConversation, leaveConversation, wsRef_send, ws_send;
      destruct (socketOpen h); simpl; try done;
      destruct (wsRef h) as [i|]; simpl; try done;
      destruct (sockets h !! i) as [s|]; simpl; try done;
      by destruct (readyState s).
  - unfold sendMessage, wsRef_send, ws_send.
    destruct (socketOpen h); simpl; try done.
    destruct (wsRef h) as [i|]; simpl; try done.
    destruct (sockets h !! i) as [s|]; simpl; try done.
    by destruct (readyState s).
  - done.
  - done.
Qed.

(** Dispatch has one slot per type.  A forwarded message
    ([message_read], [new_message], [message_sent], [new_notification])
    reaches the handler registered for its type, once, and is dropped when
    that type was unregistered; registering or unregistering another type
    does not matter.  Nothing else is ever handed to a handler: presence
    and typing messages are consumed by the hook even if a handler was
    registered under their type. *)
Theorem dispatch_by_type
    (u : option Z) (events : list Event) (type type' data : string)
    (m : WebSocketMessage) :
  forwarded type data = Some m →
  let h := run events (initial u) in
  delivered (step (Received m) (step (CallsOnMessage type) h))
  = (delivered h ++ [(type, data)])%list ∧
  delivered (step (Received m) (step (CallsOffMessage type) h)) = delivered h ∧
  (type' ≠ type →
     delivered (step (Received m) (step (CallsOnMessage type') h))
     = delivered (step (Received m) h) ∧
     delivered (step (Received m) (step (CallsOffMessage type') h))
     = delivered (step (Received m) h)) ∧
  Forall (λ d, d.1 ∈ forwardedTypes) (delivered h).
Proof.
  intros Hm h. destruct (forwarded_cases type data m Hm) as [_ Hfw].
  simpl. rewrite !Hfw. unfold forward, onMessage, offMessage. simpl.
  split; [| split; [| split]].
  - rewrite bool_decide_eq_true_2; [done |].
    apply elem_of_union. left. by apply elem_of_singleton.
  - rewrite bool_decide_eq_false_2; [done |].
    rewrite elem_of_difference, elem_of_singleton. tauto.
  - intros Hne. split.
    + rewrite (bool_decide_ext (type ∈ {[type']} ∪ messageHandlers h)
                 (type ∈ messageHandlers h)).
      * by case_bool_decide.
      * rewrite elem_of_union, elem_of_singleton. split; [| tauto].
        intros [-> | ?]; done.
    + rewrite (bool_decide_ext (type ∈ messageHandlers h ∖ {[type']})
                 (type ∈ messageHandlers h)).
      * by case_bool_decide.
      * rewrite elem_of_difference, elem_of_singleton. split; [tauto |].
        intros ?. split; [done |]. intros ->. done.
  - assert (Hinv : ∀ h0, Forall (λ d, d.1 ∈ forwardedTypes) (delivered h0) →
              Forall (λ d, d.1 ∈ forwardedTypes) (delivered (run events h0))).
    { induction events as [| e events IH]; intros h0 H0; [done |].
      apply IH. by apply step_delivered. }
    apply Hinv. simpl. by apply Forall_nil.
Qed.

Lemma dispatch_by_type_witness :
  delivered (run [CallsOnMessage "new_message"; Received (new_message "hello")]
               (initial (Some 7)))
  = [("new_message", "hello")].
Proof.
  destruct (dispatch_by_type (Some 7) [] "new_message" "typing" "hello"
              (new_message "hello")) as (H & _); [reflexivity |].
  exact H.
Defined.

(** *** What changes the tracked state *)

(** Only inbound messages change presence, status and typing state: a
    connect, an open or close of a socket, a timer, any outbound operation
    and any handler registration leave them exactly as they are. *)
Theorem only_messages_change_tracked_state (e : Event) (h : Hook) :
  (∀ m, e ≠ Received m) →
  onlineUsers (step e h) = onlineUsers h ∧
  userStatuses (step e h) = userStatuses h ∧
  typingUsers (step e h) = typingUsers h ∧
  setHeap (step e h) = setHeap h.
Proof.
  intros Hne.
  destruct e as [| ws | ws | | message | op | now r c img | t | t]; simpl.
  - unfold connect. by destruct (user h).
  - unfold opened, ws_onopen, set_readyState, ws_send.
    destruct (sockets h !! ws) as [s|] eqn:Hws; simpl.
    + destruct (user h); simpl; [| done].
      rewrite list_lookup_insert_eq by (by eapply lookup_lt_Some). done.
    + destruct (user h); simpl; [| done]. by rewrite Hws.
  - unfold closed, ws_onclose, set_readyState.
    destruct (sockets h !! ws); simpl; by case_bool_decide.
  - unfold timer_fires, reconnect_callback, connect.
    case_bool_decide; simpl; [| done]. by destruct (user h).
  - by destruct (Hne message).
  - destruct op; simpl;
      unfold sendTypingIndicator, sendReadReceipt, sendStatusUpdate,
        joinConversation, leaveConversation, wsRef_send, ws_send;
      destruct (socketOpen h); simpl; try done;
      destruct (wsRef h) as [i|]; simpl; try done;
      destruct (sockets h !! i) as [s|]; simpl; try done;
      by destruct (readyState s).
  - unfold sendMessage, wsRef_send, ws_send.
    destruct (socketOpen h); simpl; try done.
    destruct (wsRef h) as [i|]; simpl; try done.
    destruct (sockets h !! i) as [s|]; simpl; try done.
    by destruct (readyState s).
  - done.
  - done.
Qed.

Lemma only_messages_change_tracked_state_witness :
  let h := run [Mount; Opened 0; Received (online 9)] (initial (Some 7)) in
  onlineUsers (step (Calls (SendStatusUpdate "away")) h) = onlineUsers h.
Proof.
  intros h.
  apply (only_messages_change_tracked_state (Calls (SendStatusUpdate "away")) h).
  discriminate.
Defined.

(** *** Sending in sequence *)

Lemma transmit_current (i : nat) (data : Outbound) (h : Hook) :
  Connected h → wsRef h = Some i →
  Connected (transmit i data h) ∧
  wsRef (transmit i data h) = Some i ∧
  transmittedOnCurrent (transmit i data h)
  = (transmittedOnCurrent h ++ [data])%list ∧
  onlineUsers (transmit i data h) = onlineUsers h ∧
  userStatuses (transmit i data h) = userStatuses h ∧
  typingUsers (transmit i data h) = typingUsers h.
Proof.
  intros (j & ws & Hj & Hws & Hopen) Hi. assert (j = i) as -> by congruence.
  unfold transmit, transmittedOnCurrent. rewrite Hws. simpl. rewrite Hi.
  assert (Hlt : (i < length (sockets h))%nat) by (by eapply lookup_lt_Some).
  rewrite list_lookup_insert_eq by done. rewrite Hws.
  repeat split.
  exists i, (mkWebSocket (readyState ws) (transmitted ws ++ [data])).
  simpl. rewrite list_lookup_insert_eq by done. done.
Qed.

(** While the socket stays open, sends do not interfere with each other:
    a sequence of [sendMessage] calls in the Connected state all succeed,
    the messages go out on the socket of [wsRef] in call order after what
    was sent before, and the hook is still Connected afterwards. *)
Theorem sends_go_out_in_order (h : Hook) (calls : list SendArgs) :
  Connected h →
  let h' := run (map callSendMessage calls) h in
  Connected h' ∧
  wsRef h' = wsRef h ∧
  transmittedOnCurrent h'
  = (transmittedOnCurrent h ++ map messageOf calls)%list ∧
  onlineUsers h' = onlineUsers h ∧
  userStatuses h' = userStatuses h ∧
  typingUsers h' = typingUsers h.
Proof.
  revert h. induction calls as [| a calls IH]; intros h Hc; cbv zeta.
  - simpl. rewrite app_nil_r. done.
  - assert (Hopen : socketOpen h = true) by (by apply socketOpen_Connected).
    destruct (wsRef_send_open (messageOf a) h Hopen) as (i & Hi & Hsend).
    assert (Hstep : step (callSendMessage a) h = transmit i (messageOf a) h).
    { simpl. unfold sendMessage. rewrite Hopen. simpl.
      unfold messageOf in Hsend. by rewrite Hsend. }
    destruct (transmit_current i (messageOf a) h Hc Hi)
      as (Hc' & Hi' & Ht & Ho & Hs & Hty).
    change (run (map callSendMessage (a :: calls)) h)
      with (run (map callSendMessage calls) (step (callSendMessage a) h)).
    rewrite Hstep. change (map messageOf (a :: calls))
      with (messageOf a :: map messageOf calls).
    destruct (IH _ Hc') as (IHc & IHi & IHt & IHo & IHs & IHty).
    split; [done |]. split; [congruence |].
    split; [by rewrite IHt, Ht, <- app_assoc |].
    split; [congruence |]. split; congruence.
Qed.

Lemma sends_go_out_in_order_witness :
  transmittedOnCurrent
    (run (map callSendMessage [mkSendArgs "t1" 42 "hi" None;
                               mkSendArgs "t2" 42 "again" None])
       connected_hook)
  = [join_out 7; message_out 42 "hi" None "t1"; message_out 42 "again" None "t2"].
Proof.
  destruct (sends_go_out_in_order connected_hook
              [mkSendArgs "t1" 42 "hi" None; mkSendArgs "t2" 42 "again" None])
    as (_ & _ & H & _).
  - exists 0%nat, (mkWebSocket OPEN [join_out 7]). done.
  - exact H.
Defined.

(** *** Giving up *)

Lemma failed_attempt_quiescent (uid : Z) (i : nat) (h : Hook) :
  user h = Some uid → noTimerPending h →
  user (failed_attempt i h) = Some uid ∧
  noTimerPending (failed_attempt i h) ∧
  if bool_decide (reconnectAttempts h < maxReconnectAttempts)%nat
  then reconnectAttempts (failed_attempt i h) = S (reconnectAttempts h) ∧
       length (sockets (failed_attempt i h)) = S (length (sockets h)) ∧
       wsRef (failed_attempt i h) = Some (length (sockets h))
  else reconnectAttempts (failed_attempt i h) = reconnectAttempts h ∧
       length (sockets (failed_attempt i h)) = length (sockets h) ∧
       wsRef (failed_attempt i h) = wsRef h.
Proof.
  unfold noTimerPending. intros Hu Hp.
  unfold failed_attempt, closed, ws_onclose, set_readyState.
  destruct (sockets h !! i) as [s|] eqn:Hs; simpl;
    (case_bool_decide as Hlim; simpl;
     [ unfold timer_fires; simpl; rewrite length_app; simpl;
       rewrite bool_decide_eq_true_2 by lia;
       unfold reconnect_callback, connect; simpl; rewrite Hu; simpl;
       rewrite ?length_app, ?length_insert; simpl;
       repeat split; try done; lia
     | unfold timer_fires; simpl;
       rewrite bool_decide_eq_false_2 by lia; simpl;
       rewrite ?length_insert; done ]).
Qed.

(** The hook gives up for good.  Starting with a user, the attempt counter
    at zero and no timeout waiting, [n] failures in a row open
    [min n 5] further sockets and no more; afterwards no timeout is
    waiting, so once five attempts have failed nothing will ever try to
    connect again by itself. *)
Theorem gives_up_for_good (uid : Z) (h : Hook) (closing : list nat) :
  user h = Some uid → noTimerPending h → reconnectAttempts h = 0%nat →
  let h' := failures closing h in
  reconnectAttempts h' = (length closing `min` 5)%nat ∧
  length (sockets h') = (length (sockets h) + length closing `min` 5)%nat ∧
  noTimerPending h' ∧
  timer_fires h' = h'.
Proof.
  intros Hu Hp Ha h'.
  assert (Hgen : ∀ closing h, user h = Some uid → noTimerPending h →
            (reconnectAttempts h ≤ 5)%nat →
            reconnectAttempts (failures closing h)
            = ((reconnectAttempts h + length closing) `min` 5)%nat ∧
            (length (sockets (failures closing h)) + reconnectAttempts h
             = length (sockets h) + (reconnectAttempts h + length closing) `min` 5)%nat ∧
            noTimerPending (failures closing h)).
  { clear. intros closing. induction closing as [| i closing IH]; intros h Hu Hp Hle.
    - simpl. split; [lia |]. split; [lia | done].
    - change (failures (i :: closing) h) with (failures closing (failed_attempt i h)).
      destruct (failed_attempt_quiescent uid i h Hu Hp) as (Hu' & Hp' & Hstep).
      unfold maxReconnectAttempts in Hstep. simpl length.
      case_bool_decide as Hlim.
      + destruct Hstep as (Ha' & Hs' & _).
        destruct (IH _ Hu' Hp') as (IHa & IHs & IHp); [lia |].
        rewrite Ha' in IHa, IHs. rewrite Hs' in IHs.
        split; [rewrite IHa; lia |]. split; [lia | done].
      + destruct Hstep as (Ha' & Hs' & _).
        destruct (IH _ Hu' Hp') as (IHa & IHs & IHp); [lia |].
        rewrite Ha' in IHa, IHs. rewrite Hs' in IHs.
        split; [rewrite IHa; lia |]. split; [lia | done]. }
  destruct (Hgen closing h Hu Hp) as (H1 & H2 & H3); [lia |].
  fold h' in H1, H2, H3. rewrite Ha in H1, H2. simpl in H1, H2.
  split; [done |]. split; [lia |]. split; [done |].
  unfold timer_fires. unfold noTimerPending in H3.
  rewrite bool_decide_eq_false_2 by lia. done.
Qed.

Lemma gives_up_for_good_witness :
  length (sockets (failures [0; 1; 2; 3; 4; 5; 6]%nat connected_hook)) = 6%nat.
Proof.
  destruct (gives_up_for_good 7 connected_hook [0; 1; 2; 3; 4; 5; 6]%nat)
    as (_ & H & _); [reflexivity | reflexivity | reflexivity |].
  exact H.
Defined.

End UseWebSocketMore.

(* ===================================================================== *)
(** ** More properties of the call signaling *)
(* ===================================================================== *)

Module VideoCallMore.
Import VideoCall VideoCallSpec.

(** *** The steps of a negotiation *)

(** [createPeerConnection] in full: the connection is created and stored
    whatever the promises do, and each step after [createOffer] is taken
    only if the promise before it resolved. *)
Lemma createPeerConnection_world (sc : Scope) (stream : MediaStream)
    (rtc : Promises) (w : World) :
  let pc := length (connections w) in
  let w' := createPeerConnection sc stream rtc w in
  peerConnection (state (current w')) = Some pc ∧
  connections w' = (connections w ++ [(sc, caller)])%list ∧
  sockets w' = sockets w ∧
  trace w'
  = (trace w ++ new_RTCPeerConnection pc
       :: map (λ track, pc_call pc (addTrack track)) (getTracks stream)
       ++ pc_call pc createOffer
       :: if createOffer_resolves rtc then
            pc_call pc (setLocalDescription (created_offer pc))
            :: if setLocalDescription_resolves rtc then
                 match websocket (state sc) with
                 | Some ws =>
                     [send ws (offer_out (callId (state sc)) (created_offer pc)
                                 (otherUser (props sc)))]
                 | None => []
                 end
               else []
          else [])%list.
Proof.
  unfold createPeerConnection, newPeerConnection, andThen.
  rewrite forEach_emit. simpl.
  destruct (createOffer_resolves rtc), (setLocalDescription_resolves rtc),
    (websocket (state sc)); simpl;
    repeat split; rewrite <- ?app_assoc; simpl; rewrite <- ?app_assoc; done.
Qed.

(** The negotiation steps are taken in a fixed order, and a step is taken
    only if the promise of the step before it resolved.  The caller, on
    [call_accepted], creates a connection, adds every local track and asks
    for an offer; if that resolves it sets the offer as local description,
    and if that resolves too it sends the offer, provided its handler
    holds a socket.  The callee, on an offer, adds every local track and
    applies the offer as remote description; only if that resolves it asks
    for the answer, then sets it as local description, then sends it,
    each under the same condition.  A rejected promise ends the
    negotiation there: nothing further is called and nothing is sent.
    Either way the new connection has become the stored one. *)
Theorem negotiation_steps
    (w : World) (ws : nat) (sc : Scope) (stream : MediaStream)
    (o : SessionDescription) (rtc : Promises) :
  sockets w !! ws = Some (sc, stream) →
  let pc := length (connections w) in
  let tracks := map (λ track, pc_call pc (addTrack track)) (getTracks stream) in
  let w1 := ws_onmessage ws (call_accepted rtc) w in
  let w2 := ws_onmessage ws (offer o rtc) w in
  trace w1
  = (trace w ++ new_RTCPeerConnection pc :: tracks
       ++ pc_call pc createOffer
       :: if createOffer_resolves rtc then
            pc_call pc (setLocalDescription (created_offer pc))
            :: if setLocalDescription_resolves rtc then
                 match websocket (state sc) with
                 | Some k =>
                     [send k (offer_out (callId (state sc)) (created_offer pc)
                                (otherUser (props sc)))]
                 | None => []
                 end
               else []
          else [])%list ∧
  peerConnection (state (current w1)) = Some pc ∧
  (callType (props sc) = incoming →
     trace w2
     = (trace w ++ new_RTCPeerConnection pc :: tracks
          ++ pc_call pc (setRemoteDescription o)
          :: if setRemoteDescription_resolves rtc then
               pc_call pc createAnswer
               :: if createAnswer_resolves rtc then
                    pc_call pc (setLocalDescription (created_answer pc))
                    :: if setLocalDescription_resolves rtc then
                         match websocket (state sc) with
                         | Some k =>
                             [send k (answer_out (callId (state sc))
                                        (created_answer pc) (otherUser (props sc)))]
                         | None => []
                         end
                       else []
                  else []
             else [])%list ∧
     peerConnection (state (current w2)) = Some pc).
Proof.
  intros Hws pc tracks w1 w2. split; [| split].
  - unfold w1, ws_onmessage. rewrite Hws. unfold andThen.
    destruct (createPeerConnection_world sc stream rtc
                (setConnectionStatus "Call accepted, establishing connection..." w))
      as (_ & _ & _ & Ht).
    exact Ht.
  - unfold w1, ws_onmessage. rewrite Hws. unfold andThen.
    destruct (createPeerConnection_world sc stream rtc
                (setConnectionStatus "Call accepted, establishing connection..." w))
      as (Hpc & _).
    exact Hpc.
  - intros Hin. unfold w2, ws_onmessage. rewrite Hws.
    rewrite bool_decide_eq_true_2 by done. simpl.
    destruct (handleIncomingCall_world sc o stream rtc w) as (Hpc & _ & Ht).
    split; [exact Ht | exact Hpc].
Qed.

Lemma negotiation_steps_witness :
  let createAnswer_rejects := mkPromises true true false true in
  trace (ws_onmessage 0 (offer (received "o") createAnswer_rejects) calleeReady)
  = (trace calleeReady ++
       [new_RTCPeerConnection 0; pc_call 0 (addTrack 0); pc_call 0 (addTrack 1);
        pc_call 0 (setRemoteDescription (received "o"));
        pc_call 0 createAnswer])%list.
Proof.
  intros createAnswer_rejects.
  destruct (negotiation_steps calleeReady 0 firstAcceptScope camera (received "o")
              createAnswer_rejects)
    as (_ & _ & H); [vm_compute; reflexivity |].
  destruct H as [H _]; [reflexivity |]. exact H.
Defined.

(** *** Hanging up *)

Lemma cleanupMedia_world (sc : Scope) (w : World) :
  let w' := cleanupMedia sc w in
  trace w' = (trace w ++ released sc)%list ∧
  sockets w' = sockets w ∧
  connections w' = connections w ∧
  props (current w') = props (current w) ∧
  callId (state (current w')) = callId (state (current w)) ∧
  isCallActive (state (current w')) = false ∧
  localStream (state (current w'))
  = match localStream (state sc) with
    | Some _ => None
    | None => localStream (state (current w))
    end ∧
  remoteStream (state (current w'))
  = match remoteStream (state sc) with
    | Some _ => None
    | None => remoteStream (state (current w))
    end ∧
  peerConnection (state (current w'))
  = match peerConnection (state sc) with
    | Some _ => None
    | None => peerConnection (state (current w))
    end ∧
  websocket (state (current w'))
  = match websocket (state sc) with
    | Some _ => None
    | None => websocket (state (current w))
    end.
Proof.
  unfold cleanupMedia, released, andThen, whenSome.
  destruct (localStream (state sc)) as [l|], (remoteStream (state sc)) as [r|],
    (peerConnection (state sc)) as [pc|], (websocket (state sc)) as [ws|];
    unfold andThen, skip; rewrite ?forEach_emit; simpl;
    rewrite ?forEach_emit; simpl; rewrite <- ?app_assoc, ?app_nil_r; simpl;
    rewrite <- ?app_assoc; done.
Qed.

(** Hanging up releases everything the component holds.  After the end
    button, whatever the state was: the peer was told [end_call] (if there
    is a socket and a call id), every track of the local and of the remote
    stream was stopped, the stored connection and socket were closed, the
    modal was asked to close, and the state holds no stream, connection or
    socket and no active call.  Rejecting, in contrast, only notifies and
    closes: it leaves the state as it is. *)
Theorem hanging_up_releases_everything (w : World) :
  let sc := current w in
  let w' := step ClickEnd w in
  let w'' := step ClickReject w in
  trace w'
  = (trace w ++ farewell end_call sc
       ++ (if has_onEndCall (props sc) then [onEndCall] else [])
       ++ released sc ++ [onClose])%list ∧
  localStream (state (current w')) = None ∧
  remoteStream (state (current w')) = None ∧
  peerConnection (state (current w')) = None ∧
  websocket (state (current w')) = None ∧
  isCallActive (state (current w')) = false ∧
  trace w''
  = (trace w ++ farewell reject_call sc
       ++ (if has_onRejectCall (props sc) then [onRejectCall] else [])
       ++ [onClose])%list ∧
  current w'' = current w.
Proof.
  intros sc w' w''.
  assert (Hf : ∀ (make : string → option Z → Signal),
            match websocket (state sc), callId (state sc) with
            | Some ws, Some c =>
                if bool_decide (c = "") then skip
                else emit (send ws (make c (otherUser (props sc))))
            | _, _ => skip
            end w
            = mkWorld (current w) (sockets w) (connections w) (effectScope w)
                (trace w ++ farewell make sc)).
  { intros make. unfold farewell.
    destruct (websocket (state sc)), (callId (state sc));
      try case_bool_decide; unfold skip, emit; simpl; rewrite ?app_nil_r;
      by destruct w. }
  set (w0 := mkWorld (current w) (sockets w) (connections w) (effectScope w)
               (trace w ++ farewell end_call sc)).
  set (w1 := when (has_onEndCall (props sc)) (emit onEndCall) w0).
  assert (Hend : w' = emit onClose (cleanupMedia sc w1)).
  { unfold w', w1, w0. rewrite <- (Hf end_call). reflexivity. }
  set (v0 := mkWorld (current w) (sockets w) (connections w) (effectScope w)
               (trace w ++ farewell reject_call sc)).
  assert (Hrej : w'' = emit onClose (when (has_onRejectCall (props sc))
                                       (emit onRejectCall) v0)).
  { unfold w'', v0. rewrite <- (Hf reject_call). reflexivity. }
  assert (Hw1 : trace w1 = (trace w ++ farewell end_call sc
                   ++ (if has_onEndCall (props sc) then [onEndCall] else []))%list
                ∧ current w1 = current w).
  { unfold w1, w0, when. destruct (has_onEndCall (props sc)); simpl;
      rewrite <- ?app_assoc, ?app_nil_r; done. }
  destruct Hw1 as [Ht1 Hc1].
  destruct (cleanupMedia_world sc w1)
    as (Ht & _ & _ & _ & _ & Ha & Hl & Hr & Hp & Hs).
  rewrite Hc1 in Hl, Hr, Hp, Hs. fold sc in Hl, Hr, Hp, Hs.
  rewrite Hend, Hrej. clear Hend Hrej Hf.
  split; [| split; [| split; [| split; [| split; [| split; [| split]]]]]].
  - change (trace (emit onClose (cleanupMedia sc w1)))
      with (trace (cleanupMedia sc w1) ++ [onClose])%list.
    rewrite Ht, Ht1. rewrite <- !app_assoc. done.
  - change (localStream (state (current (cleanupMedia sc w1))) = None).
    rewrite Hl. by destruct (localStream (state sc)).
  - change (remoteStream (state (current (cleanupMedia sc w1))) = None).
    rewrite Hr. by destruct (remoteStream (state sc)).
  - change (peerConnection (state (current (cleanupMedia sc w1))) = None).
    rewrite Hp. by destruct (peerConnection (state sc)).
  - change (websocket (state (current (cleanupMedia sc w1))) = None).
    rewrite Hs. by destruct (websocket (state sc)).
  - exact Ha.
  - unfold when, v0. destruct (has_onRejectCall (props sc)); simpl;
      rewrite <- ?app_assoc; done.
  - unfold when, v0. by destruct (has_onRejectCall (props sc)).
Qed.

(** *** What the handlers of a socket can see *)

Lemma deaf_trace (es : list Effect) :
  Forall deaf es →
  sentSignals es = [] ∧ allAppliedCandidates es = [] ∧
  ∀ pc d, pc_call pc (setRemoteDescription d) ∉ es.
Proof.
  induction 1 as [| e es He _ (IH1 & IH2 & IH3)].
  - repeat split. intros pc d. apply not_elem_of_nil.
  - destruct e as [| | | | | pc' []| | | | | |]; simpl in *; try done;
      (split; [done |]; split; [done |]; intros q dq Hin;
       apply elem_of_cons in Hin as [Heq | Hin]; [discriminate | by eapply IH3]).
Qed.

(** With handlers that captured no socket and no connection, and a call
    type other than incoming, no inbound envelope makes the component send
    anything or apply a description or a candidate. *)
Lemma ws_onmessage_deaf (ws : nat) (sc : Scope) (stream : MediaStream)
    (data : Inbound) (w : World) :
  sockets w !! ws = Some (sc, stream) →
  websocket (state sc) = None → peerConnection (state sc) = None →
  callType (props sc) ≠ incoming →
  sockets (ws_onmessage ws data w) = sockets w ∧
  ∃ es, trace (ws_onmessage ws data w) = (trace w ++ es)%list ∧ Forall deaf es.
Proof.
  intros Hws Hnows Hnopc Htype. unfold ws_onmessage. rewrite Hws.
  rewrite Hnopc. rewrite bool_decide_eq_false_2 by done.
  destruct data; try apply (tame_skip _ w); apply tame_at.
  - unfold createPeerConnection. rewrite Hnows.
    change (whenSome None ?f) with skip. tame.
  - tame.
  - unfold endCall, cleanupMedia. tame.
Qed.

(** A call opened on a freshly mounted modal cannot be negotiated by the
    handlers of its socket: they captured the state of the render that
    opened the modal, in which there is no socket, no call id and no peer
    connection yet.  Whatever envelopes arrive on that socket, the only
    envelope ever sent is [create_video_call]: the offer is created on
    [call_accepted] but not sent, and no answer and no candidate is ever
    applied to a connection. *)
Theorem first_call_socket_is_deaf
    (p : Props) (stream : MediaStream) (newCallId : string)
    (messages : list Inbound) :
  let opened := run [Render true outgoing (Some stream); SocketOpen 0 newCallId]
                  (mounted p) in
  let w := deliver 0 messages opened in
  sentSignals (trace w) = [create_video_call newCallId (otherUser p) (user p)] ∧
  allAppliedCandidates (trace w) = [] ∧
  ∀ pc d, pc_call pc (setRemoteDescription d) ∉ trace w.
Proof.
  intros opened w.
  set (sc := mkScope (mkProps true outgoing (otherUser p) (user p)
                        (has_onAcceptCall p) (has_onRejectCall p) (has_onEndCall p))
               initialState).
  assert (Hopened : sockets opened = [(sc, stream)] ∧
            trace opened = [getUserMedia (Some stream); new_WebSocket 0;
                            send 0 (create_video_call newCallId (otherUser p) (user p))]).
  { unfold opened. simpl. unfold rerender. simpl.
    rewrite andb_false_r. simpl. done. }
  destruct Hopened as [Hs0 Ht0].
  assert (Hgen : ∀ w0, sockets w0 !! 0%nat = Some (sc, stream) →
            ∃ es, trace (deliver 0 messages w0) = (trace w0 ++ es)%list ∧ Forall deaf es).
  { clear. induction messages as [| data messages IH]; intros w0 Hws.
    - exists []. by rewrite app_nil_r.
    - destruct (ws_onmessage_deaf 0 sc stream data w0 Hws) as (Hs & es & Ht & HQ);
        [done | done | done |].
      change (deliver 0 (data :: messages) w0)
        with (deliver 0 messages (ws_onmessage 0 data w0)).
      destruct (IH (ws_onmessage 0 data w0)) as (es' & Ht' & HQ');
        [by rewrite Hs |].
      exists (es ++ es')%list. split; [by rewrite Ht', Ht, app_assoc |].
      by apply Forall_app. }
  destruct (Hgen opened) as (es & Ht & HQ); [by rewrite Hs0 |].
  fold w in Ht. destruct (deaf_trace es HQ) as (H1 & H2 & H3).
  rewrite Ht, Ht0. split; [| split].
  - rewrite sentSignals_app, H1. done.
  - rewrite allAppliedCandidates_app, H2. done.
  - intros pc d Hin. apply elem_of_app in Hin as [Hin | Hin]; [| by eapply H3].
    repeat (apply elem_of_cons in Hin as [Heq | Hin]; [discriminate |]).
    by apply not_elem_of_nil in Hin.
Qed.

(** *** The call timer *)

Lemma string_length_app (s t : string) :
  String.length (s ++ t) = (String.length s + String.length t)%nat.
Proof. induction s as [| c s IH]; simpl; [done | by rewrite IH]. Qed.

Lemma string_app_inj (s1 s2 t1 t2 : string) :
  String.length s1 = String.length s2 → s1 ++ t1 = s2 ++ t2 → s1 = s2 ∧ t1 = t2.
Proof.
  revert s2. induction s1 as [| c s1 IH]; intros [| c2 s2] Hlen Heq;
    simpl in *; try done.
  injection Heq as -> Heq. injection Hlen as Hlen.
  destruct (IH s2 Hlen Heq) as [-> ->]. done.
Qed.

Lemma seconds_field (r : Z) :
  0 ≤ r < 60 → padStart 2 "0" (JS.ToString r) = twoDigits r.
Proof.
  intros Hr.
  assert (Hall : Forall (λ r, padStart 2 "0" (JS.ToString r) = twoDigits r) (seqZ 0 60)).
  { apply Forall_forall. intros x Hx. apply elem_of_seqZ in Hx.
    assert (Hcases : x ∈ (Z.of_nat <$> seq 0 60)).
    { apply list_elem_of_fmap. exists (Z.to_nat x). split; [lia |].
      apply list_elem_of_In, in_seq. lia. }
    vm_compute in Hcases.
    repeat (apply elem_of_cons in Hcases as [-> | Hcases]; [reflexivity |]).
    by apply not_elem_of_nil in Hcases. }
  rewrite Forall_forall in Hall. apply Hall, elem_of_seqZ. lia.
Qed.

Lemma twoDigits_length (r : Z) : 0 ≤ r < 60 → String.length (twoDigits r) = 2%nat.
Proof.
  intros Hr.
  assert (Hcases : r ∈ (Z.of_nat <$> seq 0 60)).
  { apply list_elem_of_fmap. exists (Z.to_nat r). split; [lia |].
    apply list_elem_of_In, in_seq. lia. }
  vm_compute in Hcases.
  repeat (apply elem_of_cons in Hcases as [-> | Hcases]; [reflexivity |]).
  by apply not_elem_of_nil in Hcases.
Qed.

Lemma twoDigits_inj (r1 r2 : Z) :
  0 ≤ r1 < 60 → 0 ≤ r2 < 60 → twoDigits r1 = twoDigits r2 → r1 = r2.
Proof.
  intros H1 H2 Heq. unfold twoDigits in Heq.
  assert (Hd : ∀ d, 0 ≤ d < 10 → String.length (JS.ToString d) = 1%nat).
  { intros d Hd.
    assert (Hcases : d ∈ (Z.of_nat <$> seq 0 10)).
    { apply list_elem_of_fmap. exists (Z.to_nat d). split; [lia |].
      apply list_elem_of_In, in_seq. lia. }
    vm_compute in Hcases.
    repeat (apply elem_of_cons in Hcases as [-> | Hcases]; [reflexivity |]).
    by apply not_elem_of_nil in Hcases. }
  apply string_app_inj in Heq as [Ha Hb].
  - unfold JS.ToString in Ha, Hb.
    apply (inj pretty) in Ha. apply (inj pretty) in Hb.
    pose proof (Z.div_mod r1 10). pose proof (Z.div_mod r2 10). lia.
  - rewrite !Hd; [done | |]; split; try (apply Z.div_pos; lia);
      apply Z.div_lt_upper_bound; lia.
Qed.

(** The call timer shows minutes, a colon and always two digits of
    seconds: for a duration that is not negative, [formatDuration] is the
    decimal text of the whole minutes, [":"], and the seconds within the
    minute written with two digits; and two different durations never show
    the same text. *)
Theorem formatDuration_shape (seconds other : Z) :
  (0 ≤ seconds)%Z → (0 ≤ other)%Z →
  formatDuration seconds
  = JS.ToString (seconds / 60) ++ ":" ++ twoDigits (seconds mod 60) ∧
  String.length (formatDuration seconds)
  = (String.length (JS.ToString (seconds / 60)) + 3)%nat ∧
  (formatDuration seconds = formatDuration other → seconds = other).
Proof.
  intros Hs Ho.
  assert (Hshape : ∀ s : Z, (0 ≤ s)%Z →
            formatDuration s = JS.ToString (s / 60) ++ ":" ++ twoDigits (s mod 60)).
  { intros s Hs0. unfold formatDuration. cbv zeta.
    rewrite Z.rem_mod_nonneg by lia.
    rewrite seconds_field by (apply Z.mod_pos_bound; lia). done. }
  assert (Hlen : ∀ s : Z, (0 ≤ s)%Z →
            String.length (formatDuration s)
            = (String.length (JS.ToString (s / 60)) + 3)%nat).
  { intros s Hs0. rewrite (Hshape s Hs0), !string_length_app.
    rewrite twoDigits_length by (apply Z.mod_pos_bound; lia). simpl. lia. }
  split; [by apply Hshape |]. split; [by apply Hlen |].
  intros Heq.
  assert (Hl := f_equal String.length Heq). rewrite !Hlen in Hl by done.
  rewrite !Hshape in Heq by done.
  apply string_app_inj in Heq as [Hm Hr]; [| lia].
  unfold JS.ToString in Hm. apply (inj pretty) in Hm. injection Hr as Hr.
  apply twoDigits_inj in Hr; try (apply Z.mod_pos_bound; lia).
  pose proof (Z.div_mod seconds 60). pose proof (Z.div_mod other 60). lia.
Qed.

Lemma formatDuration_shape_witness :
  formatDuration 65 = "1:05".
Proof.
  destruct (formatDuration_shape 65 0) as (H & _); [lia | lia |].
  etrans; [exact H | reflexivity].
Defined.

End VideoCallMore.

(* ===================================================================== *)
(** ** Properties of the message input *)
(* ===================================================================== *)

Module ChatInputSpec.
Import JS ChatInput UseWebSocketSpec UseWebSocketMore.

Lemma handleTyping_fields (which : Component) (cid : option string) (flag : bool)
    (c : Input) :
  pending (handleTyping which cid flag c) = pending c ∧
  typingTimeoutRef (handleTyping which cid flag c) = typingTimeoutRef c ∧
  nextTimeoutId (handleTyping which cid flag c) = nextTimeoutId c ∧
  posts (handleTyping which cid flag c) = posts c ∧
  typingCalls (handleTyping which cid flag c)
  = (typingCalls c ++ match cid with Some id => [(id, flag)] | None => [] end)%list.
Proof.
  unfold handleTyping. destruct cid, which; simpl; rewrite ?app_nil_r; done.
Qed.

Lemma clearTimeout_wf (id : nat) (c : Input) :
  timeouts_wf c → typingTimeoutRef c = Some id → pending (clearTimeout id c) = [].
Proof.
  intros [[Hp | (id' & cid & Href & Hp)] _] Hid; unfold clearTimeout; simpl;
    rewrite Hp; [done |].
  assert (id' = id) as -> by congruence.
  rewrite filter_cons. simpl. rewrite decide_False by (intros H; by apply H). done.
Qed.

(** After a keystroke exactly the timeout it scheduled is pending. *)
Lemma handleMessageChange_pending (which : Component) (cid : option string)
    (value : string) (c : Input) :
  timeouts_wf c →
  let c' := handleMessageChange which cid value c in
  typingTimeoutRef c' = Some (nextTimeoutId c) ∧
  pending c' = [mkTimeout (nextTimeoutId c) cid 2000] ∧
  nextTimeoutId c' = S (nextTimeoutId c).
Proof.
  intros Hwf. unfold handleMessageChange. cbv zeta.
  set (c1 := match which with
             | FriendChat => handleTyping which cid true (setMessageText value c)
             | RealTimeChat =>
                 if isTyping (setMessageText value c) then setMessageText value c
                 else handleTyping which cid true (setMessageText value c)
             end).
  assert (H1 : pending c1 = pending c ∧ typingTimeoutRef c1 = typingTimeoutRef c
               ∧ nextTimeoutId c1 = nextTimeoutId c).
  { unfold c1. destruct which; [| destruct (isTyping _)]; try done;
      destruct (handleTyping_fields FriendChat cid true (setMessageText value c))
        as (? & ? & ? & _);
      destruct (handleTyping_fields RealTimeChat cid true (setMessageText value c))
        as (? & ? & ? & _); done. }
  destruct H1 as (Hp1 & Hr1 & Hn1).
  assert (Hwf1 : timeouts_wf c1).
  { unfold timeouts_wf. rewrite Hp1, Hr1, Hn1. exact Hwf. }
  destruct (typingTimeoutRef c1) as [id|] eqn:Href.
  - pose proof (clearTimeout_wf id c1 Hwf1 Href) as Hclear.
    unfold scheduleStop. simpl. rewrite Hn1. simpl in Hclear. rewrite Hclear. done.
  - destruct Hwf1 as [[Hp | (id' & cid' & Href' & _)] _]; [| congruence].
    unfold scheduleStop. simpl. rewrite Hn1, Hp. done.
Qed.

Lemma timeoutFires_pending (which : Component) (id : nat) (c : Input) :
  timeouts_wf c →
  (pending (timeoutFires which id c) = pending c ∨ pending (timeoutFires which id c) = []) ∧
  typingTimeoutRef (timeoutFires which id c) = typingTimeoutRef c ∧
  nextTimeoutId (timeoutFires which id c) = nextTimeoutId c.
Proof.
  intros Hwf. unfold timeoutFires.
  destruct (list_find _ (pending c)) as [[k t]|] eqn:Hfind; [| by split; [left |]].
  destruct (handleTyping_fields which (capturedConversation t) false (clearTimeout id c))
    as (-> & -> & -> & _).
  split; [| done]. right.
  apply list_find_Some in Hfind as (Hk & Hid & _).
  destruct Hwf as [[Hp | (id' & cid & Href & Hp)] _].
  - rewrite Hp in Hk. done.
  - rewrite Hp in Hk. destruct k; [| done]. injection Hk as <-. simpl in Hid. subst id'.
    unfold clearTimeout. simpl. rewrite Hp, filter_cons. simpl.
    rewrite decide_False by (intros H; by apply H). done.
Qed.

Lemma step_timeouts_wf (which : Component) (e : Event) (c : Input) :
  timeouts_wf c → timeouts_wf (step which e c).
Proof.
  intros Hwf. destruct e as [cid value | id | e]; simpl.
  - destruct (handleMessageChange_pending which cid value c Hwf) as (Hr & Hp & Hn).
    unfold timeouts_wf. rewrite Hr, Hp, Hn. split.
    + right. by exists (nextTimeoutId c), cid.
    + intros id Hid. injection Hid as <-. lia.
  - destruct (timeoutFires_pending which id c Hwf) as ([Hp | Hp] & Hr & Hn);
      unfold timeouts_wf; rewrite Hp, Hr, Hn; [exact Hwf |].
    split; [by left | apply Hwf].
  - exact Hwf.
Qed.

Lemma run_timeouts_wf (which : Component) (events : list Event) (c : Input) :
  timeouts_wf c → timeouts_wf (run which events c).
Proof.
  revert c. induction events as [| e events IH]; intros c Hwf; [done |].
  apply IH. by apply step_timeouts_wf.
Qed.

(** The stop timer is restarted by every keystroke and never piles up: in
    every reachable state of either chat component at most one timeout is
    pending, the one [typingTimeoutRef] names, with a delay of 2000 ms;
    and right after a keystroke exactly one is pending, a new one. *)
Theorem one_stop_timer
    (which : Component) (h : UseWebSocket.Hook) (events : list Event)
    (conversationId : option string) (value : string) :
  let c := run which events (initial h) in
  let c' := step which (Types conversationId value) c in
  timeouts_wf c ∧
  pending c' = [mkTimeout (nextTimeoutId c) conversationId 2000] ∧
  typingTimeoutRef c' = Some (nextTimeoutId c) ∧
  (∀ t, t ∈ pending c → timeoutId t ≠ nextTimeoutId c).
Proof.
  intros c c'.
  assert (Hwf : timeouts_wf c).
  { apply run_timeouts_wf. split; [by left | done]. }
  destruct (handleMessageChange_pending which conversationId value c Hwf)
    as (Hr & Hp & _).
  split; [done |]. split; [exact Hp |]. split; [exact Hr |].
  intros t Ht. destruct Hwf as [[Hnil | (id & cid & Href & Hone)] Hlt].
  - rewrite Hnil in Ht. by apply not_elem_of_nil in Ht.
  - rewrite Hone in Ht. apply list_elem_of_singleton in Ht as ->. simpl.
    specialize (Hlt id Href). lia.
Qed.

(** *** RealTimeChat: typing is announced once *)

Lemma alternates_snoc (expected flag : bool) (flags : list bool) :
  alternates expected (flags ++ [flag])
  = alternates expected flags
    && eqb flag (if Nat.odd (length flags) then negb expected else expected).
Proof.
  revert expected. induction flags as [| f flags IH]; intros expected.
  - simpl. by rewrite andb_true_r.
  - simpl. rewrite IH, Nat.odd_succ, <- Nat.negb_odd.
    destruct (Nat.odd (length flags)), expected, f, flag; simpl;
      by rewrite ?andb_true_r, ?andb_false_r.
Qed.

Lemma step_typing_flags_wf (e : Event) (c : Input) :
  timeouts_wf c → typing_flags_wf c → typing_flags_wf (step RealTimeChat e c).
Proof.
  intros Hwf (Halt & Hodd & Hpend).
  assert (Hsend : ∀ (c0 : Input) id flag,
            typingCalls c0 = typingCalls c → isTyping c0 = isTyping c →
            flag = negb (isTyping c) →
            alternates true (map snd (typingCalls
                (handleTyping RealTimeChat (Some id) flag c0))) = true ∧
            isTyping (handleTyping RealTimeChat (Some id) flag c0)
            = Nat.odd (length (typingCalls
                (handleTyping RealTimeChat (Some id) flag c0))) ∧
            isTyping (handleTyping RealTimeChat (Some id) flag c0) = flag).
  { intros c0 id flag Hcalls Htyping ->. simpl. rewrite Hcalls.
    rewrite map_app. simpl map.
    rewrite alternates_snoc, Halt, length_map, length_app. simpl.
    rewrite Nat.add_1_r, Nat.odd_succ, <- Nat.negb_odd, <- Hodd.
    by destruct (isTyping c). }
  destruct e as [cid value | id | e]; simpl.
  - (* a keystroke *)
    destruct (handleMessageChange_pending RealTimeChat cid value c Hwf) as (_ & Hp & _).
    cbv zeta in Hp. unfold typing_flags_wf. rewrite Hp.
    unfold handleMessageChange. cbv zeta.
    set (c1 := if isTyping (setMessageText value c) then setMessageText value c
               else handleTyping RealTimeChat cid true (setMessageText value c)).
    assert (H1 : alternates true (map snd (typingCalls c1)) = true ∧
                 isTyping c1 = Nat.odd (length (typingCalls c1)) ∧
                 (is_Some cid → isTyping c1 = true)).
    { unfold c1. simpl. destruct (isTyping c) eqn:Hty.
      { simpl. split; [done |]. split; [congruence | done]. }
      destruct cid as [id|].
      - destruct (Hsend (setMessageText value c) id true) as (? & ? & ?);
          [done | done | first [done | by rewrite Hty] |]. done.
      - simpl. split; [done |]. split; [congruence |]. by intros []. }
    destruct H1 as (Ha1 & Ho1 & Hs1).
    assert (Hsame : ∀ c2, typingCalls c2 = typingCalls c1 → isTyping c2 = isTyping c1 →
              alternates true (map snd (typingCalls c2)) = true ∧
              isTyping c2 = Nat.odd (length (typingCalls c2)) ∧
              (∀ t, t ∈ [mkTimeout (nextTimeoutId c) cid 2000] →
                    is_Some (capturedConversation t) → isTyping c2 = true)).
    { intros c2 -> ->. split; [done |]. split; [done |].
      intros t ->%list_elem_of_singleton. exact Hs1. }
    apply Hsame; by destruct (typingTimeoutRef c1).
  - (* the timeout *)
    unfold timeoutFires.
    destruct (list_find _ (pending c)) as [[k t]|] eqn:Hfind; [| done].
    destruct (timeoutFires_pending RealTimeChat id c Hwf) as ([Hp | Hp] & _).
    + (* cannot be: the timeout that ran is gone *)
      unfold timeoutFires in Hp. rewrite Hfind in Hp.
      destruct (handleTyping_fields RealTimeChat (capturedConversation t) false
                  (clearTimeout id c)) as (Hp' & _).
      rewrite Hp' in Hp. unfold clearTimeout in Hp. simpl in Hp.
      apply list_find_Some in Hfind as (Hk & Hid & _).
      assert (Hin : t ∈ pending c) by (by eapply list_elem_of_lookup_2).
      rewrite <- Hp in Hin. apply list_elem_of_filter in Hin as [Hne _].
      by destruct Hne.
    + unfold timeoutFires in Hp. rewrite Hfind in Hp.
      unfold typing_flags_wf. rewrite Hp.
      apply list_find_Some in Hfind as (Hk & Hid & _).
      assert (Hin : t ∈ pending c) by (by eapply list_elem_of_lookup_2).
      destruct (capturedConversation t) as [cid|] eqn:Hcid.
      * destruct (Hsend (clearTimeout id c) cid false) as (? & ? & ?);
          [done | done | |].
        { rewrite (Hpend t Hin); [done |]. by rewrite Hcid. }
        split; [done |]. split; [done |]. intros t' Ht'.
        by apply not_elem_of_nil in Ht'.
      * simpl. split; [done |]. split; [done |]. intros t' Ht'.
        by apply not_elem_of_nil in Ht'.
  - split; [done |]. split; done.
Qed.

(** RealTimeChat announces typing once per burst: over any sequence of
    keystrokes, timeouts and hook events, in whatever conversations, the
    flags handed to [sendTypingIndicator] alternate, beginning with
    [true]; never two starts or two stops in a row. *)
Theorem typing_flags_alternate (h : UseWebSocket.Hook) (events : list Event) :
  let c := run RealTimeChat events (initial h) in
  alternates true (map snd (typingCalls c)) = true ∧
  isTyping c = Nat.odd (length (typingCalls c)).
Proof.
  assert (Hinv : ∀ c0, timeouts_wf c0 ∧ typing_flags_wf c0 →
            typing_flags_wf (run RealTimeChat events c0)).
  { induction events as [| e events IH]; intros c0 [H1 H2]; [done |].
    apply IH. split; [by apply step_timeouts_wf | by apply step_typing_flags_wf]. }
  destruct (Hinv (initial h)) as (Ha & Ho & _); [| done].
  split; [split; [by left | done] |].
  split; [done |]. split; [done |]. intros t Ht. by apply not_elem_of_nil in Ht.
Qed.

(** *** FriendChat: every keystroke is announced *)

Lemma sendTypingIndicator_hook (cid : string) (flag : bool) (h : UseWebSocket.Hook) :
  let h' := (UseWebSocket.sendTypingIndicator cid flag h).2 in
  (UseWebSocket.Connected h →
     UseWebSocket.Connected h' ∧
     UseWebSocket.transmittedOnCurrent h'
     = (UseWebSocket.transmittedOnCurrent h ++ [UseWebSocket.typing_out cid flag])%list) ∧
  (UseWebSocket.socketOpen h = false → h' = h).
Proof.
  unfold UseWebSocket.sendTypingIndicator. split.
  - intros Hc. assert (Hopen := proj2 (socketOpen_Connected h) Hc).
    rewrite Hopen. simpl.
    destruct (wsRef_send_open (UseWebSocket.typing_out cid flag) h Hopen)
      as (i & Hi & ->). simpl.
    destruct (transmit_current i (UseWebSocket.typing_out cid flag) h Hc Hi)
      as (? & _ & ? & _). done.
  - intros Hclosed. by rewrite Hclosed.
Qed.

Lemma friendchat_keystroke (cid value : string) (c : Input) :
  timeouts_wf c →
  let c' := step FriendChat (Types (Some cid) value) c in
  typingCalls c' = (typingCalls c ++ [(cid, true)])%list ∧
  hook c' = (UseWebSocket.sendTypingIndicator cid true (hook c)).2 ∧
  messageText c' = value ∧
  posts c' = posts c.
Proof.
  intros Hwf. simpl. unfold handleMessageChange. cbv zeta. simpl.
  destruct (typingTimeoutRef c); done.
Qed.

Lemma friendchat_burst_fields (cid : string) (values : list string) (c : Input) :
  timeouts_wf c →
  let c' := run FriendChat (burst cid values) c in
  timeouts_wf c' ∧
  typingCalls c' = (typingCalls c ++ replicate (length values) (cid, true))%list ∧
  (UseWebSocket.Connected (hook c) →
     UseWebSocket.Connected (hook c') ∧
     UseWebSocket.transmittedOnCurrent (hook c')
     = (UseWebSocket.transmittedOnCurrent (hook c)
          ++ replicate (length values) (UseWebSocket.typing_out cid true))%list) ∧
  (UseWebSocket.socketOpen (hook c) = false → hook c' = hook c) ∧
  (values ≠ [] →
     ∃ id, typingTimeoutRef c' = Some id ∧ pending c' = [mkTimeout id (Some cid) 2000]).
Proof.
  revert c. induction values as [| value values IH]; intros c Hwf; cbv zeta.
  - simpl. rewrite !app_nil_r.
    split; [done |]. split; [done |]. split; [done |]. split; [done |].
    intros Hne. by destruct Hne.
  - change (run FriendChat (burst cid (value :: values)) c)
      with (run FriendChat (burst cid values) (step FriendChat (Types (Some cid) value) c)).
    set (c1 := step FriendChat (Types (Some cid) value) c).
    assert (Hwf1 : timeouts_wf c1) by (by apply step_timeouts_wf).
    destruct (friendchat_keystroke cid value c Hwf) as (Hcalls & Hhook & _).
    fold c1 in Hcalls, Hhook.
    destruct (sendTypingIndicator_hook cid true (hook c)) as [Hconn Hclosed].
    cbv zeta in Hconn, Hclosed. rewrite <- Hhook in Hconn, Hclosed.
    destruct (IH c1 Hwf1) as (IHwf & IHcalls & IHconn & IHclosed & IHpending).
    split; [done |]. split; [| split; [| split]].
    + rewrite IHcalls, Hcalls, <- app_assoc. done.
    + intros Hc. destruct (Hconn Hc) as [Hc1 Ht1].
      destruct (IHconn Hc1) as [Hc' Ht']. split; [done |].
      rewrite Ht', Ht1, <- app_assoc. done.
    + intros Hc. rewrite <- (Hclosed Hc). apply IHclosed. by rewrite (Hclosed Hc).
    + intros _. destruct values as [| v values].
      * destruct (handleMessageChange_pending FriendChat (Some cid) value c Hwf)
          as (Hr & Hp & _).
        exists (nextTimeoutId c). done.
      * by apply IHpending.
Qed.

(** FriendChat announces every keystroke and stops once.  A burst of [n]
    keystrokes in a conversation, followed by the expiry of the timeout,
    hands [n] times [true] and then one [false] to [sendTypingIndicator],
    and leaves no timeout pending.  With the socket open these go out on
    the wire in that order; with the socket not open the hook is left
    untouched. *)
Theorem friendchat_announces_every_keystroke
    (h : UseWebSocket.Hook) (events : list Event) (cid : string)
    (values : list string) :
  values ≠ [] →
  let c0 := run FriendChat events (initial h) in
  let c := stopFires FriendChat (run FriendChat (burst cid values) c0) in
  typingCalls c
  = (typingCalls c0 ++ replicate (length values) (cid, true) ++ [(cid, false)])%list ∧
  pending c = [] ∧
  (UseWebSocket.Connected (hook c0) →
     UseWebSocket.transmittedOnCurrent (hook c)
     = (UseWebSocket.transmittedOnCurrent (hook c0)
          ++ replicate (length values) (UseWebSocket.typing_out cid true)
          ++ [UseWebSocket.typing_out cid false])%list) ∧
  (UseWebSocket.socketOpen (hook c0) = false → hook c = hook c0).
Proof.
  intros Hne c0 c.
  assert (Hwf : timeouts_wf c0).
  { apply run_timeouts_wf. split; [by left | done]. }
  destruct (friendchat_burst_fields cid values c0 Hwf)
    as (Hwf1 & Hcalls & Hconn & Hclosed & Hpending).
  destruct (Hpending Hne) as (id & Href & Hp).
  set (c1 := run FriendChat (burst cid values) c0) in *.
  assert (Hc : c = callSendTypingIndicator cid false (clearTimeout id c1)).
  { unfold c, stopFires. fold c1. rewrite Href. unfold timeoutFires. rewrite Hp.
    simpl. rewrite decide_True by done. done. }
  destruct (sendTypingIndicator_hook cid false (hook c1)) as [Hconn' Hclosed'].
  cbv zeta in Hconn', Hclosed'.
  rewrite Hc. simpl. split; [| split; [| split]].
  - rewrite Hcalls, <- app_assoc. done.
  - rewrite Hp. rewrite filter_cons. simpl.
    rewrite decide_False by (intros H; by apply H). done.
  - intros Hcon. destruct (Hconn Hcon) as [Hc1 Ht1].
    destruct (Hconn' Hc1) as [_ Ht2]. rewrite Ht2, Ht1, <- app_assoc. done.
  - intros Hcl. rewrite Hclosed'; [by apply Hclosed |]. by rewrite (Hclosed Hcl).
Qed.

Lemma friendchat_announces_every_keystroke_witness :
  typingCalls (stopFires FriendChat
                 (run FriendChat (burst "3_7" ["h"; "hi"])
                    (initial (UseWebSocket.initial (Some 7)))))
  = [("3_7", true); ("3_7", true); ("3_7", false)].
Proof.
  destruct (friendchat_announces_every_keystroke (UseWebSocket.initial (Some 7)) []
              "3_7" ["h"; "hi"]) as (H & _); [discriminate |].
  exact H.
Defined.

(** *** Sending a message *)

(** [handleSendMessage] posts a message for persistence only if the
    realtime path did not throw.  Nothing happens without a selected
    friend or with blank text and no files.  Otherwise: with
    [isConnected] false the message is only posted; with [isConnected]
    true and the socket open it goes out on the socket, untrimmed, and is
    posted; with [isConnected] true but the socket of [wsRef] not open,
    [sendMessage] throws into the [catch] and the message is neither
    transmitted nor posted. *)
Theorem handleSendMessage_paths
    (blank : string → bool) (now : string) (friend : Z) (c : Input) :
  let c' := handleSendMessage blank now (Some friend) c in
  let post := mkPost friend (messageText c) (selectedFiles c) in
  handleSendMessage blank now None c = c ∧
  (blank (messageText c) = true → selectedFiles c = 0%nat → c' = c) ∧
  (blank (messageText c) = false ∨ selectedFiles c ≠ 0%nat →
     (UseWebSocket.isConnected (hook c) = false →
        posts c' = (posts c ++ [post])%list ∧ hook c' = hook c) ∧
     (UseWebSocket.isConnected (hook c) = true → UseWebSocket.Connected (hook c) →
        posts c' = (posts c ++ [post])%list ∧
        UseWebSocket.transmittedOnCurrent (hook c')
        = (UseWebSocket.transmittedOnCurrent (hook c)
             ++ [UseWebSocket.message_out friend (messageText c) None now])%list) ∧
     (UseWebSocket.isConnected (hook c) = true → ¬ UseWebSocket.Connected (hook c) →
        c' = c)).
Proof.
  intros c' post. split; [done |]. split.
  - intros Hb Hf. unfold c', handleSendMessage. rewrite Hb, Hf. done.
  - intros Hguard.
    assert (Hg : blank (messageText c) && bool_decide (selectedFiles c = 0%nat) = false).
    { destruct Hguard as [-> | Hf]; [done |].
      rewrite (bool_decide_eq_false_2 _ Hf). by rewrite andb_false_r. }
    unfold c', handleSendMessage. rewrite Hg. split; [| split].
    + intros ->. done.
    + intros -> Hc. assert (Hopen := proj2 (socketOpen_Connected (hook c)) Hc).
      unfold UseWebSocket.sendMessage. rewrite Hopen. simpl.
      destruct (wsRef_send_open
                  (UseWebSocket.message_out friend (messageText c) None now)
                  (hook c) Hopen) as (i & Hi & ->).
      simpl. split; [done |].
      destruct (transmit_current i
                  (UseWebSocket.message_out friend (messageText c) None now)
                  (hook c) Hc Hi) as (_ & _ & Ht & _).
      exact Ht.
    + intros -> Hc. apply socketOpen_not_Connected in Hc.
      unfold UseWebSocket.sendMessage. rewrite Hc. done.
Qed.

Lemma handleSendMessage_paths_witness :
  let h := UseWebSocket.run [UseWebSocket.Mount; UseWebSocket.Opened 0;
                             UseWebSocket.Mount]
             (UseWebSocket.initial (Some 7)) in
  let c := setMessageText "hello" (initial h) in
  UseWebSocket.isConnected h = true ∧
  handleSendMessage (λ s, bool_decide (s = "")) "t0" (Some 42) c = c.
Proof.
  intros h c. split; [reflexivity |].
  destruct (handleSendMessage_paths (λ s, bool_decide (s = "")) "t0" 42 c)
    as (_ & _ & H).
  destruct H as (_ & _ & H); [by left |].
  apply H; [reflexivity |].
  intros (i & ws & Hi & Hws & Hopen). vm_compute in Hi. injection Hi as <-.
  vm_compute in Hws. injection Hws as <-. discriminate.
Defined.

End ChatInputSpec.

(* ===================================================================== *)
(** ** Every envelope follows a granted camera *)
(* ===================================================================== *)

Module VideoCallHandles.
Import VideoCall VideoCallSpec.

Section Civil.
Variable n : nat.

Lemma civil_skip : civil n skip.
Proof.
  intros w _ Hwf. split; [done |]. split; [done |]. exists []. by rewrite app_nil_r.
Qed.

Lemma civil_emit (e : Effect) : sendsKnown n e → civil n (emit e).
Proof.
  intros He w _ Hwf. split; [done |]. split; [exact Hwf |].
  exists [e]. split; [done | by constructor].
Qed.

Lemma civil_andThen (f g : Action) : civil n f → civil n g → civil n (f >> g).
Proof.
  intros Hf Hg w Hn Hwf. unfold andThen.
  destruct (Hf w Hn Hwf) as (Hs1 & Hwf1 & es1 & Ht1 & HQ1).
  destruct (Hg (f w)) as (Hs2 & Hwf2 & es2 & Ht2 & HQ2); [by rewrite Hs1 | done |].
  split; [congruence |]. split; [done |]. exists (es1 ++ es2)%list.
  split; [by rewrite Ht2, Ht1, app_assoc | by apply Forall_app].
Qed.

Lemma civil_when (b : bool) (f : Action) : civil n f → civil n (when b f).
Proof. intros Hf. destruct b; [exact Hf | apply civil_skip]. Qed.

Lemma civil_whenSome {A} (x : option A) (f : A → Action) :
  (∀ a, x = Some a → civil n (f a)) → civil n (whenSome x f).
Proof. intros Hf. destruct x; [by apply Hf | apply civil_skip]. Qed.

Lemma civil_forEach {A} (l : list A) (f : A → Action) :
  (∀ a, civil n (f a)) → civil n (forEach l f).
Proof.
  intros Hf. induction l as [| a l IH]; [apply civil_skip |].
  change (forEach (a :: l) f) with (f a >> forEach l f).
  by apply civil_andThen.
Qed.

(** A state update that keeps the socket handle, drops it, or sets it to
    an existing socket. *)
Lemma civil_setState (f : State → State) :
  (∀ s, websocket (f s) = websocket s ∨ websocket (f s) = None
        ∨ ∃ ws, websocket (f s) = Some ws ∧ (ws < n)%nat) →
  civil n (setState f).
Proof.
  intros Hf w Hn (Hcur & Hsock & Hconn & Heff). split; [done |]. split.
  - split; [| done]. simpl. rewrite Hn in *. intros ws Hws. simpl in Hws.
    destruct (Hf (state (current w))) as [Hsame | [Hnone | (ws' & Hsome & Hlt)]].
    + apply Hcur. congruence.
    + congruence.
    + congruence.
  - exists []. by rewrite app_nil_r.
Qed.

Lemma civil_newPeerConnection (sc : Scope) (role : Role) (stream : MediaStream)
    (k : nat → Action) :
  scopeKnows n sc → (∀ pc, civil n (k pc)) →
  civil n (newPeerConnection sc role stream k).
Proof.
  intros Hsc Hk w Hn Hwf. unfold newPeerConnection.
  set (w1 := mkWorld _ _ _ _ _).
  assert (Hwf1 : handles_wf w1).
  { destruct Hwf as (Hcur & Hsock & Hconn & Heff). split; [done |]. split; [done |].
    split; [| done]. simpl. apply Forall_app. split; [done |].
    apply Forall_singleton. simpl. by rewrite Hn. }
  assert (Ht : civil n (emit (new_RTCPeerConnection (length (connections w)))
                        >> forEach (getTracks stream)
                             (λ track, emit (pc_call (length (connections w))
                                               (addTrack track)))
                        >> setPeerConnection (Some (length (connections w)))
                        >> k (length (connections w)))).
  { apply civil_andThen; [| apply Hk].
    apply civil_andThen; [| apply civil_setState; intros s; by left].
    apply civil_andThen; [by apply civil_emit |].
    apply civil_forEach. intros track. by apply civil_emit. }
  apply (Ht w1 Hn Hwf1).
Qed.

End Civil.

Ltac civil :=
  repeat match goal with
    | |- civil _ (_ >> _) => apply civil_andThen
    | |- civil _ (emit (send _ _)) => apply civil_emit; simpl; auto
    | |- civil _ (emit _) => apply civil_emit; exact I
    | |- civil _ (setLocalStream _) => apply civil_setState; intros ?; by left
    | |- civil _ (setRemoteStream _) => apply civil_setState; intros ?; by left
    | |- civil _ (setIsCallActive _) => apply civil_setState; intros ?; by left
    | |- civil _ (setPeerConnection _) => apply civil_setState; intros ?; by left
    | |- civil _ (setCallId _) => apply civil_setState; intros ?; by left
    | |- civil _ (setIsConnecting _) => apply civil_setState; intros ?; by left
    | |- civil _ (setConnectionStatus _) => apply civil_setState; intros ?; by left
    | |- civil _ (setWebsocket None) => apply civil_setState; intros ?; right; by left
    | |- civil _ skip => apply civil_skip
    | |- civil _ (when _ _) => apply civil_when
    | |- civil _ (whenSome _ _) => apply civil_whenSome; intros
    | |- civil _ (forEach _ _) => apply civil_forEach; intros
    | |- civil _ (newPeerConnection _ _ _ _) =>
        apply civil_newPeerConnection; [assumption | intros]
    end.

Lemma createPeerConnection_civil (n : nat) (sc : Scope) (stream : MediaStream)
    (rtc : Promises) :
  scopeKnows n sc → civil n (createPeerConnection sc stream rtc).
Proof. intros Hsc. unfold createPeerConnection. civil. Qed.

Lemma handleIncomingCall_civil (n : nat) (sc : Scope) (o : SessionDescription)
    (stream : MediaStream) (rtc : Promises) :
  scopeKnows n sc → civil n (handleIncomingCall sc o stream rtc).
Proof. intros Hsc. unfold handleIncomingCall. civil. Qed.

Lemma cleanupMedia_civil (n : nat) (sc : Scope) : civil n (cleanupMedia sc).
Proof. unfold cleanupMedia. civil. Qed.

Lemma civil_at (n : nat) (f : Action) (w : World) :
  civil n f → length (sockets w) = n → handles_wf w →
  sockets (f w) = sockets w ∧ handles_wf (f w) ∧
  ∃ es, trace (f w) = (trace w ++ es)%list ∧ Forall (sendsKnown n) es.
Proof. intros Hf. apply Hf. Qed.

Lemma handles_wf_socket (w : World) (ws : nat) (sc : Scope) (stream : MediaStream) :
  handles_wf w → sockets w !! ws = Some (sc, stream) →
  scopeKnows (length (sockets w)) sc ∧ (ws < length (sockets w))%nat.
Proof.
  intros (_ & Hsock & _) Hws. split; [| by eapply lookup_lt_Some].
  rewrite Forall_lookup in Hsock. apply (Hsock _ _ Hws).
Qed.

Lemma handles_wf_connection (w : World) (pc : nat) (sc : Scope) (role : Role) :
  handles_wf w → connections w !! pc = Some (sc, role) →
  scopeKnows (length (sockets w)) sc.
Proof.
  intros (_ & _ & Hconn & _) Hpc.
  rewrite Forall_lookup in Hconn. apply (Hconn _ _ Hpc).
Qed.

Lemma ws_onmessage_civil (n ws : nat) (data : Inbound) : civil n (ws_onmessage ws data).
Proof.
  intros w Hn Hwf. unfold ws_onmessage.
  destruct (sockets w !! ws) as [[sc stream]|] eqn:Hws;
    [| by apply (civil_skip n w)].
  destruct (handles_wf_socket w ws sc stream Hwf Hws) as [Hsc _]. rewrite Hn in Hsc.
  destruct data; try (by apply (civil_skip n w)); apply civil_at; try done;
    unfold endCall; civil;
    auto using createPeerConnection_civil, handleIncomingCall_civil,
      cleanupMedia_civil.
Qed.

Lemma ws_onopen_civil (n ws : nat) (newCallId : string) :
  civil n (ws_onopen ws newCallId).
Proof.
  intros w Hn Hwf. unfold ws_onopen.
  destruct (sockets w !! ws) as [[sc stream]|] eqn:Hws;
    [| by apply (civil_skip n w)].
  destruct (handles_wf_socket w ws sc stream Hwf Hws) as [_ Hlt]. rewrite Hn in Hlt.
  apply civil_at; try done. civil.
  apply civil_setState. intros s. right. right. by exists ws.
Qed.

Lemma ws_onclose_civil (n ws : nat) : civil n (ws_onclose ws).
Proof.
  intros w Hn Hwf. unfold ws_onclose.
  destruct (sockets w !! ws); [| by apply (civil_skip n w)].
  apply civil_at; try done. civil.
Qed.

Lemma farewell_civil (n : nat) (make : string → option Z → Signal) (sc : Scope) :
  scopeKnows n sc →
  civil n match websocket (state sc), callId (state sc) with
          | Some ws, Some c =>
              if bool_decide (c = "") then skip
              else emit (send ws (make c (otherUser (props sc))))
          | _, _ => skip
          end.
Proof.
  intros Hsc. destruct (websocket (state sc)) as [ws|] eqn:Hws; [| apply civil_skip].
  destruct (callId (state sc)); [| apply civil_skip].
  case_bool_decide; [apply civil_skip |]. apply civil_emit. simpl. by apply Hsc.
Qed.

Lemma handleRejectCall_civil (n : nat) (sc : Scope) :
  scopeKnows n sc → civil n (handleRejectCall sc).
Proof.
  intros Hsc. unfold handleRejectCall.
  apply civil_andThen; [apply civil_andThen |]; civil.
  by apply farewell_civil.
Qed.

Lemma handleEndCall_civil (n : nat) (sc : Scope) :
  scopeKnows n sc → civil n (handleEndCall sc).
Proof.
  intros Hsc. unfold handleEndCall, endCall.
  apply civil_andThen; [apply civil_andThen |]; civil.
  - by apply farewell_civil.
  - apply cleanupMedia_civil.
Qed.

Lemma pc_onicecandidate_civil (n pc : nat) (candidate : option string) :
  civil n (pc_onicecandidate pc candidate).
Proof.
  intros w Hn Hwf. unfold pc_onicecandidate.
  destruct (connections w !! pc) as [[sc role]|] eqn:Hpc;
    [| by apply (civil_skip n w)].
  pose proof (handles_wf_connection w pc sc role Hwf Hpc) as Hsc. rewrite Hn in Hsc.
  destruct candidate; [| by apply (civil_skip n w)].
  destruct (websocket (state sc)) as [ws|] eqn:Hws; [| by apply (civil_skip n w)].
  apply civil_at; try done. apply civil_emit. simpl. by apply Hsc.
Qed.

Lemma pc_onconnectionstatechange_civil (n pc : nat) (cs : ConnectionState) :
  civil n (pc_onconnectionstatechange pc cs).
Proof.
  intros w Hn Hwf. unfold pc_onconnectionstatechange.
  destruct (connections w !! pc) as [[sc role]|]; [| by apply (civil_skip n w)].
  destruct cs, role; try (by apply (civil_skip n w)); apply civil_at; try done; civil.
Qed.

Lemma pc_ontrack_civil (n pc : nat) (stream : MediaStream) :
  civil n (pc_ontrack pc stream).
Proof.
  intros w Hn Hwf. unfold pc_ontrack.
  destruct (connections w !! pc); [| by apply (civil_skip n w)].
  apply civil_at; try done. civil.
Qed.

Lemma scopeKnows_mono (n m : nat) (sc : Scope) :
  (n ≤ m)%nat → scopeKnows n sc → scopeKnows m sc.
Proof. intros Hle Hsc ws Hws. specialize (Hsc ws Hws). lia. Qed.

(** [initializeMedia] behind an action that is civil. *)
Lemma initializeMedia_civil (f : Action) (sc : Scope) (media : option MediaStream)
    (w : World) :
  handles_wf w → civil (length (sockets w)) f →
  scopeKnows (length (sockets w)) sc →
  let w' := initializeMedia sc media (f w) in
  handles_wf w' ∧
  ((sockets w' = sockets w ∧
    ∃ es, trace w' = (trace w ++ es)%list
          ∧ Forall (sendsKnown (length (sockets w))) es)
   ∨ (∃ es stream,
        Forall (sendsKnown (length (sockets w))) es ∧
        sockets w' = (sockets w ++ [(sc, stream)])%list ∧
        trace w' = (trace w ++ es ++ [getUserMedia (Some stream);
                                       new_WebSocket (length (sockets w))])%list)).
Proof.
  intros Hwf Hf Hsc.
  destruct (Hf w eq_refl Hwf) as (Hs & Hwf1 & es & Ht & HQ).
  destruct media as [stream|]; cbv zeta.
  - destruct (initializeMedia_success sc stream (f w)) as [Ht' Hs'].
    cbv zeta in Ht', Hs'. split.
    + destruct Hwf1 as (Hcur & Hsock & Hconn & Heff).
      rewrite Hs in Hcur, Hsock, Hconn, Heff.
      unfold handles_wf. rewrite Hs', Hs, length_app. simpl.
      assert (Hle : (length (sockets w) ≤ length (sockets w) + 1)%nat) by lia.
      split; [| split; [| split]].
      * intros ws Hws. apply (scopeKnows_mono _ _ _ Hle Hcur ws). exact Hws.
      * apply Forall_app. split.
        -- eapply Forall_impl; [exact Hsock |]. intros x Hx.
           by apply (scopeKnows_mono _ _ _ Hle).
        -- apply Forall_singleton. by apply (scopeKnows_mono _ _ _ Hle).
      * eapply Forall_impl; [exact Hconn |]. intros x Hx.
        by apply (scopeKnows_mono _ _ _ Hle).
      * intros sc0 Hsc0. apply (scopeKnows_mono _ _ _ Hle). by apply Heff.
    + right. exists es, stream. split; [done |]. split; [by rewrite Hs', Hs |].
      rewrite Ht', Hs, Ht, <- app_assoc. done.
  - destruct (initializeMedia_failure sc (f w)) as (Ht' & Hs' & Hc' & _ & _ & Hw' & _).
    cbv zeta in Ht', Hs', Hc', Hw'. split.
    + destruct Hwf1 as (Hcur & Hsock & Hconn & Heff).
      unfold handles_wf. rewrite Hs', Hc'.
      split; [| split; [done | split; [done |]]].
      * intros ws Hws. apply Hcur. by rewrite <- Hw'.
      * exact Heff.
    + left. split; [by rewrite Hs', Hs |].
      exists (es ++ [getUserMedia None; toast "Camera access failed"; onClose])%list.
      split; [by rewrite Ht', Ht, <- app_assoc |].
      apply Forall_app. split; [done |]. by repeat constructor.
Qed.

Lemma commit_civil (n : nat) (p : Props) (sc : Scope) :
  scopeKnows n sc → civil n (commit p sc).
Proof.
  intros Hsc w Hn (Hcur & Hsock & Hconn & Heff). rewrite Hn in *.
  split; [done |]. split.
  - unfold handles_wf. simpl. rewrite Hn.
    split; [exact Hcur | split; [done | split; [done |]]].
    intros sc0 [= <-]. exact Hsc.
  - exists []. by rewrite app_nil_r.
Qed.

(** What a step does to handles, sockets and trace: the handles stay in
    order, and either the sockets stay and the new effects send on
    existing sockets only, or the step ends with a successful
    [getUserMedia] followed by a new socket. *)
Lemma step_handles (e : Event) (w : World) :
  handles_wf w →
  handles_wf (step e w) ∧
  ((sockets (step e w) = sockets w ∧
    ∃ es, trace (step e w) = (trace w ++ es)%list
          ∧ Forall (sendsKnown (length (sockets w))) es)
   ∨ (∃ es sc stream,
        Forall (sendsKnown (length (sockets w))) es ∧
        sockets (step e w) = (sockets w ++ [(sc, stream)])%list ∧
        trace (step e w) = (trace w ++ es ++ [getUserMedia (Some stream);
                                       new_WebSocket (length (sockets w))])%list)).
Proof.
  intros Hwf.
  assert (Hcivil : ∀ f, civil (length (sockets w)) f →
            handles_wf (f w) ∧
            ((sockets (f w) = sockets w ∧
              ∃ es, trace (f w) = (trace w ++ es)%list
                    ∧ Forall (sendsKnown (length (sockets w))) es)
             ∨ (∃ es sc stream,
                  Forall (sendsKnown (length (sockets w))) es ∧
                  sockets (f w) = (sockets w ++ [(sc, stream)])%list ∧
                  trace (f w) = (trace w ++ es ++ [getUserMedia (Some stream);
                                   new_WebSocket (length (sockets w))])%list))).
  { intros f Hf. destruct (Hf w eq_refl Hwf) as (Hs & Hwf' & Hes).
    split; [done |]. left. by split. }
  pose proof (proj1 Hwf) as Hcur.
  assert (Hinit : ∀ f sc media, civil (length (sockets w)) f →
            scopeKnows (length (sockets w)) sc →
            handles_wf (initializeMedia sc media (f w)) ∧
            ((sockets (initializeMedia sc media (f w)) = sockets w ∧
              ∃ es, trace (initializeMedia sc media (f w)) = (trace w ++ es)%list
                    ∧ Forall (sendsKnown (length (sockets w))) es)
             ∨ (∃ es sc' stream,
                  Forall (sendsKnown (length (sockets w))) es ∧
                  sockets (initializeMedia sc media (f w))
                    = (sockets w ++ [(sc', stream)])%list ∧
                  trace (initializeMedia sc media (f w))
                    = (trace w ++ es ++ [getUserMedia (Some stream);
                                   new_WebSocket (length (sockets w))])%list))).
  { intros f sc media Hf Hsc.
    destruct (initializeMedia_civil f sc media w Hwf Hf Hsc) as [H1 [H2 | H2]].
    - split; [done |]. by left.
    - split; [done |]. right. destruct H2 as (es & stream & H2). by exists es, sc, stream. }
  destruct e; simpl.
  - (* Render *)
    unfold rerender.
    destruct (bool_decide _ && bool_decide _); [apply (Hcivil skip), civil_skip |].
    set (sc := mkScope _ (state (current w))).
    set (f := whenSome (effectScope w) cleanupMedia >> commit (props sc) sc).
    assert (Hsc : scopeKnows (length (sockets w)) sc) by exact Hcur.
    assert (Hf : civil (length (sockets w)) f).
    { unfold f. apply civil_andThen; [| by apply commit_civil].
      destruct (effectScope w); [apply cleanupMedia_civil | apply civil_skip]. }
    destruct (open && bool_decide (type = outgoing)).
    + apply (Hinit f sc media Hf Hsc).
    + apply (Hcivil f Hf).
  - (* ClickAccept *)
    unfold handleAcceptCall, andThen.
    apply (Hinit (when (has_onAcceptCall (props (current w))) (emit onAcceptCall))
             (current w) media); [civil | done].
  - apply (Hcivil (handleRejectCall (current w))). by apply handleRejectCall_civil.
  - apply (Hcivil (handleEndCall (current w))). by apply handleEndCall_civil.
  - apply (Hcivil (ws_onopen ws newCallId)), ws_onopen_civil.
  - apply (Hcivil (ws_onmessage ws data)), ws_onmessage_civil.
  - apply (Hcivil (ws_onclose ws)), ws_onclose_civil.
  - apply (Hcivil (pc_onicecandidate pc candidate)), pc_onicecandidate_civil.
  - apply (Hcivil (pc_onconnectionstatechange pc cs)), pc_onconnectionstatechange_civil.
  - apply (Hcivil (pc_ontrack pc stream)), pc_ontrack_civil.
Qed.

Lemma sendsKnown_send (n : nat) (es : list Effect) (i ws : nat) (s : Signal) :
  Forall (sendsKnown n) es → es !! i = Some (send ws s) → (ws < n)%nat.
Proof.
  intros HQ Hi. rewrite Forall_lookup in HQ. apply (HQ _ _ Hi).
Qed.

Lemma step_sendFollowsMedia (e : Event) (w : World) :
  handles_wf w ∧ socketsFollowMedia w ∧ sendFollowsMedia (trace w) →
  handles_wf (step e w) ∧ sendFollowsMedia (trace (step e w)).
Proof.
  intros (Hwf & Hsock & Hsend).
  destruct (step_handles e w Hwf) as [Hwf' Hshape]. split; [done |].
  assert (Hkeep : ∀ es i ws s,
            (i < length (trace w))%nat →
            (trace w ++ es)%list !! i = Some (send ws s) →
            ∃ j stream, (S j < i)%nat ∧
              (trace w ++ es)%list !! j = Some (getUserMedia (Some stream)) ∧
              (trace w ++ es)%list !! S j = Some (new_WebSocket ws)).
  { intros es i ws s Hlt Hi. rewrite lookup_app_l in Hi by done.
    destruct (Hsend i ws s Hi) as (j & stream & Hj & H1 & H2).
    exists j, stream. split; [done |].
    split; by apply lookup_app_l_Some. }
  assert (Hnew : ∀ es i ws,
            (length (trace w) ≤ i)%nat → (ws < length (sockets w))%nat →
            ∃ j stream, (S j < i)%nat ∧
              (trace w ++ es)%list !! j = Some (getUserMedia (Some stream)) ∧
              (trace w ++ es)%list !! S j = Some (new_WebSocket ws)).
  { intros es i ws Hle Hlt.
    destruct (lookup_lt_is_Some_2 (sockets w) ws Hlt) as [[sc stream] Hws].
    destruct (Hsock ws sc stream Hws) as (j & H1 & H2).
    exists j, stream. split; [apply lookup_lt_Some in H2; lia |].
    split; by apply lookup_app_l_Some. }
  destruct Hshape as [(Hs & es & Ht & HQ) | (es & sc & stream & HQ & Hs & Ht)].
  - intros i ws s Hi. rewrite Ht in Hi |- *.
    destruct (decide (i < length (trace w))%nat) as [Hlt | Hge]; [by eapply Hkeep |].
    apply Hnew; [lia |].
    rewrite lookup_app_r in Hi by lia. by eapply sendsKnown_send.
  - intros i ws s Hi. rewrite Ht in Hi |- *.
    destruct (decide (i < length (trace w))%nat) as [Hlt | Hge]; [by eapply Hkeep |].
    rewrite lookup_app_r in Hi by lia.
    destruct (decide (i - length (trace w) < length es)%nat) as [Hlt | Hge'].
    + rewrite lookup_app_l in Hi by done.
      apply Hnew; [lia |]. by eapply sendsKnown_send.
    + rewrite lookup_app_r in Hi by lia.
      destruct (i - length (trace w) - length es)%nat as [| [| k]]; done.
Qed.

Lemma run_sendFollowsMedia (events : list Event) (w : World) :
  handles_wf w ∧ socketsFollowMedia w ∧ createFollowsMedia (trace w)
    ∧ sendFollowsMedia (trace w) →
  handles_wf (run events w) ∧ socketsFollowMedia (run events w)
    ∧ createFollowsMedia (trace (run events w))
    ∧ sendFollowsMedia (trace (run events w)).
Proof.
  revert w. induction events as [| e events IH]; intros w Hinv; [done |].
  apply IH. destruct Hinv as (Hwf & Hsock & Hcreate & Hsend).
  destruct (step_invariant e w (conj Hsock Hcreate)) as [Hsock' Hcreate'].
  destruct (step_sendFollowsMedia e w (conj Hwf (conj Hsock Hsend))) as [Hwf' Hsend'].
  done.
Qed.

(** In every run of the modal from its mount, each envelope that is sent,
    whatever its type (create, accept, offer, answer, candidate, reject,
    end), went out on a socket that was created directly after a
    [getUserMedia] that resolved with a stream: without camera and
    microphone the modal never signals at all. *)
Theorem every_send_follows_media (p : Props) (events : list Event) :
  sendFollowsMedia (trace (run events (mounted p))).
Proof.
  apply run_sendFollowsMedia. split; [| split; [| split]].
  - unfold handles_wf. simpl. split; [| split; [| split]]; try done.
  - intros ws sc stream Hws. done.
  - intros i ws s Hi. done.
  - intros i ws s Hi. done.
Qed.

End VideoCallHandles.
